(** * asciidoc-links: the cross-reference graph and its incremental upkeep

    A shallow embedding of [src/utils.ts], [src/parsing.ts], [src/types.ts]
    and [static/graphs/default/graph.js].

    Modelling conventions.
    - A JavaScript string is a [string]: a sequence of code units, each an
      [ascii] taken as the code unit of the same number (0..255).
    - [graph.nodes] and [graph.edges] are JavaScript arrays, here lists; the
      functions that mutate the graph take it and return the new one.
    - The patterns are run by a backtracking matcher for the fragment of
      ECMAScript regular expressions that the sources use.
    - The Node.js [path] module is the POSIX one ([path.sep] is "/").
    - [createHash("md5")] is MD5 (RFC 1321) over the UTF-8 bytes of the
      string, written out in hexadecimal.
    - An [async] function is a task that waits for reads of files and runs
      synchronous code on the shared graph in between; a scan is the graph
      with the tasks in flight, and a turn of the event loop resumes one of
      them.
    - The objects of the web view are finite maps from property names to
      values; a property that is not there reads as [undefined]. *)

From Stdlib Require Import ZArith List String Ascii Bool Lia.
From stdpp Require Import base option list strings gmap.

Import ListNotations.
Local Open Scope string_scope.

(** ** JavaScript strings *)

Module Js.

Definition chars (s : string) : list ascii := list_ascii_of_string s.
Definition str (l : list ascii) : string := string_of_list_ascii l.

Definition code (c : ascii) : N := N_of_ascii c.

(** White space and line terminators removed by [String.prototype.trim]
    among the code units 0..255: TAB, LF, VT, FF, CR, SP, NBSP. *)
Definition isSpace (c : ascii) : bool :=
  let n := code c in
  ((9 <=? n) && (n <=? 13) || (n =? 32) || (n =? 160))%N.

(** Line terminators: LF and CR. *)
Definition isLineTerminator (c : ascii) : bool :=
  let n := code c in ((n =? 10) || (n =? 13))%N.

(** [\w] is [A-Za-z0-9_]. *)
Definition isWord (c : ascii) : bool :=
  let n := code c in
  ((65 <=? n) && (n <=? 90) || (97 <=? n) && (n <=? 122)
   || (48 <=? n) && (n <=? 57) || (n =? 95))%N.

Fixpoint trimStartL (l : list ascii) : list ascii :=
  match l with
  | c :: l' => if isSpace c then trimStartL l' else l
  | [] => []
  end.

Definition trimL (l : list ascii) : list ascii :=
  rev (trimStartL (rev (trimStartL l))).

Definition trim (s : string) : string := str (trimL (chars s)).

Fixpoint prefixL (p l : list ascii) : bool :=
  match p, l with
  | [], _ => true
  | a :: p', b :: l' => Ascii.eqb a b && prefixL p' l'
  | _ :: _, [] => false
  end.

Definition startsWith (s p : string) : bool := prefixL (chars p) (chars s).

Definition endsWith (s p : string) : bool :=
  prefixL (rev (chars p)) (rev (chars s)).

(** [s.substring(0, n)] for an integer [n]: a negative [n] counts as 0, an
    [n] past the end as the length. *)
Definition substring0 (s : string) (n : Z) : string :=
  str (take (Z.to_nat n) (chars s)).

(** [s.split(sep)] for a one-character separator. *)
Fixpoint splitL (sep : ascii) (cur : list ascii) (l : list ascii)
  : list (list ascii) :=
  match l with
  | [] => [rev cur]
  | c :: l' =>
      if Ascii.eqb c sep then rev cur :: splitL sep [] l'
      else splitL sep (c :: cur) l'
  end.

Definition split (s : string) (sep : ascii) : list string :=
  map str (splitL sep [] (chars s)).

(** [a.join(sep)] *)
Fixpoint join (sep : string) (a : list string) : string :=
  match a with
  | [] => ""
  | [x] => x
  | x :: a' => x ++ sep ++ join sep a'
  end.

(** [a.slice(0, -1)] *)
Definition sliceInit {A} (a : list A) : list A := removelast a.

End Js.

(** ** Regular expressions

    The fragment of ECMAScript patterns the sources use, with the
    backtracking semantics of the language: alternatives are tried in
    priority order (a greedy quantifier first tries one more round), and the
    first successful path gives the match. *)

Module Regex.

Inductive re : Type :=
| Eps                         (* the empty pattern *)
| Lit (c : ascii)             (* a literal character *)
| AnyChar                     (* .   : anything but a line terminator *)
| NoneOf (cs : list ascii)    (* [^...] *)
| Cat (r1 r2 : re)
| Star (r : re)               (* r*  , greedy *)
| Plus (r : re)               (* r+  , greedy *)
| Opt (r : re)                (* r?  , greedy *)
| Group (n : nat) (r : re)    (* the n-th capturing group *)
| Bol                         (* ^   , with the m flag *)
| Eol                         (* $   , with the m flag *)
| WordB                       (* \b *)
| NotAfterWord.               (* (?<!\w) *)

(** A run of patterns, one after the other. *)
Definition seq (rs : list re) : re := fold_right Cat Eps rs.

(** The characters of [s], literally. *)
Definition text (s : string) : re := seq (map Lit (Js.chars s)).

(** A position inside the subject: the characters to the left (nearest
    first), those to the right, and the groups captured so far. *)
Record pos : Type := Pos {
  before : list ascii;
  after : list ascii;
  caps : list (nat * list ascii)
}.

Definition advance (c : ascii) (p : pos) (rest : list ascii) : pos :=
  Pos (c :: before p) rest (caps p).

Definition wordAt (l : list ascii) : bool :=
  match l with c :: _ => Js.isWord c | [] => false end.

Definition lineEdge (l : list ascii) : bool :=
  match l with c :: _ => Js.isLineTerminator c | [] => true end.

Definition inb (c : ascii) (cs : list ascii) : bool :=
  existsb (Ascii.eqb c) cs.

(** The rounds of a greedy quantifier over the matcher [m] of its body: one
    more round if there is one that consumes something and lets the rest
    match, the continuation [k] otherwise.  [n] bounds the number of
    rounds; the characters left are enough. *)
Fixpoint rounds (m : (pos -> option pos) -> pos -> option pos)
    (k : pos -> option pos) (n : nat) (p : pos) : option pos :=
  match n with
  | O => k p
  | S n' =>
      match m (fun p' =>
                 if (List.length (after p') <? List.length (after p))%nat
                 then rounds m k n' p' else None) p with
      | Some q => Some q
      | None => k p
      end
  end.

(** [run r k p]: match [r] at [p], then go on with [k]; [None] is
    failure, which makes the caller backtrack. *)
Fixpoint run (r : re) (k : pos -> option pos) (p : pos) : option pos :=
  match r with
  | Eps => k p
  | Lit c =>
      match after p with
      | a :: rest => if Ascii.eqb a c then k (advance a p rest) else None
      | [] => None
      end
  | AnyChar =>
      match after p with
      | a :: rest =>
          if Js.isLineTerminator a then None else k (advance a p rest)
      | [] => None
      end
  | NoneOf cs =>
      match after p with
      | a :: rest => if inb a cs then None else k (advance a p rest)
      | [] => None
      end
  | Cat r1 r2 => run r1 (run r2 k) p
  | Star r1 => rounds (run r1) k (List.length (after p)) p
  | Plus r1 => run r1 (rounds (run r1) k (List.length (after p))) p
  | Opt r1 =>
      match run r1 k p with
      | Some q => Some q
      | None => k p
      end
  | Group n r1 =>
      run r1 (fun p' =>
                let got := take (List.length (after p) - List.length (after p'))
                                (after p) in
                k (Pos (before p') (after p') ((n, got) :: caps p'))) p
  | Bol => if lineEdge (before p) then k p else None
  | Eol => if lineEdge (after p) then k p else None
  | WordB => if xorb (wordAt (before p)) (wordAt (after p)) then k p else None
  | NotAfterWord => if wordAt (before p) then None else k p
  end.

(** The first match at or to the right of a position: the position where
    it ends, with its groups. *)
Fixpoint search (r : re) (bef aft : list ascii) : option pos :=
  match run r Some (Pos bef aft []) with
  | Some q => Some q
  | None =>
      match aft with
      | [] => None
      | c :: aft' => search r (c :: bef) aft'
      end
  end.

(** The text of group [n] of a match (the last one recorded). *)
Definition group (n : nat) (q : pos) : list ascii :=
  match list_find (fun g => fst g = n) (caps q) with
  | Some (_, (_, s)) => s
  | None => []
  end.

(** [while ((match = r.exec(s)) !== null)] for a [g] pattern: each search
    starts where the previous match ended ([lastIndex]). *)
Fixpoint execAll (r : re) (fuel : nat) (bef aft : list ascii) : list pos :=
  match fuel with
  | O => []
  | S fuel' =>
      match search r bef aft with
      | Some q => q :: execAll r fuel' (before q) (after q)
      | None => []
      end
  end.

Definition matchAll (r : re) (s : string) : list pos :=
  execAll r (S (String.length s)) [] (Js.chars s).

(** [s.match(r)] for a pattern without [g]. *)
Definition matchFirst (r : re) (s : string) : option pos :=
  search r [] (Js.chars s).

(** [r.test(s)] for a pattern without [g]. *)
Definition test (r : re) (s : string) : bool :=
  bool_decide (is_Some (matchFirst r s)).

End Regex.

(** ** MD5

    [createHash("md5").update(s).digest("hex")]: RFC 1321 over the UTF-8
    encoding of [s], 32-bit words as [Z] reduced modulo 2^32. *)

Module Md5.

Local Open Scope Z_scope.

Definition w32 (x : Z) : Z := x mod 2 ^ 32.

Definition rotl (x n : Z) : Z :=
  w32 (Z.lor (Z.shiftl x n) (Z.shiftr (w32 x) (32 - n))).

Definition not32 (x : Z) : Z := Z.lxor x 0xffffffff.

Definition shifts : list Z :=
  [7; 12; 17; 22; 7; 12; 17; 22; 7; 12; 17; 22; 7; 12; 17; 22;
   5; 9; 14; 20; 5; 9; 14; 20; 5; 9; 14; 20; 5; 9; 14; 20;
   4; 11; 16; 23; 4; 11; 16; 23; 4; 11; 16; 23; 4; 11; 16; 23;
   6; 10; 15; 21; 6; 10; 15; 21; 6; 10; 15; 21; 6; 10; 15; 21].

(** [floor (2^32 * abs (sin (i + 1)))] for i = 0..63 *)
Definition sines : list Z :=
  [0xd76aa478; 0xe8c7b756; 0x242070db; 0xc1bdceee;
   0xf57c0faf; 0x4787c62a; 0xa8304613; 0xfd469501;
   0x698098d8; 0x8b44f7af; 0xffff5bb1; 0x895cd7be;
   0x6b901122; 0xfd987193; 0xa679438e; 0x49b40821;
   0xf61e2562; 0xc040b340; 0x265e5a51; 0xe9b6c7aa;
   0xd62f105d; 0x02441453; 0xd8a1e681; 0xe7d3fbc8;
   0x21e1cde6; 0xc33707d6; 0xf4d50d87; 0x455a14ed;
   0xa9e3e905; 0xfcefa3f8; 0x676f02d9; 0x8d2a4c8a;
   0xfffa3942; 0x8771f681; 0x6d9d6122; 0xfde5380c;
   0xa4beea44; 0x4bdecfa9; 0xf6bb4b60; 0xbebfbc70;
   0x289b7ec6; 0xeaa127fa; 0xd4ef3085; 0x04881d05;
   0xd9d4d039; 0xe6db99e5; 0x1fa27cf8; 0xc4ac5665;
   0xf4292244; 0x432aff97; 0xab9423a7; 0xfc93a039;
   0x655b59c3; 0x8f0ccc92; 0xffeff47d; 0x85845dd1;
   0x6fa87e4f; 0xfe2ce6e0; 0xa3014314; 0x4e0811a1;
   0xf7537e82; 0xbd3af235; 0x2ad7d2bb; 0xeb86d391].

(** UTF-8 of one code unit below 256. *)
Definition utf8 (c : ascii) : list Z :=
  let n := Z.of_N (N_of_ascii c) in
  if n <? 128 then [n] else [192 + n / 64; 128 + n mod 64].

Definition bytesOf (s : string) : list Z := flat_map utf8 (Js.chars s).

(** [n] bytes of [x], least significant first. *)
Fixpoint leBytes (n : nat) (x : Z) : list Z :=
  match n with
  | O => []
  | S n' => x mod 256 :: leBytes n' (x / 256)
  end.

Fixpoint leWord (bs : list Z) : Z :=
  match bs with
  | [] => 0
  | b :: bs' => b + 256 * leWord bs'
  end.

(** The message, a 1 bit, zeros up to 56 modulo 64, the bit length. *)
Definition pad (m : list Z) : list Z :=
  let len := Z.of_nat (List.length m) in
  let zeros := Z.to_nat ((55 - len) mod 64) in
  m ++ [128] ++ repeat 0 zeros ++ leBytes 8 (8 * len).

(** Cut into blocks of [n]. *)
Fixpoint chunks {A} (fuel n : nat) (l : list A) : list (list A) :=
  match fuel, l with
  | S fuel', _ :: _ => take n l :: chunks fuel' n (drop n l)
  | _, _ => []
  end.

Definition state : Type := Z * Z * Z * Z.

Definition round (M : list Z) (st : state) (i : Z) : state :=
  let '(A, B, C, D) := st in
  let '(F, g) :=
    if i <? 16 then (Z.lor (Z.land B C) (Z.land (not32 B) D), i)
    else if i <? 32 then
      (Z.lor (Z.land D B) (Z.land (not32 D) C), (5 * i + 1) mod 16)
    else if i <? 48 then (Z.lxor B (Z.lxor C D), (3 * i + 5) mod 16)
    else (Z.lxor C (Z.lor B (not32 D)), (7 * i) mod 16) in
  let F' := w32 (F + A + nth (Z.to_nat i) sines 0 + nth (Z.to_nat g) M 0) in
  (D, w32 (B + rotl F' (nth (Z.to_nat i) shifts 0)), B, C).

Definition block (st : state) (blk : list Z) : state :=
  let M := map leWord (chunks 16 4 blk) in
  let '(a0, b0, c0, d0) := st in
  let '(A, B, C, D) := fold_left (round M) (map Z.of_nat (seq 0 64)) st in
  (w32 (a0 + A), w32 (b0 + B), w32 (c0 + C), w32 (d0 + D)).

Definition digest (m : list Z) : list Z :=
  let p := pad m in
  let '(a, b, c, d) :=
    fold_left block (chunks (List.length p) 64 p)
      (0x67452301, 0xefcdab89, 0x98badcfe, 0x10325476) in
  leBytes 4 a ++ leBytes 4 b ++ leBytes 4 c ++ leBytes 4 d.

Definition hexDigit (n : Z) : ascii :=
  nth (Z.to_nat n) (Js.chars "0123456789abcdef") "0"%char.

Definition hex (bs : list Z) : string :=
  Js.str (flat_map (fun b => [hexDigit (b / 16); hexDigit (b mod 16)]) bs).

Definition md5hex (s : string) : string := hex (digest (bytesOf s)).

End Md5.

(** ** The Node.js [path] module, POSIX flavour

    [extname], [basename], [normalize] and [isAbsolute] follow the loops of
    the library's [lib/path.js], index by index; an index that JavaScript
    initialises to -1 is a [Z]. *)

Module Path.

Local Open Scope Z_scope.

Definition sep : ascii := "/"%char.
Definition dot : ascii := "."%char.

Definition isSep (c : ascii) : bool := Ascii.eqb c sep.
Definition isDot (c : ascii) : bool := Ascii.eqb c dot.

Definition len (l : list ascii) : Z := Z.of_nat (List.length l).

(** [s.slice(a, b)] for 0 <= a. *)
Definition slice (l : list ascii) (a b : Z) : list ascii :=
  take (Z.to_nat (b - a)) (drop (Z.to_nat a) l).

(** *** extname *)

Record extState : Type := ExtState {
  startDot : Z;
  startPart : Z;
  endIdx : Z;
  matchedSlash : bool;
  preDotState : Z
}.

Definition extInit : extState := ExtState (-1) 0 (-1) true 0.

(** The loop [for (i = path.length - 1; i >= 0; --i)]: [l] holds the
    characters at i, i-1, ..., 0. *)
Fixpoint extLoop (l : list ascii) (i : Z) (st : extState) : extState :=
  match l with
  | [] => st
  | c :: l' =>
      if isSep c then
        if negb (matchedSlash st) then
          ExtState (startDot st) (i + 1) (endIdx st) (matchedSlash st)
                   (preDotState st)                       (* break *)
        else extLoop l' (i - 1) st                         (* continue *)
      else
        let st1 :=
          if endIdx st =? -1
          then ExtState (startDot st) (startPart st) (i + 1) false
                        (preDotState st)
          else st in
        let st2 :=
          if isDot c then
            if startDot st1 =? -1
            then ExtState i (startPart st1) (endIdx st1) (matchedSlash st1)
                          (preDotState st1)
            else if negb (preDotState st1 =? 1)
            then ExtState (startDot st1) (startPart st1) (endIdx st1)
                          (matchedSlash st1) 1
            else st1
          else if negb (startDot st1 =? -1)
          then ExtState (startDot st1) (startPart st1) (endIdx st1)
                        (matchedSlash st1) (-1)
          else st1 in
        extLoop l' (i - 1) st2
  end.

Definition extnameL (l : list ascii) : list ascii :=
  let st := extLoop (rev l) (len l - 1) extInit in
  if (startDot st =? -1) || (endIdx st =? -1) || (preDotState st =? 0)
     || ((preDotState st =? 1) && (startDot st =? endIdx st - 1)
         && (startDot st =? startPart st + 1))
  then []
  else slice l (startDot st) (endIdx st).

Definition extname (p : string) : string := Js.str (extnameL (Js.chars p)).

(** *** basename (one argument) *)

Record baseState : Type := BaseState {
  bStart : Z;
  bEnd : Z;
  bMatchedSlash : bool
}.

Fixpoint baseLoop (l : list ascii) (i : Z) (st : baseState) : baseState :=
  match l with
  | [] => st
  | c :: l' =>
      if isSep c then
        if negb (bMatchedSlash st)
        then BaseState (i + 1) (bEnd st) (bMatchedSlash st)   (* break *)
        else baseLoop l' (i - 1) st
      else if bEnd st =? -1
      then baseLoop l' (i - 1) (BaseState (bStart st) (i + 1) false)
      else baseLoop l' (i - 1) st
  end.

Definition basenameL (l : list ascii) : list ascii :=
  let st := baseLoop (rev l) (len l - 1) (BaseState 0 (-1) true) in
  if bEnd st =? -1 then [] else slice l (bStart st) (bEnd st).

Definition basename (p : string) : string := Js.str (basenameL (Js.chars p)).

(** *** isAbsolute *)

Definition isAbsolute (p : string) : bool :=
  match Js.chars p with
  | c :: _ => isSep c
  | [] => false
  end.

(** *** normalize *)

(** [s.lastIndexOf("/")], -1 when there is none. *)
Fixpoint lastIndexOfSep (l : list ascii) (i : Z) (found : Z) : Z :=
  match l with
  | [] => found
  | c :: l' => lastIndexOfSep l' (i + 1) (if isSep c then i else found)
  end.

Record normState : Type := NormState {
  res : list ascii;
  lastSegmentLength : Z;
  lastSlash : Z;
  dots : Z;
  lastCode : ascii
}.

Definition endsDotDot (r : list ascii) : bool :=
  match rev r with
  | a :: b :: _ => isDot a && isDot b
  | _ => false
  end.

(** One round of the loop of [normalizeString], for the character [c] at
    index [i]. *)
Definition normStep (path : list ascii) (allowAboveRoot : bool)
    (i : Z) (c : ascii) (st : normState) : normState :=
  if isSep c then
    if (lastSlash st =? i - 1) || (dots st =? 1) then
      NormState (res st) (lastSegmentLength st) i 0 c
    else if dots st =? 2 then
      if (len (res st) <? 2) || negb (lastSegmentLength st =? 2)
         || negb (endsDotDot (res st)) then
        if 2 <? len (res st) then
          let lastSlashIndex := lastIndexOfSep (res st) 0 (-1) in
          if lastSlashIndex =? -1
          then NormState [] 0 i 0 c
          else
            let r := slice (res st) 0 lastSlashIndex in
            NormState r (len r - 1 - lastIndexOfSep r 0 (-1)) i 0 c
        else if negb (len (res st) =? 0) then
          NormState [] 0 i 0 c
        else if allowAboveRoot then
          NormState (if 0 <? len (res st)
                     then res st ++ [sep; dot; dot] else [dot; dot])
                    2 i 0 c
        else NormState (res st) (lastSegmentLength st) i 0 c
      else if allowAboveRoot then
        NormState (if 0 <? len (res st)
                   then res st ++ [sep; dot; dot] else [dot; dot])
                  2 i 0 c
      else NormState (res st) (lastSegmentLength st) i 0 c
    else
      let seg := slice path (lastSlash st + 1) i in
      NormState (if 0 <? len (res st) then res st ++ sep :: seg else seg)
                (i - lastSlash st - 1) i 0 c
  else if isDot c && negb (dots st =? -1) then
    NormState (res st) (lastSegmentLength st) (lastSlash st) (dots st + 1) c
  else
    NormState (res st) (lastSegmentLength st) (lastSlash st) (-1) c.

(** [for (i = 0; i <= path.length; ++i)]: past the last character the loop
    stops if that was a separator and plays one "/" otherwise. *)
Fixpoint normLoop (path : list ascii) (allowAboveRoot : bool)
    (rest : list ascii) (i : Z) (st : normState) : list ascii :=
  match rest with
  | c :: rest' =>
      normLoop path allowAboveRoot rest' (i + 1)
               (normStep path allowAboveRoot i c st)
  | [] =>
      if isSep (lastCode st) then res st
      else res (normStep path allowAboveRoot i sep st)
  end.

Definition normalizeString (path : list ascii) (allowAboveRoot : bool)
  : list ascii :=
  normLoop path allowAboveRoot path 0 (NormState [] 0 (-1) 0 "000"%char).

Definition normalizeL (path : list ascii) : list ascii :=
  match path with
  | [] => [dot]
  | c0 :: _ =>
      let isAbs := isSep c0 in
      let trailingSeparator :=
        match rev path with c :: _ => isSep c | [] => false end in
      let p := normalizeString path (negb isAbs) in
      match p with
      | [] => if isAbs then [sep]
              else if trailingSeparator then [dot; sep] else [dot]
      | _ =>
          let p' := if trailingSeparator then (p ++ [sep])%list else p in
          if isAbs then sep :: p' else p'
      end
  end.

Definition normalize (p : string) : string := Js.str (normalizeL (Js.chars p)).

End Path.

(** ** [src/types.ts] *)

Module Types.

Inductive EdgeType : Type := link | include | include_partial.

Record Edge : Type := mkEdge {
  source : string;
  target : string;
  type : EdgeType
}.

Record Node : Type := mkNode {
  id : string;
  path : string;
  label : string
}.

Record Graph : Type := mkGraph {
  nodes : list Node;
  edges : list Edge
}.

Record AsciidocLink : Type := mkLink {
  linkTarget : string;        (* the field [target] of an AsciidocLink *)
  linkType : EdgeType         (* the field [type] of an AsciidocLink *)
}.

#[global] Instance EdgeType_eq_dec : EqDecision EdgeType.
Proof. solve_decision. Defined.
#[global] Instance Edge_eq_dec : EqDecision Edge.
Proof. solve_decision. Defined.
#[global] Instance Node_eq_dec : EqDecision Node.
Proof. solve_decision. Defined.

End Types.

(** ** [src/utils.ts] *)

Module Utils.

Import Regex.
Export Types.

(** [xrefPattern], with the g flag: "xref:", group 1 (one or more characters
    other than "[", then ".adoc"), "[", characters other than "]", "]". *)
Definition xrefPattern : re :=
  seq [text "xref:";
       Group 1 (seq [Plus (NoneOf ["["%char]); text ".adoc"]);
       Lit "["; Star (NoneOf ["]"%char]); Lit "]"].

(** [anchorXrefPattern], with the g flag: "<<", group 1 (one or more
    characters other than "," and ">", then ".adoc"), optionally "," and
    characters other than ">", then ">" and optionally one more ">". *)
Definition anchorXrefPattern : re :=
  seq [text "<<";
       Group 1 (seq [Plus (NoneOf [","%char; ">"%char]); text ".adoc"]);
       Opt (seq [Lit ","; Star (NoneOf [">"%char])]);
       Lit ">"; Opt (Lit ">")].

(** [includePattern], with the g flag: "include::", group 1 as in
    [xrefPattern], "[", group 2 (characters other than "]"), "]". *)
Definition includePattern : re :=
  seq [text "include::";
       Group 1 (seq [Plus (NoneOf ["["%char]); text ".adoc"]);
       Lit "["; Group 2 (Star (NoneOf ["]"%char])); Lit "]"].

(** [linkPattern], with the g flag: not after a word character, "link:",
    then as [xrefPattern]. *)
Definition linkPattern : re :=
  seq [NotAfterWord; text "link:";
       Group 1 (seq [Plus (NoneOf ["["%char]); text ".adoc"]);
       Lit "["; Star (NoneOf ["]"%char]); Lit "]"].

(** [titlePattern], with the m flag: at the start of a line "=", one or
    more spaces, group 1 (one or more characters of the line), the end of
    the line. *)
Definition titlePattern : re :=
  seq [Bol; Lit "="; Plus (Lit " "); Group 1 (Plus AnyChar); Eol].

(** [partialPatterns]: a word boundary, then "tag=", "tags=" or "lines=". *)
Definition partialPatterns : list re :=
  [seq [WordB; text "tag="];
   seq [WordB; text "tags="];
   seq [WordB; text "lines="]].

(** [match[n].trim()] *)
Definition groupTrim (n : nat) (m : pos) : string :=
  Js.trim (Js.str (group n m)).

Definition isExternalUrl (url : string) : bool :=
  Js.startsWith url "http://" || Js.startsWith url "https://".

Definition hasPartialIncludeAttributes (attributes : string) : bool :=
  if String.eqb attributes "" then false
  else existsb (fun pattern => test pattern attributes) partialPatterns.

(** [links.push(x)] *)
Definition push {A} (a : list A) (x : A) : list A := (a ++ [x])%list.

Definition findAsciidocLinks (content : string) : list AsciidocLink :=
  let links : list AsciidocLink := [] in
  let links :=
    fold_left (fun links m =>
                 let target := groupTrim 1 m in
                 if negb (isExternalUrl target)
                 then push links (mkLink target link) else links)
              (matchAll xrefPattern content) links in
  let links :=
    fold_left (fun links m =>
                 let target := groupTrim 1 m in
                 if negb (isExternalUrl target) && Js.endsWith target ".adoc"
                 then push links (mkLink target link) else links)
              (matchAll anchorXrefPattern content) links in
  let links :=
    fold_left (fun links m =>
                 let target := groupTrim 1 m in
                 if negb (isExternalUrl target)
                 then push links (mkLink target link) else links)
              (matchAll linkPattern content) links in
  let links :=
    fold_left (fun links m =>
                 let target := groupTrim 1 m in
                 let attributes := groupTrim 2 m in
                 if negb (isExternalUrl target) then
                   let isPartial := hasPartialIncludeAttributes attributes in
                   push links
                        (mkLink target
                                (if isPartial then include_partial
                                 else include))
                 else links)
              (matchAll includePattern content) links in
  links.

(** The settings read through [getConfiguration]. *)
Record Config : Type := mkConfig {
  titleMaxLength : Z;
  fileTypes : option (list string)
}.

Definition getTitleMaxLength (cfg : Config) : Z := titleMaxLength cfg.

Definition getFileTypesSetting (cfg : Config) : list string :=
  match fileTypes cfg with
  | Some l => l
  | None => ["adoc"; "asciidoc"]
  end.

Definition findAsciidocTitle (cfg : Config) (content : string)
  : option string :=
  match matchFirst titlePattern content with
  | Some m =>
      let title := groupTrim 1 m in
      let titleMaxLength := getTitleMaxLength cfg in
      let title :=
        if ((0 <? titleMaxLength)
            && (titleMaxLength <? Z.of_nat (String.length title)))%Z
        then Js.substring0 title titleMaxLength ++ "..."
        else title in
      Some title
  | None => None
  end.

(** [path.substring(0, path.length - extname(path).length)] *)
Definition pathWithoutExt (path : string) : string :=
  Js.substring0 path
    (Z.of_nat (String.length path)
     - Z.of_nat (String.length (Path.extname path))).

Definition id (path : string) : string :=
  Md5.md5hex (pathWithoutExt path).

(** [!!graph.nodes.find(...)] *)
Definition exists_ (graph : Graph) (id : string) : bool :=
  match find (fun node => String.eqb (Types.id node) id) (nodes graph) with
  | Some _ => true
  | None => false
  end.

Definition filterNonExistingEdges (graph : Graph) : Graph :=
  mkGraph (nodes graph)
          (List.filter (fun edge => exists_ graph (source edge)
                                    && exists_ graph (target edge))
                       (edges graph)).

End Utils.

(** ** [src/parsing.ts] *)

Module Parsing.

Export Utils.

(** [a.findIndex(f)]: the index of the first element that passes, -1 when
    there is none. *)
Fixpoint findIndexFrom {A} (f : A -> bool) (a : list A) (i : Z) : Z :=
  match a with
  | [] => -1
  | x :: a' => if f x then i else findIndexFrom f a' (i + 1)
  end.

Definition findIndex {A} (f : A -> bool) (a : list A) : Z :=
  findIndexFrom f a 0.

(** [!title] for a [string | null]: null and the empty string. *)
Definition not_ (title : option string) : bool :=
  match title with
  | None => true
  | Some s => String.eqb s ""
  end.

(** [node.label = title] *)
Definition setLabel (title : string) (node : Node) : Node :=
  mkNode (Types.id node) (path node) title.

(** The path a reference points to (the first lines of the loop over
    [links]). *)
Definition targetPath (parentDirectory linkTarget : string) : string :=
  let target := Path.normalize linkTarget in
  if negb (Path.isAbsolute linkTarget)
  then Path.normalize (parentDirectory ++ "/" ++ linkTarget)
  else target.

(** [filePath.split(path.sep).slice(0, -1).join(path.sep)] *)
Definition parentDirectoryOf (filePath : string) : string :=
  Js.join "/" (Js.sliceInit (Js.split filePath Path.sep)).

(** What [parseFile] does once the content has been read: everything from
    [findAsciidocTitle] on, applied to the graph as it is at that time.
    [filePath] is the normalized path. *)
Definition parseContent (cfg : Config) (filePath content : string)
    (graph : Graph) : Graph :=
  let title := findAsciidocTitle cfg content in
  let index :=
    findIndex (fun node => String.eqb (path node) filePath) (nodes graph) in
  if not_ title then
    if negb (index =? -1)%Z
    then mkGraph (delete (Z.to_nat index) (nodes graph)) (edges graph)
    else graph
  else
    let title := default "" title in
    let nodes1 :=
      if negb (index =? -1)%Z
      then alter (setLabel title) (Z.to_nat index) (nodes graph)
      else push (nodes graph) (mkNode (id filePath) filePath title) in
    let edges1 :=
      List.filter (fun edge => negb (String.eqb (source edge) (id filePath)))
                  (edges graph) in
    let links := findAsciidocLinks content in
    let parentDirectory := parentDirectoryOf filePath in
    let edges2 :=
      fold_left (fun edges link =>
                   let target := targetPath parentDirectory (linkTarget link) in
                   push edges (mkEdge (id filePath) (id target) (linkType link)))
                links edges1 in
    mkGraph nodes1 edges2.

(** *** Asynchronous functions

    An [async] function is a [task]: it has settled, or it waits for the
    content of a file ([await vscode.workspace.fs.readFile], decoded; the
    answer is [None] when the read fails, which throws at the [await]), or
    it has a stretch of synchronous code to run on the shared graph. *)

Inductive settled : Type := Fulfilled | Rejected.

Inductive task : Type :=
| Settled (r : settled)
| Await (file : string) (k : option string -> task)
| Sync (f : Graph -> Graph) (t : task).

Definition parseFile (cfg : Config) (filePath : string) : task :=
  let filePath := Path.normalize filePath in
  Await filePath
        (fun buffer =>
           match buffer with
           | None => Settled Rejected
           | Some content =>
               Sync (parseContent cfg filePath content) (Settled Fulfilled)
           end).

(** The files of the workspace: the decoded content of each readable one. *)
Definition FileSystem : Type := string -> option string.

(** A task run to its end with nothing else in between. *)
Fixpoint complete (fs : FileSystem) (t : task) (graph : Graph)
  : settled * Graph :=
  match t with
  | Settled r => (r, graph)
  | Await file k => complete fs (k (fs file)) graph
  | Sync f t' => complete fs t' (f graph)
  end.

(** The synchronous code of a task up to its next [await]. *)
Fixpoint runSync (t : task) (graph : Graph) : task * Graph :=
  match t with
  | Sync f t' => runSync t' (f graph)
  | _ => (t, graph)
  end.

(** *** parseDirectory *)

(** [vscode.workspace.findFiles] for the glob built from the file types:
    the files of the workspace whose name ends in "." and one of them
    (the exclusion settings of the editor are left out). *)
Definition findFiles (cfg : Config) (workspace : list string) : list string :=
  List.filter
    (fun file =>
       existsb (fun f => Js.endsWith file ("." ++ f))
               (getFileTypesSetting cfg))
    workspace.

Definition hiddenFile (file : string) : bool :=
  Js.startsWith (Path.basename file) ".".

(** The state of a scan: the shared graph and the promises pushed so far,
    each with what is left of its invocation. *)
Record scan : Type := mkScan {
  graph : Graph;
  promises : list task
}.

(** The loop over [files]: every call runs up to its first [await] and
    its promise is pushed; nothing is awaited in between. *)
Definition launch (fileCallback : string -> task) (files : list string)
    (graph : Graph) : scan :=
  fold_left (fun sc file =>
               if negb (hiddenFile file) then
                 let '(t, g) := runSync (fileCallback file) (Parsing.graph sc) in
                 mkScan g (push (promises sc) t)
               else sc)
            files (mkScan graph []).

Definition parseDirectory (cfg : Config) (workspace : list string)
    (fileCallback : string -> task) (graph : Graph) : scan :=
  launch fileCallback (findFiles cfg workspace) graph.

(** One turn of the event loop: the read that promise [i] waits for
    completes and its invocation runs up to its next [await]. *)
Definition resume (fs : FileSystem) (i : nat) (sc : scan) : option scan :=
  match promises sc !! i with
  | Some (Await file k) =>
      let '(t, g) := runSync (k (fs file)) (graph sc) in
      Some (mkScan g (<[i := t]> (promises sc)))
  | _ => None
  end.

Definition step (fs : FileSystem) (sc sc' : scan) : Prop :=
  exists i, resume fs i sc = Some sc'.

(** The state of a promise. *)
Inductive promiseState : Type := Pending | Done (r : settled).

Definition stateOf (t : task) : promiseState :=
  match t with
  | Settled r => Done r
  | _ => Pending
  end.

Definition isRejected (t : task) : bool :=
  match t with Settled Rejected => true | _ => false end.

Definition isFulfilled (t : task) : bool :=
  match t with Settled Fulfilled => true | _ => false end.

(** [Promise.all(promises)]: rejected as soon as one of them is rejected,
    fulfilled once all of them are. *)
Definition promiseAll (ps : list task) : promiseState :=
  if existsb isRejected ps then Done Rejected
  else if forallb isFulfilled ps then Done Fulfilled
  else Pending.

(** The promise [parseDirectory] returns: that of [await Promise.all]. *)
Definition scanState (sc : scan) : promiseState := promiseAll (promises sc).

End Parsing.

(** ** [static/graphs/default/graph.js]

    The objects of the web view.  A node object maps property names to
    strings; reading a property it does not have gives [undefined], here
    [None].  In a link object [source] and [target] are strings as they
    arrive, and node objects once the force layout has taken the links
    over. *)

Module GraphJs.

Abbreviation nodeObj := (gmap string string).

Inductive value : Type :=
| Str (s : string)
| Ref (node : nodeObj).

Abbreviation linkObj := (gmap string value).

(** The objects of a snapshot message, as [types.ts] has them. *)
Definition ofNode (n : Types.Node) : nodeObj :=
  {[ "id" := Types.id n; "path" := Types.path n; "label" := Types.label n ]}.

Definition typeName (t : Types.EdgeType) : string :=
  match t with
  | Types.link => "link"
  | Types.include => "include"
  | Types.include_partial => "include-partial"
  end.

Definition ofEdge (e : Types.Edge) : linkObj :=
  {[ "source" := Str (Types.source e); "target" := Str (Types.target e);
     "type" := Str (typeName (Types.type e)) ]}.

(** [!x] for a string or [undefined] *)
Definition not_ (x : option string) : bool :=
  match x with
  | None => true
  | Some s => String.eqb s ""
  end.

Definition sameNodes (previous next : list nodeObj) : bool :=
  if negb (List.length next =? List.length previous)%nat then false
  else
    let map : gmap (option string) (option string) :=
      fold_left (fun map node => <[ node !! "id" := node !! "label" ]> map)
                previous ∅ in
    forallb (fun node =>
               let found := default None (map !! (node !! "id")) in
               negb (not_ found
                     || negb (bool_decide (found = node !! "title"))))
            next.

(** [`${x}`] *)
Definition show (x : option value) : string :=
  match x with
  | None => "undefined"
  | Some (Str s) => s
  | Some (Ref _) => "[object Object]"
  end.

(** [x.id] for the value of a property; on [undefined] it throws. *)
Definition idOf (x : option value) : option (option value) :=
  match x with
  | None => None
  | Some (Str _) => Some None
  | Some (Ref node) => Some (Str <$> node !! "id")
  end.

(** [edge.type || 'link'] *)
Definition typeOr (x : option value) : option value :=
  match x with
  | None => Some (Str "link")
  | Some (Str s) => if String.eqb s "" then Some (Str "link") else x
  | Some (Ref _) => x
  end.

(** The key of a link of [previous]; [None] when reading it throws. *)
Definition previousKey (edge : linkObj) : option string :=
  s ← idOf (edge !! "source");
  t ← idOf (edge !! "target");
  Some (show s ++ "-" ++ show t ++ "-" ++ show (typeOr (edge !! "type"))).

Definition nextKey (edge : linkObj) : string :=
  show (edge !! "source") ++ "-" ++ show (edge !! "target") ++ "-"
  ++ show (typeOr (edge !! "type")).

(** [None] when building the set throws a TypeError. *)
Definition sameEdges (previous next : list linkObj) : option bool :=
  if negb (List.length next =? List.length previous)%nat then Some false
  else
    set ← foldl (fun (acc : option (gset string)) edge =>
                   set ← acc; key ← previousKey edge; Some ({[ key ]} ∪ set))
                (Some ∅) previous;
    Some (forallb (fun edge => bool_decide (nextKey edge ∈ set)) next).

(** The state of the view: the two arrays and the number of calls of
    [restart] so far. *)
Record view : Type := mkView {
  nodesData : list nodeObj;
  linksData : list linkObj;
  restarts : nat
}.

(** What the force layout does to a link it is given: a [source] or
    [target] that names a node of [nodesData] becomes that node. *)
Definition bind (nodes : list nodeObj) (x : option value) : option value :=
  match x with
  | Some (Str s) =>
      match find (fun n => bool_decide (n !! "id" = Some s)) nodes with
      | Some n => Some (Ref n)
      | None => x
      end
  | _ => x
  end.

Definition bindLink (nodes : list nodeObj) (edge : linkObj) : linkObj :=
  partial_alter (fun _ => bind nodes (edge !! "target")) "target"
    (partial_alter (fun _ => bind nodes (edge !! "source")) "source" edge).

Definition restart (v : view) : view :=
  mkView (nodesData v) (map (bindLink (nodesData v)) (linksData v))
         (S (restarts v)).

(** The view once the script has run: both arrays empty and [restart]
    called once. *)
Definition loaded : view := restart (mkView [] [] 0).

(** The [refresh] case of the message listener; [None] when it throws. *)
Definition refresh (nodes : list nodeObj) (edges : list linkObj) (v : view)
  : option view :=
  if sameNodes (nodesData v) nodes then
    match sameEdges (linksData v) edges with
    | Some true => Some v                                    (* return *)
    | Some false => Some (restart (mkView nodes edges (restarts v)))
    | None => None
    end
  else Some (restart (mkView nodes edges (restarts v))).

End GraphJs.

(** ** Vocabulary of the statements *)

Module Spec.

Import Parsing.

(** The edges a source contributes to a graph. *)
Definition contribution (graph : Graph) (sourceId : string) : list Edge :=
  List.filter (fun edge => String.eqb (source edge) sourceId) (edges graph).

(** The edges of the other sources. *)
Definition others (graph : Graph) (sourceId : string) : list Edge :=
  List.filter (fun edge => negb (String.eqb (source edge) sourceId))
              (edges graph).

(** The edge [parseFile] pushes for a reference found in [filePath]. *)
Definition referenceEdge (filePath : string) (link : AsciidocLink) : Edge :=
  mkEdge (id filePath)
         (id (targetPath (parentDirectoryOf filePath) (linkTarget link)))
         (linkType link).

(** Some node of the graph has this id. *)
Definition hasNode (graph : Graph) (nodeId : string) : Prop :=
  exists node, In node (nodes graph) /\ Types.id node = nodeId.

(** The node of a path: the first one with it. *)
Definition nodeOf (graph : Graph) (filePath : string) : option Node :=
  find (fun node => String.eqb (path node) filePath) (nodes graph).

(** No two nodes have the same path. *)
Definition uniquePaths (graph : Graph) : Prop :=
  NoDup (map path (nodes graph)).

(** The files a scan calls back for: those [findFiles] returns whose base
    name does not start with a dot. *)
Definition eligible (cfg : Config) (workspace : list string) : list string :=
  List.filter (fun file => negb (hiddenFile file)) (findFiles cfg workspace).

(** A promise that has settled. *)
Definition hasSettled (t : task) : Prop := stateOf t <> Pending.

(** [needle] occurs in [s]: after some characters [pre], before some
    characters [post]. *)
Definition contains (s needle : string) : Prop :=
  exists pre post : list ascii,
    Js.chars s = (pre ++ Js.chars needle ++ post)%list.

(** [needle] occurs in [s] at the start of a word: at the very start of
    [s] or just after a character that is not a word character. *)
Definition atWordStartL (l needle : list ascii) : Prop :=
  exists pre post : list ascii,
    l = (pre ++ needle ++ post)%list /\ Regex.wordAt (rev pre) = false.

Definition atWordStart (s needle : string) : Prop :=
  atWordStartL (Js.chars s) (Js.chars needle).

(** The type the loop over the include directives gives a reference with
    the attributes [attributes] (trimmed). *)
Definition includeType (attributes : string) : EdgeType :=
  if hasPartialIncludeAttributes attributes then include_partial else include.

(** The references [findAsciidocLinks] pushes for the include directives. *)
Definition includeRefs (content : string) : list AsciidocLink :=
  map (fun m => mkLink (groupTrim 1 m) (includeType (groupTrim 2 m)))
      (List.filter (fun m => negb (isExternalUrl (groupTrim 1 m)))
                   (Regex.matchAll includePattern content)).

(** Two different strings with the same MD5. *)
Definition collide (a b : string) : Prop :=
  a <> b /\ Md5.md5hex a = Md5.md5hex b.

(** A path that ends in the name of a file: it is not empty and does not
    end in "/". *)
Definition namesAFile (p : string) : Prop :=
  exists (q : string) (c : ascii),
    p = (q ++ String c "")%string /\ Path.isSep c = false.

(** A pattern that cannot match the empty string: every match ends
    further to the right than it starts. *)
Definition consuming (r : Regex.re) : Prop :=
  forall p q : Regex.pos,
    Regex.run r Some p = Some q ->
    (List.length (Regex.after q) < List.length (Regex.after p))%nat.

(** A graph after [parseFile], run alone. *)
Definition parsed (cfg : Config) (fs : FileSystem) (filePath : string)
    (graph : Graph) : Graph :=
  snd (complete fs (parseFile cfg filePath) graph).

End Spec.

(** ** A small workspace, for the examples *)

Module Example.

Import Parsing.

Definition nl : string := String "010" "".

Definition cfg : Config := mkConfig 0 None.

Definition contentA : string := "= A" ++ nl ++ "include::b.adoc[]".
Definition contentTwin : string := "= A again" ++ nl ++ "xref:c.adoc[see C]".
Definition contentPlain : string := "no heading here, but xref:a.adoc[A]".

Definition files : list (string * string) :=
  [("/docs/a.adoc", contentA);
   ("/docs/a.asciidoc", contentTwin);
   ("/docs/b.adoc", "= B" ++ nl ++ "body");
   ("/docs/notitle.adoc", contentPlain);
   ("a.adoc", "= A");
   ("a.asciidoc", "= A, the other one")].

(** Every other path is unreadable. *)
Definition fs : FileSystem := fun file =>
  snd <$> find (fun entry => String.eqb (fst entry) file) files.

Definition empty : Graph := mkGraph [] [].

(** A graph with an edge left by an older version of "/docs/a.adoc" and
    an edge of another source. *)
Definition stale : Graph :=
  mkGraph [] [mkEdge (id "/docs/a.adoc") "stale" link;
              mkEdge "other" (id "/docs/a.adoc") include].

(** The graph once "/docs/a.adoc" has been parsed, and then its twin. *)
Definition afterA : Graph := Spec.parsed cfg fs "/docs/a.adoc" empty.
Definition afterTwin : Graph := Spec.parsed cfg fs "/docs/a.asciidoc" afterA.

(** A graph in which "/docs/notitle.adoc" still has the node and the
    edges of a version that had a title. *)
Definition nodeA : Node := mkNode (id "/docs/a.adoc") "/docs/a.adoc" "A".
Definition nodePlain : Node :=
  mkNode (id "/docs/notitle.adoc") "/docs/notitle.adoc" "Once a title".
Definition titled : Graph :=
  mkGraph [nodePlain; nodeA]
          [mkEdge (id "/docs/notitle.adoc") (id "/docs/a.adoc") link;
           mkEdge (id "/docs/a.adoc") (id "/docs/notitle.adoc") include].

(** The snapshot of a graph with two nodes and an edge between them, and
    the view after it has been shown once. *)
Definition snapshotNodes : list GraphJs.nodeObj :=
  [GraphJs.ofNode nodeA; GraphJs.ofNode nodePlain].
Definition snapshotEdges : list GraphJs.linkObj :=
  [GraphJs.ofEdge (mkEdge (id "/docs/a.adoc") (id "/docs/notitle.adoc") include)].
Definition shown : option GraphJs.view :=
  GraphJs.refresh snapshotNodes snapshotEdges GraphJs.loaded.

(** The graph of three files, two of which are twins, and the file system
    after "/docs/a.adoc" has lost its title. *)
Definition nodeTwin : Node :=
  mkNode (id "/docs/a.asciidoc") "/docs/a.asciidoc" "A again".
Definition nodeB : Node := mkNode (id "/docs/b.adoc") "/docs/b.adoc" "B".
Definition twins : Graph :=
  Spec.parsed cfg fs "/docs/b.adoc"
    (Spec.parsed cfg fs "/docs/a.adoc"
       (Spec.parsed cfg fs "/docs/a.asciidoc" empty)).
Definition contentLater : string := "the heading is gone, include::b.adoc[] is not".
Definition fsLater : FileSystem := fun file =>
  if String.eqb file "/docs/a.adoc" then Some contentLater else fs file.

(** A corpus of three files: A includes B, C includes a part of B. *)
Definition corpus : FileSystem := fun file =>
  if String.eqb file "/corpus/A.adoc"
  then Some ("= A" ++ nl ++ "include::B.adoc[]")
  else if String.eqb file "/corpus/B.adoc" then Some ("= B" ++ nl ++ "text")
  else if String.eqb file "/corpus/C.adoc"
  then Some ("= C" ++ nl ++ "include::B.adoc[tag=x]")
  else None.
Definition corpusGraph : Graph :=
  Spec.parsed cfg corpus "/corpus/C.adoc"
    (Spec.parsed cfg corpus "/corpus/B.adoc"
       (Spec.parsed cfg corpus "/corpus/A.adoc" empty)).

(** A workspace with an unreadable file, a readable one, a hidden one and
    one of another type; the scan of it just after [parseDirectory] has
    pushed its promises, and after the first read has failed. *)
Definition workspace : list string :=
  ["/docs/gone.adoc"; "/docs/a.adoc"; "/docs/.hidden.adoc"; "/docs/notes.txt"].
Definition scanning : scan := parseDirectory cfg workspace (parseFile cfg) empty.
Definition scanFailed : option scan := resume fs 0 scanning.

(** The edge "/docs/a.adoc" contributes. *)
Definition edgeAB : Edge :=
  mkEdge (id "/docs/a.adoc") (id "/docs/b.adoc") include.

End Example.

(** ** [src/parsing.ts]: the table of file names

    [idToPath] is an object used as a map.  It is modelled by the
    properties it has of its own; reading a name it does not have finds what
    [Object.prototype] has under that name, and [undefined] only when that
    has none either.  An assignment to "__proto__" goes to the setter of
    the prototype, which ignores a string. *)

Module Resolver.

Abbreviation table := (gmap string string).

(** What reading a property gives: a path stored in the table, or a member
    of [Object.prototype]. *)
Inductive property : Type :=
| Stored (filePath : string)
| Builtin (name : string).

(** The names [Object.prototype] has. *)
Definition prototype : list string :=
  ["constructor"; "__defineGetter__"; "__defineSetter__"; "hasOwnProperty";
   "__lookupGetter__"; "__lookupSetter__"; "isPrototypeOf";
   "propertyIsEnumerable"; "toString"; "valueOf"; "__proto__";
   "toLocaleString"].

(** [idToPath[key]]; [None] is [undefined]. *)
Definition get (idToPath : table) (key : string) : option property :=
  match idToPath !! key with
  | Some filePath => Some (Stored filePath)
  | None => if bool_decide (key ∈ prototype) then Some (Builtin key) else None
  end.

(** [idToPath[key] = value] for a string [value]. *)
Definition set (idToPath : table) (key value : string) : table :=
  if String.eqb key "__proto__" then idToPath else <[key := value]> idToPath.

Definition idResolver (idToPath : table) (targetId : string)
  : option property :=
  get idToPath targetId.

(** [fileName.split(".").slice(0, -1).join(".")] *)
Definition withoutExt (fileName : string) : string :=
  Js.join "." (Js.sliceInit (Js.split fileName Path.dot)).

(** [learnFileId] has no [await]: a call has run to its end when it
    returns its promise, which is fulfilled. *)
Definition learnFileId (idToPath : table) (filePath : string) : table :=
  let fileName := Path.basename filePath in
  let idToPath := set idToPath fileName filePath in
  let fileNameWithoutExt := withoutExt fileName in
  set idToPath fileNameWithoutExt filePath.

End Resolver.

(** ** What a pattern matches

    The matcher of [Regex] searches; [matches r p p'] says that [r] can
    match from the position [p] to the position [p'], by some choice at
    each alternative.  Every result of the matcher is such a match. *)

Module Matching.

Import Regex.

(** The characters between two positions of one subject. *)
Definition consumed (p p' : pos) : list ascii :=
  take (List.length (after p) - List.length (after p')) (after p).

(** The position of a group once its body has matched from [p] to [p']. *)
Definition captured (n : nat) (p p' : pos) : pos :=
  Pos (before p') (after p') ((n, consumed p p') :: caps p').

Fixpoint matches (r : re) (p p' : pos) : Prop :=
  match r with
  | Eps => p' = p
  | Lit c => exists rest, after p = c :: rest /\ p' = advance c p rest
  | AnyChar =>
      exists a rest,
        after p = a :: rest /\ Js.isLineTerminator a = false
        /\ p' = advance a p rest
  | NoneOf cs =>
      exists a rest,
        after p = a :: rest /\ inb a cs = false /\ p' = advance a p rest
  | Cat r1 r2 => exists p1, matches r1 p p1 /\ matches r2 p1 p'
  | Star r1 => rtc (matches r1) p p'
  | Plus r1 => exists p1, matches r1 p p1 /\ rtc (matches r1) p1 p'
  | Opt r1 => matches r1 p p' \/ p' = p
  | Group n r1 => exists p1, matches r1 p p1 /\ p' = captured n p p1
  | Bol => lineEdge (before p) = true /\ p' = p
  | Eol => lineEdge (after p) = true /\ p' = p
  | WordB => xorb (wordAt (before p)) (wordAt (after p)) = true /\ p' = p
  | NotAfterWord => wordAt (before p) = false /\ p' = p
  end.

(** [p'] is to the right of [p] in the same subject. *)
Definition extends (p p' : pos) : Prop :=
  exists w, after p = (w ++ after p')%list /\ before p' = (rev w ++ before p)%list.

(** A pattern without groups. *)
Fixpoint plain (r : re) : bool :=
  match r with
  | Cat r1 r2 => plain r1 && plain r2
  | Star r1 | Plus r1 | Opt r1 => plain r1
  | Group _ _ => false
  | _ => true
  end.

End Matching.

(** ** Vocabulary of the further statements *)

Module Terms.

Import Parsing.

(** The nodes of the other paths, in their order. *)
Definition otherNodes (graph : Graph) (filePath : string) : list Node :=
  List.filter (fun node => negb (String.eqb (path node) filePath))
              (nodes graph).

(** The id a node of [filePath] has after a parse: the one of the node the
    path had, the key of the path if it had none. *)
Definition keptId (graph : Graph) (filePath : string) : string :=
  match Spec.nodeOf graph filePath with
  | Some node => Types.id node
  | None => id filePath
  end.

(** What a parse of [content] contributes to the nodes: a node of the path
    with the title for label, nothing when there is no title. *)
Definition entry (cfg : Config) (filePath content : string) (graph : Graph)
  : list Node :=
  match findAsciidocTitle cfg content with
  | Some title =>
      if String.eqb title "" then []
      else [mkNode (keptId graph filePath) filePath title]
  | None => []
  end.

(** Every node has the key of its path for id. *)
Definition wellKeyed (graph : Graph) : Prop :=
  Forall (fun node => Types.id node = id (path node)) (nodes graph).

(** How the parse of a file ends: fulfilled when the file can be read. *)
Definition outcome (fs : FileSystem) (file : string) : settled :=
  match fs (Path.normalize file) with
  | Some _ => Fulfilled
  | None => Rejected
  end.

(** A scan of [files] by [parseFile]: each promise still waits for its file
    or has settled the way the file makes it settle. *)
Definition scanOf (cfg : Config) (fs : FileSystem) (files : list string)
    (sc : scan) : Prop :=
  Forall2 (fun t file => t = parseFile cfg file \/ t = Settled (outcome fs file))
          (promises sc) files.

(** The number of promises of a scan that have settled. *)
Definition settledCount (sc : scan) : nat :=
  List.length
    (List.filter (fun t => match stateOf t with Pending => false | _ => true end)
                 (promises sc)).

(** No turn of the event loop is possible. *)
Definition quiescent (fs : FileSystem) (sc : scan) : Prop :=
  forall sc', ~ step fs sc sc'.

(** The names [learnFileId] stores a file under. *)
Definition names (filePath : string) : list string :=
  [Path.basename filePath; Resolver.withoutExt (Path.basename filePath)].

(** A heading at a position of the content: at the start of a line "=", a
    space and the rest [line] of the line, which is not empty. *)
Definition headingAt (bef aft line : list ascii) : Prop :=
  Regex.lineEdge bef = true
  /\ line <> []
  /\ Forall (fun c => Js.isLineTerminator c = false) line
  /\ exists rest,
       aft = ("="%char :: " "%char :: line ++ rest)%list
       /\ Regex.lineEdge rest = true.

(** The first heading of the content: no heading starts to the left of
    it. *)
Definition firstHeading (content : string) (line : list ascii) : Prop :=
  exists pre post,
    Js.chars content = (pre ++ post)%list
    /\ headingAt (rev pre) post line
    /\ forall pre1 pre2 line',
         pre = (pre1 ++ pre2)%list -> pre2 <> [] ->
         ~ headingAt (rev pre1) (pre2 ++ post)%list line'.

(** The title cut at the maximal length, if there is one, as
    [findAsciidocTitle] does it. *)
Definition shortened (cfg : Config) (title : string) : string :=
  let titleMaxLength := getTitleMaxLength cfg in
  if ((0 <? titleMaxLength)
      && (titleMaxLength <? Z.of_nat (String.length title)))%Z
  then Js.substring0 title titleMaxLength ++ "..."
  else title.

(** What a scan makes of a file: the node of a readable file with a title,
    and the edges of its references. *)
Definition nodeFor (cfg : Config) (fs : FileSystem) (file : string)
  : option Node :=
  let filePath := Path.normalize file in
  match fs filePath with
  | Some content =>
      match findAsciidocTitle cfg content with
      | Some title =>
          if String.eqb title "" then None
          else Some (mkNode (id filePath) filePath title)
      | None => None
      end
  | None => None
  end.

Definition edgesFor (cfg : Config) (fs : FileSystem) (file : string)
  : list Edge :=
  let filePath := Path.normalize file in
  match fs filePath with
  | Some content =>
      if not_ (findAsciidocTitle cfg content) then []
      else map (Spec.referenceEdge filePath) (findAsciidocLinks content)
  | None => []
  end.

(** The invocation for the [i]-th file has settled. *)
Definition settledAt (sc : scan) (i : nat) : Prop :=
  exists r, promises sc !! i = Some (Settled r).

(** The key of an edge of a snapshot in the web view: the two ids and the
    name of the type, with dashes in between. *)
Definition edgeKey (e : Edge) : string :=
  source e ++ "-" ++ target e ++ "-" ++ GraphJs.typeName (type e).

(** An include directive at the start of [aft]: "include::", the target
    [t], which has no "[" and ends in ".adoc" after at least one other
    character, then the attributes [a] between "[" and the next "]", and
    the rest [rest] of the content. *)
Definition includeAt (aft t a rest : list ascii) : Prop :=
  aft = (Js.chars "include::" ++ t ++ "["%char :: a ++ "]"%char :: rest)%list
  /\ (exists w, w <> [] /\ t = (w ++ Js.chars ".adoc")%list)
  /\ ~ In "["%char t
  /\ ~ In "]"%char a.

(** The include directives of a content from left to right, each found
    where the one before it ends: the targets and the attribute lists. *)
Inductive includesOf : list ascii -> list (list ascii * list ascii) -> Prop :=
| includesOf_none (aft : list ascii) :
    (forall pre post t a rest,
       aft = (pre ++ post)%list -> ~ includeAt post t a rest) ->
    includesOf aft []
| includesOf_next (pre post t a rest : list ascii)
    (l : list (list ascii * list ascii)) :
    includeAt post t a rest ->
    (forall pre1 pre2 t' a' rest',
       pre = (pre1 ++ pre2)%list -> pre2 <> [] ->
       ~ includeAt (pre2 ++ post)%list t' a' rest') ->
    includesOf rest l ->
    includesOf (pre ++ post)%list ((t, a) :: l).

(** The reference [findAsciidocLinks] makes of an include directive, if it
    makes one. *)
Definition includeRef (d : list ascii * list ascii) : AsciidocLink :=
  mkLink (Js.trim (Js.str (fst d)))
         (Spec.includeType (Js.trim (Js.str (snd d)))).

Definition internal (d : list ascii * list ascii) : bool :=
  negb (isExternalUrl (Js.trim (Js.str (fst d)))).

End Terms.

(** * Properties *)

Import Parsing Spec.
Local Open Scope list_scope.

(** ** The functions at work *)

Section Checks.

(** The test suite of RFC 1321. *)
Example md5_test_suite :
  map Md5.md5hex [""; "a"; "abc"; "message digest";
                  "abcdefghijklmnopqrstuvwxyz"]%string
  = ["d41d8cd98f00b204e9800998ecf8427e";
     "0cc175b9c0f1b6a831c399e269772661";
     "900150983cd24fb0d6963f7d28e17f72";
     "f96b697d7cb7938d525a2f31aaf161d0";
     "c3fcd3d76192e4007dfb496cca67e13b"]%string.
Proof. vm_compute. reflexivity. Qed.

Example extname_examples :
  map Path.extname ["index.html"; "index.coffee.md"; "index."; "index";
                    ".index"; ".index.md"; "/docs/a.adoc"]%string
  = [".html"; ".md"; "."; ""; ""; ".md"; ".adoc"]%string.
Proof. vm_compute. reflexivity. Qed.

Example normalize_examples :
  map Path.normalize ["/foo/bar//baz/asdf/quux/.."; "/docs/./sub/../x.adoc";
                      "a/../../b"; ""; "./a/"]%string
  = ["/foo/bar/baz/asdf"; "/docs/x.adoc"; "../b"; "."; "a/"]%string.
Proof. vm_compute. reflexivity. Qed.

Example title_hello_world :
  findAsciidocTitle (mkConfig 0 None) ("= Hello World" ++ Example.nl ++ "body")
  = Some "Hello World"%string
  /\ findAsciidocTitle (mkConfig 5 None)
                       ("= Hello World" ++ Example.nl ++ "body")
     = Some "Hello..."%string
  /\ findAsciidocTitle (mkConfig 5 None) "= Hello" = Some "Hello"%string
  /\ findAsciidocTitle (mkConfig 0 None) "== Section" = None
  /\ findAsciidocTitle (mkConfig 0 None) "=  " = Some ""%string.
Proof. vm_compute. by repeat split. Qed.

Example links_of_each_form :
  findAsciidocLinks "include::a.adoc[tag=x]" = [mkLink "a.adoc" include_partial]
  /\ findAsciidocLinks "include::a.adoc[]" = [mkLink "a.adoc" include]
  /\ findAsciidocLinks "xref:b.adoc[See B]" = [mkLink "b.adoc" link]
  /\ findAsciidocLinks "link:http://x.adoc[]" = []
  /\ findAsciidocLinks "<<c.adoc,C>> and link:d.adoc[D], not xlink:e.adoc[E]"
     = [mkLink "c.adoc" link; mkLink "d.adoc" link]
  /\ findAsciidocLinks "include::a.adoc[unterminated" = [].
Proof. vm_compute. by repeat split. Qed.

(** Three files, A including B and C including a part of B: three nodes
    and the two edges, which the consistency filter keeps. *)
Example corpus_graph :
  map path (nodes Example.corpusGraph)
  = ["/corpus/A.adoc"; "/corpus/B.adoc"; "/corpus/C.adoc"]%string
  /\ edges Example.corpusGraph
     = [mkEdge (id "/corpus/A.adoc") (id "/corpus/B.adoc") include;
        mkEdge (id "/corpus/C.adoc") (id "/corpus/B.adoc") include_partial]
  /\ filterNonExistingEdges Example.corpusGraph = Example.corpusGraph.
Proof. vm_compute. by repeat split. Qed.

End Checks.

(** ** Arrays *)

Section Arrays.

Context {A B : Type}.

(** A loop that pushes onto an array adds, in order, what each round
    pushes. *)
Lemma fold_left_push (stepf : list B -> A -> list B) (h : A -> list B)
    (l : list A) (init : list B) :
  (forall acc x, stepf acc x = acc ++ h x) ->
  fold_left stepf l init = init ++ flat_map h l.
Proof.
  intros Hstep. revert init.
  induction l as [|x l IH]; intros init; simpl.
  - by rewrite app_nil_r.
  - rewrite IH, Hstep. by rewrite <- app_assoc.
Qed.

Lemma flat_map_singleton (f : A -> B) (l : list A) :
  flat_map (fun x => [f x]) l = map f l.
Proof. induction l as [|x l IH]; simpl; congruence. Qed.

(** What [findIndex] finds: nothing passes and the answer is -1, or the
    answer is the place of the first element that passes. *)
Lemma findIndexFrom_spec (f : A -> bool) (a : list A) (i : Z) :
  (0 <= i)%Z ->
  (findIndexFrom f a i = (-1)%Z /\ Forall (fun x => f x = false) a)
  \/ (exists l1 x l2,
        a = l1 ++ x :: l2
        /\ findIndexFrom f a i = (i + Z.of_nat (List.length l1))%Z
        /\ f x = true
        /\ Forall (fun y => f y = false) l1).
Proof.
  revert i. induction a as [|x a IH]; intros i Hi; simpl.
  - left. by split.
  - destruct (f x) eqn:Hx.
    + right. exists [], x, a. simpl. repeat split; [lia|done|constructor].
    + destruct (IH (i + 1)%Z ltac:(lia)) as [[H1 H2]|(l1 & y & l2 & -> & H2 & H3 & H4)].
      * left. split; [done|]. by constructor.
      * right. exists (x :: l1), y, l2. simpl.
        repeat split; [lia|done|by constructor].
Qed.

Lemma findIndex_spec (f : A -> bool) (a : list A) :
  (findIndex f a = (-1)%Z /\ Forall (fun x => f x = false) a)
  \/ (exists l1 x l2,
        a = l1 ++ x :: l2
        /\ findIndex f a = Z.of_nat (List.length l1)
        /\ f x = true
        /\ Forall (fun y => f y = false) l1).
Proof. apply (findIndexFrom_spec f a 0). lia. Qed.

Lemma findIndex_none (f : A -> bool) (a : list A) :
  Forall (fun x => f x = false) a -> findIndex f a = (-1)%Z.
Proof.
  intros Hall. destruct (findIndex_spec f a) as [[H _]|(l1 & x & l2 & -> & _ & Hx & _)];
    [done|].
  apply Forall_app in Hall as [_ Hall]. inversion Hall; congruence.
Qed.

Lemma findIndexFrom_first (f : A -> bool) (l1 l2 : list A) (x : A) (i : Z) :
  Forall (fun y => f y = false) l1 -> f x = true ->
  findIndexFrom f (l1 ++ x :: l2) i = (i + Z.of_nat (List.length l1))%Z.
Proof.
  intros Hl1 Hx. revert i.
  induction Hl1 as [|y l1 Hy _ IH]; intros i; simpl.
  - rewrite Hx. lia.
  - rewrite Hy, IH. lia.
Qed.

Lemma findIndex_first (f : A -> bool) (l1 l2 : list A) (x : A) :
  Forall (fun y => f y = false) l1 -> f x = true ->
  findIndex f (l1 ++ x :: l2) = Z.of_nat (List.length l1).
Proof. intros. unfold findIndex. by rewrite findIndexFrom_first. Qed.

(** [a.splice(i, 1)] and [a[i] = ...] at the place [findIndex] found. *)
Lemma delete_found (l1 l2 : list A) (x : A) :
  delete (Z.to_nat (Z.of_nat (List.length l1))) (l1 ++ x :: l2) = l1 ++ l2.
Proof. rewrite Nat2Z.id. apply delete_middle. Qed.

Lemma alter_found (g : A -> A) (l1 l2 : list A) (x : A) :
  alter g (Z.to_nat (Z.of_nat (List.length l1))) (l1 ++ x :: l2)
  = l1 ++ g x :: l2.
Proof.
  rewrite Nat2Z.id. replace (List.length l1) with (List.length l1 + 0) by lia.
  by rewrite alter_app_r.
Qed.

Lemma filter_filter_same (f : A -> bool) (l : list A) :
  List.filter f (List.filter f l) = List.filter f l.
Proof.
  induction l as [|x l IH]; simpl; [done|].
  destruct (f x) eqn:Hx; simpl; [rewrite Hx|]; congruence.
Qed.

Lemma filter_none (f : A -> bool) (l : list A) :
  Forall (fun x => f x = false) l -> List.filter f l = [].
Proof. induction 1 as [|x l Hx _ IH]; simpl; [done|]. by rewrite Hx. Qed.

Lemma filter_all (f : A -> bool) (l : list A) :
  Forall (fun x => f x = true) l -> List.filter f l = l.
Proof. induction 1 as [|x l Hx _ IH]; simpl; [done|]. rewrite Hx. congruence. Qed.

End Arrays.

(** ** Strings and paths *)

Section Strings.

Lemma chars_str (l : list ascii) : Js.chars (Js.str l) = l.
Proof. apply list_ascii_of_string_of_list_ascii. Qed.

Lemma str_chars (s : string) : Js.str (Js.chars s) = s.
Proof. apply string_of_list_ascii_of_string. Qed.

Lemma chars_app (s1 s2 : string) :
  Js.chars (s1 ++ s2)%string = Js.chars s1 ++ Js.chars s2.
Proof. induction s1 as [|c s1 IH]; simpl; [done|]. by rewrite IH. Qed.

Lemma str_app (l1 l2 : list ascii) :
  Js.str (l1 ++ l2) = (Js.str l1 ++ Js.str l2)%string.
Proof. induction l1 as [|c l1 IH]; simpl; [done|]. by rewrite IH. Qed.

Lemma chars_length (s : string) : List.length (Js.chars s) = String.length s.
Proof. induction s as [|c s IH]; simpl; congruence. Qed.

Lemma chars_inj (s1 s2 : string) : Js.chars s1 = Js.chars s2 -> s1 = s2.
Proof. intros H. by rewrite <- (str_chars s1), <- (str_chars s2), H. Qed.

(** A normalized absolute path is absolute. *)
Lemma normalize_absolute (s : string) :
  Path.isAbsolute s = true -> Path.isAbsolute (Path.normalize s) = true.
Proof.
  unfold Path.isAbsolute, Path.normalize. rewrite chars_str.
  destruct (Js.chars s) as [|c0 l]; [done|]. intros Hc. simpl.
  rewrite Hc. destruct (Path.normalizeString _ _); [done|].
  by destruct (Path.isSep _ ); simpl.
Qed.

Lemma splitL_nonempty (c : ascii) (cur l : list ascii) :
  Js.splitL c cur l <> [].
Proof.
  revert cur. induction l as [|a l IH]; intros cur; simpl; [done|].
  destruct (Ascii.eqb a c); [done|apply IH].
Qed.

(** The directory of an absolute path, followed by "/", starts with "/". *)
Lemma parentDirectory_absolute (p t : string) :
  Path.isAbsolute p = true ->
  Path.isAbsolute (parentDirectoryOf p ++ "/" ++ t)%string = true.
Proof.
  unfold Path.isAbsolute, parentDirectoryOf, Js.split.
  destruct (Js.chars p) as [|c0 l] eqn:Hp; [done|]. intros Hc.
  simpl. unfold Path.isSep in Hc. rewrite Hc.
  pose proof (splitL_nonempty Path.sep [] l) as Hne.
  destruct (Js.splitL Path.sep [] l) as [|x xs]; [done|].
  unfold Js.sliceInit. simpl.
  destruct (map Js.str xs); simpl; done.
Qed.

Lemma targetPath_absolute (p t : string) :
  Path.isAbsolute p = true ->
  Path.isAbsolute (targetPath (parentDirectoryOf p) t) = true.
Proof.
  intros Hp. unfold targetPath.
  destruct (Path.isAbsolute t) eqn:Ht; simpl.
  - by apply normalize_absolute.
  - by apply normalize_absolute, parentDirectory_absolute.
Qed.

End Strings.

(** ** The graph store *)

Section GraphStore.

Variable cfg : Config.

Lemma not_false_title (title : option string) :
  Parsing.not_ title = false -> exists t, title = Some t /\ t <> ""%string.
Proof.
  destruct title as [t|]; simpl; [|done].
  intros H. exists t. split; [done|]. by apply String.eqb_neq.
Qed.

Lemma complete_parseFile (fs : FileSystem) (filePath : string) (g : Graph) :
  complete fs (parseFile cfg filePath) g
  = match fs (Path.normalize filePath) with
    | Some content =>
        (Fulfilled, parseContent cfg (Path.normalize filePath) content g)
    | None => (Rejected, g)
    end.
Proof. simpl. by destruct (fs (Path.normalize filePath)). Qed.

(** The edges after a parse that found a title. *)
Lemma parseContent_edges (p content : string) (g : Graph) :
  Parsing.not_ (findAsciidocTitle cfg content) = false ->
  edges (parseContent cfg p content g)
  = others g (id p) ++ map (referenceEdge p) (findAsciidocLinks content).
Proof.
  intros Ht. unfold parseContent. rewrite Ht. simpl.
  rewrite (fold_left_push _ (fun link => [referenceEdge p link])).
  - by rewrite flat_map_singleton.
  - done.
Qed.

(** Without a title the edges stay as they are. *)
Lemma parseContent_edges_no_title (p content : string) (g : Graph) :
  Parsing.not_ (findAsciidocTitle cfg content) = true ->
  edges (parseContent cfg p content g) = edges g.
Proof.
  intros Ht. unfold parseContent. rewrite Ht.
  by destruct (negb _).
Qed.

Lemma others_app (es1 es2 : list Edge) (ns : list Node) (i : string) :
  others (mkGraph ns (es1 ++ es2)) i
  = others (mkGraph ns es1) i ++ others (mkGraph ns es2) i.
Proof. unfold others. simpl. apply List.filter_app. Qed.

Lemma others_referenceEdges (p : string) (links : list AsciidocLink)
    (ns : list Node) :
  others (mkGraph ns (map (referenceEdge p) links)) (id p) = [].
Proof.
  unfold others. simpl. apply filter_none, List.Forall_forall.
  intros e [l [<- _]]%in_map_iff. simpl. by rewrite String.eqb_refl.
Qed.

Lemma contribution_others (g : Graph) (i j : string) :
  i <> j ->
  List.filter (fun edge => String.eqb (source edge) j) (others g i)
  = contribution g j.
Proof.
  intros Hij. unfold others, contribution.
  induction (edges g) as [|e es IH]; simpl; [done|].
  destruct (String.eqb_spec (source e) i) as [->|Hne]; simpl.
  - apply String.eqb_neq in Hij. rewrite Hij. done.
  - destruct (String.eqb (source e) j); congruence.
Qed.

End GraphStore.

(** ** Re-parsing one file *)

Section Reparse.

Implicit Types (cfg : Config) (fs : FileSystem) (g : Graph).
Implicit Types (p filePath content : string).

Lemma parsed_eq cfg fs filePath content g :
  fs (Path.normalize filePath) = Some content ->
  parsed cfg fs filePath g
  = parseContent cfg (Path.normalize filePath) content g.
Proof.
  intros Hfs. unfold parsed. rewrite complete_parseFile. by rewrite Hfs.
Qed.

Lemma setLabel_path (t : string) (n : Node) : path (setLabel t n) = path n.
Proof. done. Qed.

Lemma setLabel_twice (t : string) (n : Node) :
  setLabel t (setLabel t n) = setLabel t n.
Proof. done. Qed.

(** The nodes after a parse that found the title [t], when the path has
    a node... *)
Lemma parseContent_nodes_found cfg p content g (t : string) l1 n l2 :
  findAsciidocTitle cfg content = Some t -> t <> ""%string ->
  nodes g = l1 ++ n :: l2 ->
  String.eqb (path n) p = true ->
  Forall (fun n => String.eqb (path n) p = false) l1 ->
  nodes (parseContent cfg p content g) = l1 ++ setLabel t n :: l2.
Proof.
  intros Ht Hne Hg Hn Hl1. unfold parseContent. rewrite Ht. simpl.
  apply String.eqb_neq in Hne. rewrite Hne, Hg.
  rewrite (findIndex_first _ l1 l2 n Hl1 Hn).
  replace (_ =? -1)%Z with false by (symmetry; apply Z.eqb_neq; lia).
  simpl. apply alter_found.
Qed.

(** ... and when it has none. *)
Lemma parseContent_nodes_new cfg p content g (t : string) :
  findAsciidocTitle cfg content = Some t -> t <> ""%string ->
  Forall (fun n => String.eqb (path n) p = false) (nodes g) ->
  nodes (parseContent cfg p content g) = nodes g ++ [mkNode (id p) p t].
Proof.
  intros Ht Hne Hall. unfold parseContent. rewrite Ht. simpl.
  apply String.eqb_neq in Hne. rewrite Hne.
  by rewrite (findIndex_none _ _ Hall).
Qed.

(** The first node of a path, if there is one. *)
Lemma first_of_path p (ns : list Node) :
  Forall (fun n => String.eqb (path n) p = false) ns
  \/ (exists l1 n l2,
        ns = l1 ++ n :: l2
        /\ String.eqb (path n) p = true
        /\ Forall (fun n => String.eqb (path n) p = false) l1).
Proof.
  destruct (findIndex_spec (fun node => String.eqb (path node) p) ns)
    as [[_ Hall]|(l1 & n & l2 & Hg & _ & Hn & Hl1)]; [by left|].
  right. by exists l1, n, l2.
Qed.

(** The nodes after a parse that found no title. *)
Lemma parseContent_nodes_no_title cfg p content g :
  Parsing.not_ (findAsciidocTitle cfg content) = true ->
  (Forall (fun n => String.eqb (path n) p = false) (nodes g)
   /\ nodes (parseContent cfg p content g) = nodes g)
  \/ (exists l1 n l2,
        nodes g = l1 ++ n :: l2
        /\ String.eqb (path n) p = true
        /\ Forall (fun n => String.eqb (path n) p = false) l1
        /\ nodes (parseContent cfg p content g) = l1 ++ l2).
Proof.
  intros Ht. unfold parseContent. rewrite Ht.
  destruct (findIndex_spec (fun node => String.eqb (path node) p) (nodes g))
    as [[-> Hall]|(l1 & n & l2 & Hg & -> & Hn & Hl1)].
  - left. by split.
  - right. exists l1, n, l2. repeat split; try done.
    replace (_ =? -1)%Z with false by (symmetry; apply Z.eqb_neq; lia).
    simpl. rewrite Hg. apply delete_found.
Qed.

(** With unique paths, the nodes after the first one of a path do not
    have it. *)
Lemma uniquePaths_after (l1 l2 : list Node) (n : Node) (p : string) :
  NoDup (map path (l1 ++ n :: l2)) -> String.eqb (path n) p = true ->
  Forall (fun m => String.eqb (path m) p = false) l2.
Proof.
  intros Hnd Hn. apply String.eqb_eq in Hn.
  rewrite map_app in Hnd. simpl in Hnd.
  apply NoDup_app in Hnd as (_ & _ & Hnd). apply NoDup_cons in Hnd as [Hnin _].
  apply List.Forall_forall. intros m Hm. apply String.eqb_neq. intros Heq.
  apply Hnin. rewrite Hn, <- Heq. apply list_elem_of_In. by apply in_map.
Qed.

(** A second parse of the same content leaves the edges as the first
    parse made them... *)
Lemma parseContent_twice_edges cfg p content g :
  edges (parseContent cfg p content (parseContent cfg p content g))
  = edges (parseContent cfg p content g).
Proof.
  destruct (Parsing.not_ (findAsciidocTitle cfg content)) eqn:Ht.
  - by rewrite !parseContent_edges_no_title.
  - rewrite (parseContent_edges cfg p content _ Ht).
    rewrite (parseContent_edges cfg p content g Ht) at 1.
    f_equal. unfold others at 1.
    rewrite (parseContent_edges cfg p content g Ht).
    rewrite List.filter_app. fold (others g (id p)).
    pose proof (others_referenceEdges p (findAsciidocLinks content) [])
      as Hnew. unfold others in Hnew at 1. simpl in Hnew. rewrite Hnew.
    rewrite app_nil_r. unfold others. apply filter_filter_same.
Qed.

(** ... and the nodes too, when the content has a title... *)
Lemma parseContent_twice_nodes_titled cfg p content g :
  Parsing.not_ (findAsciidocTitle cfg content) = false ->
  nodes (parseContent cfg p content (parseContent cfg p content g))
  = nodes (parseContent cfg p content g).
Proof.
  intros Ht. destruct (not_false_title _ Ht) as (t & Htitle & Hne).
  destruct (first_of_path p (nodes g))
    as [Hall|(l1 & n & l2 & Hg & Hn & Hl1)].
  - pose proof (parseContent_nodes_new cfg p content g t Htitle Hne Hall)
      as Hnodes.
    rewrite (parseContent_nodes_found cfg p content _ t (nodes g)
               (mkNode (id p) p t) [] Htitle Hne Hnodes); [done| |done].
    simpl. apply String.eqb_refl.
  - pose proof (parseContent_nodes_found cfg p content g t l1 n l2
                  Htitle Hne Hg Hn Hl1) as Hnodes.
    by rewrite (parseContent_nodes_found cfg p content _ t l1
                  (setLabel t n) l2 Htitle Hne Hnodes).
Qed.

(** ... or when no two nodes have the same path. *)
Lemma parseContent_twice_nodes cfg p content g :
  uniquePaths g ->
  nodes (parseContent cfg p content (parseContent cfg p content g))
  = nodes (parseContent cfg p content g).
Proof.
  intros Hu.
  destruct (Parsing.not_ (findAsciidocTitle cfg content)) eqn:Ht;
    [|by apply parseContent_twice_nodes_titled].
  assert (Forall (fun n => String.eqb (path n) p = false)
                 (nodes (parseContent cfg p content g))) as Hg1.
  { destruct (parseContent_nodes_no_title cfg p content g Ht)
      as [[Hall ->]|(l1 & n & l2 & Hg & Hn & Hl1 & ->)]; [done|].
    apply Forall_app. split; [done|].
    unfold uniquePaths in Hu. rewrite Hg in Hu.
    by eapply uniquePaths_after. }
  unfold parseContent at 1. rewrite Ht.
  by rewrite (findIndex_none _ _ Hg1).
Qed.

Lemma graph_eq (g1 g2 : Graph) :
  nodes g1 = nodes g2 -> edges g1 = edges g2 -> g1 = g2.
Proof. destruct g1, g2. simpl. congruence. Qed.

(** Distinct paths stay distinct: the invariant holds of every graph
    that [parseFile] has built from the empty one. *)
Lemma parseContent_uniquePaths cfg p content g :
  uniquePaths g -> uniquePaths (parseContent cfg p content g).
Proof.
  unfold uniquePaths. intros Hu.
  destruct (Parsing.not_ (findAsciidocTitle cfg content)) eqn:Ht.
  - destruct (parseContent_nodes_no_title cfg p content g Ht)
      as [[_ ->]|(l1 & n & l2 & Hg & _ & _ & ->)]; [done|].
    rewrite Hg in Hu. rewrite map_app in *. simpl in Hu.
    apply NoDup_app in Hu as (H1 & H2 & H3).
    apply NoDup_cons in H3 as [_ H3].
    apply NoDup_app. repeat split; [done| |done].
    intros x Hx Hx'. apply (H2 x Hx). by right.
  - destruct (not_false_title _ Ht) as (t & Htitle & Hne).
    destruct (first_of_path p (nodes g))
      as [Hall|(l1 & n & l2 & Hg & Hn & Hl1)].
    + rewrite (parseContent_nodes_new cfg p content g t Htitle Hne Hall).
      rewrite map_app. simpl. apply NoDup_app. repeat split; [done| |].
      * intros x Hx [->|[]]%list_elem_of_In.
        apply list_elem_of_In, in_map_iff in Hx as (m & Hm & Hin).
        pose proof (proj1 (List.Forall_forall _ _) Hall m Hin) as Hf.
        simpl in Hf. rewrite Hm in Hf. by rewrite String.eqb_refl in Hf.
      * apply NoDup_singleton.
    + rewrite (parseContent_nodes_found cfg p content g t l1 n l2
                 Htitle Hne Hg Hn Hl1).
      rewrite Hg in Hu. by rewrite map_app in *.
Qed.

End Reparse.

(** ** The consistency filter *)

Section Consistency.

Implicit Types (g : Graph) (e : Edge).

Lemma exists_hasNode g (i : string) : exists_ g i = true <-> hasNode g i.
Proof.
  unfold exists_, hasNode.
  destruct (find _ (nodes g)) as [n|] eqn:Hf.
  - apply find_some in Hf as [Hin Heq]. apply String.eqb_eq in Heq.
    split; [|done]. intros _. by exists n.
  - split; [done|]. intros (n & Hin & Heq).
    pose proof (find_none _ _ Hf n Hin) as Hn. simpl in Hn.
    subst i. by rewrite String.eqb_refl in Hn.
Qed.

Lemma filter_sublist {A} (f : A -> bool) (l : list A) :
  sublist (List.filter f l) l.
Proof.
  induction l as [|x l IH]; simpl; [constructor|].
  destruct (f x); by constructor.
Qed.

Lemma filterNonExistingEdges_conn g :
  nodes (filterNonExistingEdges g) = nodes g
  /\ (forall e, In e (edges (filterNonExistingEdges g)) ->
                hasNode g (source e) /\ hasNode g (target e)).
Proof.
  split; [done|]. intros e. unfold filterNonExistingEdges. simpl.
  rewrite filter_In, andb_true_iff, !exists_hasNode. tauto.
Qed.

(** C5.  After [filterNonExistingEdges] the nodes are as before, both
    ends of every remaining edge are ids of nodes of the graph, and the
    edges kept are exactly those of the graph whose two ends are (in the
    order they had, each as often as it was there). *)
Theorem filterNonExistingEdges_keeps_the_connected g :
  nodes (filterNonExistingEdges g) = nodes g
  /\ (forall e, In e (edges (filterNonExistingEdges g)) ->
                hasNode (filterNonExistingEdges g) (source e)
                /\ hasNode (filterNonExistingEdges g) (target e))
  /\ (forall e, In e (edges (filterNonExistingEdges g))
                <-> In e (edges g)
                    /\ hasNode g (source e) /\ hasNode g (target e))
  /\ sublist (edges (filterNonExistingEdges g)) (edges g)
  /\ (forall e, hasNode g (source e) -> hasNode g (target e) ->
                count_occ Edge_eq_dec (edges (filterNonExistingEdges g)) e
                = count_occ Edge_eq_dec (edges g) e).
Proof.
  assert (forall e, In e (edges (filterNonExistingEdges g))
                    <-> In e (edges g)
                        /\ hasNode g (source e) /\ hasNode g (target e))
    as Hiff.
  { intros e. unfold filterNonExistingEdges. simpl.
    rewrite filter_In, andb_true_iff, !exists_hasNode. tauto. }
  split; [done|]. split; [|split; [done|split]].
  - intros e He. apply Hiff in He. tauto.
  - apply filter_sublist.
  - intros e Hs Ht. clear Hiff. unfold filterNonExistingEdges. simpl.
    induction (edges g) as [|x l IH]; simpl; [done|].
    destruct (exists_ g (source x) && exists_ g (target x)) eqn:Hx; simpl.
    + destruct (Edge_eq_dec x e); by rewrite IH.
    + destruct (Edge_eq_dec x e) as [->|Hne]; [|done].
      apply exists_hasNode in Hs, Ht. by rewrite Hs, Ht in Hx.
Qed.

End Consistency.

(** ** The claims about [parseFile] *)

Section ParseFile.

Implicit Types (cfg : Config) (fs : FileSystem) (g : Graph).
Implicit Types (p q filePath content : string).

(** C1, as amended.  When the content has a title, [parseFile] removes
    every edge whose source is [id path] (path being the normalized file
    path), pushes one edge per extracted reference, in the order of
    extraction, from [id path] to the id of the reference resolved against
    the directory of the file and normalized (an absolute path when the
    file path is absolute), and leaves the edges of every other source id
    as they are: the contribution of a file whose id differs from
    [id path] is not disturbed. *)
Theorem parseFile_replaces_contribution cfg fs filePath content g :
  fs (Path.normalize filePath) = Some content ->
  Parsing.not_ (findAsciidocTitle cfg content) = false ->
  let p := Path.normalize filePath in
  let g' := parsed cfg fs filePath g in
  edges g' = others g (id p)
             ++ map (referenceEdge p) (findAsciidocLinks content)
  /\ Forall (fun e => source e <> id p) (others g (id p))
  /\ Forall (fun e => source e = id p)
            (map (referenceEdge p) (findAsciidocLinks content))
  /\ contribution g' (id p)
     = map (referenceEdge p) (findAsciidocLinks content)
  /\ others g' (id p) = others g (id p)
  /\ (forall q, id q <> id p ->
                contribution g' (id q) = contribution g (id q))
  /\ (Path.isAbsolute filePath = true ->
      Forall (fun l => Path.isAbsolute
                         (targetPath (parentDirectoryOf p) (linkTarget l))
                       = true)
             (findAsciidocLinks content)).
Proof.
  intros Hfs Ht p g'.
  assert (edges g' = others g (id p)
                     ++ map (referenceEdge p) (findAsciidocLinks content))
    as He.
  { unfold g'. rewrite (parsed_eq _ _ _ _ _ Hfs).
    by apply parseContent_edges. }
  assert (Forall (fun e => source e <> id p) (others g (id p))) as Hold.
  { apply List.Forall_forall. intros e [_ He']%filter_In.
    apply negb_true_iff in He'. by apply String.eqb_neq. }
  assert (Forall (fun e => source e = id p)
                 (map (referenceEdge p) (findAsciidocLinks content)))
    as Hnew.
  { apply List.Forall_forall. by intros e [l [<- _]]%in_map_iff. }
  repeat split; try done.
  - unfold contribution. rewrite He, List.filter_app.
    rewrite (filter_none _ (others g (id p))), (filter_all _ (map _ _)).
    + done.
    + eapply Forall_impl; [exact Hnew|]. intros e ->. apply String.eqb_refl.
    + eapply Forall_impl; [exact Hold|]. intros e.
      by rewrite <- String.eqb_neq.
  - unfold others at 1. rewrite He, List.filter_app.
    rewrite (filter_all _ (others g (id p))), (filter_none _ (map _ _)).
    + by rewrite app_nil_r.
    + eapply Forall_impl; [exact Hnew|]. intros e ->.
      by rewrite String.eqb_refl.
    + eapply Forall_impl; [exact Hold|]. intros e.
      rewrite <- String.eqb_neq. by intros ->.
  - intros q Hq. unfold contribution at 1. rewrite He, List.filter_app.
    rewrite (filter_none _ (map _ _)).
    + rewrite app_nil_r. apply contribution_others. congruence.
    + eapply Forall_impl; [exact Hnew|]. intros e ->.
      apply String.eqb_neq. congruence.
  - intros Habs. apply List.Forall_forall. intros l _.
    apply targetPath_absolute. by apply normalize_absolute.
Qed.


(** An instance, in the example workspace. *)
Lemma parseFile_replaces_contribution_witness :
  Example.fs (Path.normalize "/docs/a.adoc") = Some Example.contentA
  /\ Parsing.not_ (findAsciidocTitle Example.cfg Example.contentA) = false
  /\ edges (parsed Example.cfg Example.fs "/docs/a.adoc" Example.stale)
     = [mkEdge "other" (id "/docs/a.adoc") include; Example.edgeAB].
Proof.
  assert (Example.fs (Path.normalize "/docs/a.adoc") = Some Example.contentA)
    as H1 by (vm_compute; reflexivity).
  assert (Parsing.not_ (findAsciidocTitle Example.cfg Example.contentA)
          = false) as H2 by (vm_compute; reflexivity).
  split; [exact H1|]. split; [exact H2|].
  rewrite (proj1 (parseFile_replaces_contribution
                    Example.cfg Example.fs "/docs/a.adoc" Example.contentA
                    Example.stale H1 H2)).
  vm_compute. reflexivity.
Defined.

(** C1 as it was stated fails where two files share an id: parsing
    "/docs/a.asciidoc" removes the edge that "/docs/a.adoc", another
    file, had contributed.  (It also fails for a title that is there but
    empty, as in "=  ": [parseFile] takes that for no title and leaves the
    stale edge in.) *)
Lemma parseFile_disturbs_twin_file :
  Path.normalize "/docs/a.asciidoc" <> Path.normalize "/docs/a.adoc"
  /\ Example.fs (Path.normalize "/docs/a.asciidoc")
     = Some Example.contentTwin
  /\ Parsing.not_ (findAsciidocTitle Example.cfg Example.contentTwin) = false
  /\ contribution Example.afterA (id "/docs/a.adoc") = [Example.edgeAB]
  /\ ~ In Example.edgeAB (edges Example.afterTwin)
  /\ contribution Example.afterTwin (id "/docs/a.adoc")
     <> contribution Example.afterA (id "/docs/a.adoc")
  /\ findAsciidocTitle Example.cfg "=  " = Some ""%string
  /\ edges (parseContent Example.cfg "/docs/a.adoc" "=  " Example.stale)
     = edges Example.stale.
Proof.
  vm_compute. repeat split; try discriminate.
  intros [H|[]]. discriminate H.
Qed.

(** C2.  Parsing the same content of a file a second time changes
    nothing for that file: the edges whose source is [id path] are the
    same after the second parse as after the first (in the same order, so
    all the more as sets), and, in a graph whose nodes have distinct
    paths, so is the node of that path (id, path and label).  Indeed the
    whole graph is the same, for distinct paths and also whenever the
    content has a title. *)
Theorem parseFile_idempotent cfg fs filePath g :
  contribution (parsed cfg fs filePath (parsed cfg fs filePath g))
               (id (Path.normalize filePath))
  = contribution (parsed cfg fs filePath g) (id (Path.normalize filePath))
  /\ (uniquePaths g ->
      nodeOf (parsed cfg fs filePath (parsed cfg fs filePath g))
             (Path.normalize filePath)
      = nodeOf (parsed cfg fs filePath g) (Path.normalize filePath)
      /\ parsed cfg fs filePath (parsed cfg fs filePath g)
         = parsed cfg fs filePath g)
  /\ (forall content,
        fs (Path.normalize filePath) = Some content ->
        Parsing.not_ (findAsciidocTitle cfg content) = false ->
        parsed cfg fs filePath (parsed cfg fs filePath g)
        = parsed cfg fs filePath g).
Proof.
  destruct (fs (Path.normalize filePath)) as [content|] eqn:Hfs.
  - rewrite !(parsed_eq _ _ _ _ _ Hfs). split; [|split].
    + unfold contribution. by rewrite parseContent_twice_edges.
    + intros Hu.
      assert (parseContent cfg (Path.normalize filePath) content
                (parseContent cfg (Path.normalize filePath) content g)
              = parseContent cfg (Path.normalize filePath) content g) as ->;
        [|done].
      apply graph_eq;
        [by apply parseContent_twice_nodes|apply parseContent_twice_edges].
    + intros c [= <-] Ht.
      apply graph_eq;
        [by apply parseContent_twice_nodes_titled
        |apply parseContent_twice_edges].
  - unfold parsed. rewrite !complete_parseFile, !Hfs. simpl.
    rewrite ?complete_parseFile, ?Hfs. by repeat split.
Qed.

(** An instance, in the example workspace. *)
Lemma parseFile_idempotent_witness :
  uniquePaths Example.afterTwin
  /\ nodeOf (parsed Example.cfg Example.fs "/docs/a.adoc"
                    (parsed Example.cfg Example.fs "/docs/a.adoc"
                            Example.afterTwin))
            (Path.normalize "/docs/a.adoc")
     = Some Example.nodeA
  /\ contribution
       (parsed Example.cfg Example.fs "/docs/a.adoc"
               (parsed Example.cfg Example.fs "/docs/a.adoc"
                       Example.afterTwin))
       (id (Path.normalize "/docs/a.adoc"))
     = [Example.edgeAB].
Proof.
  assert (uniquePaths Example.afterTwin) as H.
  { unfold uniquePaths. apply (bool_decide_unpack _). vm_compute.
    reflexivity. }
  split; [exact H|]. split.
  - rewrite (proj1 (proj1 (proj2 (parseFile_idempotent
                                    Example.cfg Example.fs "/docs/a.adoc"
                                    Example.afterTwin)) H)).
    vm_compute. reflexivity.
  - rewrite (proj1 (parseFile_idempotent Example.cfg Example.fs "/docs/a.adoc"
                                         Example.afterTwin)).
    vm_compute. reflexivity.
Defined.

(** C7.  When the read of the file fails, [parseFile] fails and the graph
    is as it was: nothing runs on the graph before the read is over, and
    the failure settles the invocation as rejected with the graph (and,
    in a scan, every other invocation) untouched. *)
Theorem parseFile_unreadable cfg fs filePath g :
  fs (Path.normalize filePath) = None ->
  complete fs (parseFile cfg filePath) g = (Rejected, g)
  /\ runSync (parseFile cfg filePath) g = (parseFile cfg filePath, g)
  /\ (forall (sc : scan) (i : nat),
        promises sc !! i = Some (parseFile cfg filePath) ->
        resume fs i sc
        = Some (mkScan (graph sc) (<[i := Settled Rejected]> (promises sc)))).
Proof.
  intros Hfs. split; [|split].
  - rewrite complete_parseFile. by rewrite Hfs.
  - done.
  - intros sc i Hi. unfold resume. rewrite Hi. simpl. by rewrite Hfs.
Qed.

(** An instance, in the example workspace. *)
Lemma parseFile_unreadable_witness :
  Example.fs (Path.normalize "/docs/gone.adoc") = None
  /\ complete Example.fs (parseFile Example.cfg "/docs/gone.adoc")
              Example.afterA
     = (Rejected, Example.afterA).
Proof.
  assert (Example.fs (Path.normalize "/docs/gone.adoc") = None) as H
    by (vm_compute; reflexivity).
  split; [exact H|].
  exact (proj1 (parseFile_unreadable Example.cfg Example.fs "/docs/gone.adoc"
                                     Example.afterA H)).
Defined.


(** C6, as amended.  When the content has no title, [parseFile] takes the
    node of that path out of the graph if there is one, leaves the nodes
    alone otherwise, and removes no edge: the edges from and to that source
    stay, and they are dangling (the consistency filter drops them) unless
    a node of another path carries the same id. *)
Theorem parseFile_without_title cfg fs filePath content g :
  fs (Path.normalize filePath) = Some content ->
  Parsing.not_ (findAsciidocTitle cfg content) = true ->
  let p := Path.normalize filePath in
  let g' := parsed cfg fs filePath g in
  edges g' = edges g
  /\ ((Forall (fun n => path n <> p) (nodes g) /\ nodes g' = nodes g)
      \/ (exists l1 n l2,
            nodes g = l1 ++ n :: l2 /\ path n = p
            /\ Forall (fun m => path m <> p) l1
            /\ nodes g' = l1 ++ l2))
  /\ (uniquePaths g ->
      (forall n, In n (nodes g) -> path n <> p -> Types.id n <> id p) ->
      ~ hasNode g' (id p)
      /\ forall e, In e (edges g') ->
                   source e = id p \/ target e = id p ->
                   ~ In e (edges (filterNonExistingEdges g'))).
Proof.
  intros Hfs Ht p g'. unfold g'. rewrite (parsed_eq _ _ _ _ _ Hfs).
  fold p. split; [by apply parseContent_edges_no_title|].
  pose proof (parseContent_nodes_no_title cfg p content g Ht) as Hn.
  assert (forall l, Forall (fun n => String.eqb (path n) p = false) l
                    <-> Forall (fun n => path n <> p) l) as Hneq.
  { intros l. apply Forall_iff. intros n. apply String.eqb_neq. }
  split.
  - destruct Hn as [[Hall Hn]|(l1 & n & l2 & Hg & Hp & Hl1 & Hn)].
    + left. by rewrite <- Hneq.
    + right. exists l1, n, l2. rewrite <- Hneq.
      by apply String.eqb_eq in Hp.
  - intros Hu Hid.
    assert (~ hasNode (parseContent cfg p content g) (id p)) as Hno.
    { intros (m & Hin & Hm).
      destruct Hn as [[Hall Hn]|(l1 & n & l2 & Hg & Hp & Hl1 & Hn)];
        rewrite Hn in Hin.
      - apply (Hid m); [done| |done].
        apply Hneq in Hall. by apply (proj1 (List.Forall_forall _ _) Hall).
      - assert (Forall (fun n => String.eqb (path n) p = false) (l1 ++ l2))
          as Hall.
        { apply Forall_app. split; [done|].
          unfold uniquePaths in Hu. rewrite Hg in Hu.
          by eapply uniquePaths_after. }
        apply Hneq in Hall.
        apply (Hid m); [|by apply (proj1 (List.Forall_forall _ _) Hall)|done].
        rewrite Hg. apply in_app_iff. apply in_app_iff in Hin as [?|?];
          [by left|right; by right]. }
    split; [done|]. intros e _ Hends Hin.
    apply (proj2 (filterNonExistingEdges_conn _)) in Hin.
    destruct Hin as [Hs Htg]. apply Hno.
    by destruct Hends as [<-|<-].
Qed.


(** An instance, in the example workspace. *)
Lemma parseFile_without_title_witness :
  Example.fs (Path.normalize "/docs/notitle.adoc")
  = Some Example.contentPlain
  /\ Parsing.not_ (findAsciidocTitle Example.cfg Example.contentPlain) = true
  /\ edges (parsed Example.cfg Example.fs "/docs/notitle.adoc" Example.titled)
     = edges Example.titled
  /\ nodes (parsed Example.cfg Example.fs "/docs/notitle.adoc" Example.titled)
     = [Example.nodeA].
Proof.
  assert (Example.fs (Path.normalize "/docs/notitle.adoc")
          = Some Example.contentPlain) as H1 by (vm_compute; reflexivity).
  assert (Parsing.not_ (findAsciidocTitle Example.cfg Example.contentPlain)
          = true) as H2 by (vm_compute; reflexivity).
  split; [exact H1|]. split; [exact H2|]. split.
  - exact (proj1 (parseFile_without_title
                    Example.cfg Example.fs "/docs/notitle.adoc"
                    Example.contentPlain Example.titled H1 H2)).
  - vm_compute. reflexivity.
Defined.

(** C6 as it was stated fails where the file has a twin: the edge that
    "/docs/a.adoc" contributed stays when the file loses its title, but it
    is not dangling, since the node of "/docs/a.asciidoc" has the same id,
    and the consistency filter keeps it. *)
Lemma untitled_twin_keeps_its_edge :
  Example.fsLater (Path.normalize "/docs/a.adoc") = Some Example.contentLater
  /\ Parsing.not_ (findAsciidocTitle Example.cfg Example.contentLater) = true
  /\ nodes Example.twins = [Example.nodeTwin; Example.nodeA; Example.nodeB]
  /\ edges Example.twins = [Example.edgeAB]
  /\ nodes (parsed Example.cfg Example.fsLater "/docs/a.adoc" Example.twins)
     = [Example.nodeTwin; Example.nodeB]
  /\ edges (parsed Example.cfg Example.fsLater "/docs/a.adoc" Example.twins)
     = [Example.edgeAB]
  /\ exists_ (parsed Example.cfg Example.fsLater "/docs/a.adoc" Example.twins)
             (source Example.edgeAB) = true
  /\ edges (filterNonExistingEdges
              (parsed Example.cfg Example.fsLater "/docs/a.adoc"
                      Example.twins))
     = [Example.edgeAB].
Proof. vm_compute. by repeat split. Qed.

(** C10.  Node ids are not unique though paths are: [parseFile] looks
    for the node of a file by its path only, so two files whose paths
    differ in the extension alone ("a.adoc" and "a.asciidoc"), each with
    a title, end up as two nodes of one id. *)
Theorem twin_files_make_two_nodes_of_one_id :
  exists filePath1 filePath2 : string,
    filePath1 <> filePath2
    /\ pathWithoutExt filePath1 = pathWithoutExt filePath2
    /\ exists n1 n2 : Node,
         In n1 (nodes (parsed Example.cfg Example.fs filePath2
                         (parsed Example.cfg Example.fs filePath1
                                 Example.empty)))
         /\ In n2 (nodes (parsed Example.cfg Example.fs filePath2
                            (parsed Example.cfg Example.fs filePath1
                                    Example.empty)))
         /\ path n1 = filePath1 /\ path n2 = filePath2
         /\ Types.id n1 = Types.id n2
         /\ path n1 <> path n2.
Proof.
  exists "a.adoc"%string, "a.asciidoc"%string.
  split; [discriminate|]. split; [vm_compute; reflexivity|].
  exists (mkNode (id "a.adoc") "a.adoc" "A"),
         (mkNode (id "a.asciidoc") "a.asciidoc" "A, the other one").
  vm_compute. repeat split; try discriminate; auto.
Qed.

End ParseFile.

(** ** The web view *)

Section WebView.

Import GraphJs.

Lemma ofNode_title (n : Node) : ofNode n !! "title" = None.
Proof.
  unfold ofNode. rewrite !lookup_insert_ne by done. apply lookup_singleton_ne.
  done.
Qed.

(** No node that lacks a [title] passes the test of [sameNodes]. *)
Lemma sameNodes_untitled (previous next : list nodeObj) :
  next <> [] ->
  Forall (fun node => node !! "title" = None) next ->
  sameNodes previous next = false.
Proof.
  intros Hne Hall. unfold sameNodes.
  destruct (negb _); [done|].
  destruct next as [|node next]; [done|]. simpl.
  apply Forall_cons in Hall as [Hnode _]. rewrite Hnode.
  destruct (default None _) as [s|]; simpl.
  - by rewrite orb_true_r.
  - done.
Qed.

(** C9, at the failing input.  The view shows a snapshot of two nodes and
    an edge; the same snapshot arrives again.  [sameNodes] answers false,
    because it compares the label it stored with [node.title], which no
    node of a snapshot has, and [restart] runs once more. *)
Theorem refresh_same_snapshot_restarts :
  exists v v' : view,
    Example.shown = Some v
    /\ sameNodes (nodesData v) Example.snapshotNodes = false
    /\ sameEdges (linksData v) Example.snapshotEdges = Some true
    /\ refresh Example.snapshotNodes Example.snapshotEdges v = Some v'
    /\ restarts v' = S (restarts v).
Proof.
  unfold Example.shown, refresh.
  rewrite sameNodes_untitled;
    [|done|repeat constructor; apply ofNode_title].
  eexists _, _. split; [reflexivity|]. split.
  - apply sameNodes_untitled; [done|repeat constructor; apply ofNode_title].
  - split; [vm_compute; reflexivity|].
    rewrite sameNodes_untitled;
      [|done|repeat constructor; apply ofNode_title].
    split; reflexivity.
Qed.

(** Only the empty snapshot is taken for the same. *)
Lemma sameNodes_snapshot (previous next : list Node) :
  sameNodes (map ofNode previous) (map ofNode next) = true <->
  previous = [] /\ next = [].
Proof.
  split.
  - intros H. destruct next as [|n next].
    + unfold sameNodes in H. destruct previous; [done|]. simpl in H. done.
    + rewrite sameNodes_untitled in H; [done|done|].
      apply List.Forall_forall. intros o (m & <- & _)%in_map_iff.
      apply ofNode_title.
  - intros [-> ->]. reflexivity.
Qed.

End WebView.

(** ** The directory scan *)

Section Scan.

Implicit Types (cfg : Config) (fs : FileSystem) (g : Graph) (sc : scan).
Implicit Types (ps : list task) (files : list string).

(** The files [parseDirectory] calls back for. *)
Lemma launch_from (fileCallback : string -> task) files sc :
  exists ts,
    fold_left (fun sc file =>
                 if negb (hiddenFile file) then
                   let '(t, g) := runSync (fileCallback file) (graph sc) in
                   mkScan g (push (promises sc) t)
                 else sc)
              files sc
    = mkScan (graph (fold_left (fun sc file =>
                 if negb (hiddenFile file) then
                   let '(t, g) := runSync (fileCallback file) (graph sc) in
                   mkScan g (push (promises sc) t)
                 else sc)
              files sc)) (promises sc ++ ts)
    /\ Forall2 (fun t file => exists g0, t = fst (runSync (fileCallback file) g0))
               ts (List.filter (fun file => negb (hiddenFile file)) files).
Proof.
  revert sc. induction files as [|file files IH]; intros sc; simpl.
  - exists []. rewrite app_nil_r. split; [by destruct sc|constructor].
  - destruct (negb (hiddenFile file)) eqn:Hh; simpl.
    + destruct (runSync (fileCallback file) (graph sc)) as [t g1] eqn:Hrun.
      destruct (IH (mkScan g1 (push (promises sc) t))) as (ts & Heq & Hall).
      exists (t :: ts). split.
      * rewrite Heq at 1. simpl. unfold push. by rewrite <- app_assoc.
      * constructor; [|done]. exists (graph sc). by rewrite Hrun.
    + apply IH.
Qed.

Lemma launch_parseFile_from cfg files g ps :
  fold_left (fun sc file =>
               if negb (hiddenFile file) then
                 let '(t, g) := runSync (parseFile cfg file) (graph sc) in
                 mkScan g (push (promises sc) t)
               else sc)
            files (mkScan g ps)
  = mkScan g (ps ++ map (parseFile cfg)
                        (List.filter (fun file => negb (hiddenFile file)) files)).
Proof.
  revert ps. induction files as [|file files IH]; intros ps; simpl.
  - by rewrite app_nil_r.
  - destruct (negb (hiddenFile file)); simpl; [|apply IH].
    rewrite IH. unfold push. by rewrite <- app_assoc.
Qed.

Lemma parseDirectory_parseFile cfg (workspace : list string) g :
  parseDirectory cfg workspace (parseFile cfg) g
  = mkScan g (map (parseFile cfg) (eligible cfg workspace)).
Proof. unfold parseDirectory, launch. by rewrite launch_parseFile_from. Qed.

Lemma eligible_iff cfg (workspace : list string) (file : string) :
  In file (eligible cfg workspace)
  <-> In file workspace
      /\ (exists f, In f (getFileTypesSetting cfg)
                    /\ Js.endsWith file ("." ++ f)%string = true)
      /\ hiddenFile file = false.
Proof.
  unfold eligible, findFiles. rewrite !filter_In, existsb_exists, negb_true_iff.
  tauto.
Qed.

(** [Promise.all], case by case. *)
Lemma promiseAll_fulfilled ps :
  promiseAll ps = Done Fulfilled
  <-> Forall (fun t => stateOf t = Done Fulfilled) ps.
Proof.
  unfold promiseAll.
  assert (forallb isFulfilled ps = true
          <-> Forall (fun t => stateOf t = Done Fulfilled) ps) as Hall.
  { rewrite forallb_forall, List.Forall_forall. apply forall_proper. intros t.
    apply forall_proper. intros _. by destruct t as [[]| |]. }
  destruct (existsb isRejected ps) eqn:Hr.
  - split; [done|]. intros H. apply existsb_exists in Hr as (t & Hin & Ht).
    pose proof (proj1 (List.Forall_forall _ _) H t Hin) as Hf.
    by destruct t as [[]| |].
  - destruct (forallb isFulfilled ps) eqn:Hf.
    + split; [intros _; by apply Hall|done].
    + split; [done|]. intros H. apply Hall in H. congruence.
Qed.

Lemma promiseAll_rejected ps :
  promiseAll ps = Done Rejected
  <-> Exists (fun t => stateOf t = Done Rejected) ps.
Proof.
  unfold promiseAll. rewrite List.Exists_exists.
  destruct (existsb isRejected ps) eqn:Hr.
  - split; [|done]. intros _. apply existsb_exists in Hr as (t & Hin & Ht).
    exists t. split; [done|]. by destruct t as [[]| |].
  - split.
    + by destruct (forallb isFulfilled ps).
    + intros (t & Hin & Ht).
      assert (existsb isRejected ps = true); [|congruence].
      apply existsb_exists. exists t. split; [done|]. by destruct t as [[]| |].
Qed.

(** What a turn of the event loop does to a [parseFile] that waits. *)
Lemma resume_parseFile cfg fs sc (i : nat) (file : string) :
  promises sc !! i = Some (parseFile cfg file) ->
  resume fs i sc
  = Some match fs (Path.normalize file) with
         | Some content =>
             mkScan (parseContent cfg (Path.normalize file) content (graph sc))
                    (<[i := Settled Fulfilled]> (promises sc))
         | None => mkScan (graph sc) (<[i := Settled Rejected]> (promises sc))
         end.
Proof.
  intros Hi. unfold resume. rewrite Hi. simpl.
  by destruct (fs (Path.normalize file)).
Qed.

(** Every [parseFile] of a scan gets its turn: the reads complete one
    after the other and all the promises settle. *)
Lemma scan_settles cfg fs files g (ps : list task) :
  Forall hasSettled ps ->
  exists sc',
    rtc (step fs) (mkScan g (ps ++ map (parseFile cfg) files)) sc'
    /\ Forall hasSettled (promises sc').
Proof.
  revert g ps. induction files as [|file files IH]; intros g ps Hps; simpl.
  - exists (mkScan g (ps ++ [])). split; [done|]. simpl. by rewrite app_nil_r.
  - pose proof (resume_parseFile cfg fs
                  (mkScan g (ps ++ parseFile cfg file
                                :: map (parseFile cfg) files))
                  (List.length ps) file) as Hres.
    simpl in Hres. rewrite list_lookup_middle in Hres by done.
    specialize (Hres eq_refl).
    rewrite !(insert_app_r_alt ps _ (List.length ps)) in Hres by lia.
    rewrite Nat.sub_diag in Hres. simpl in Hres.
    destruct (fs (Path.normalize file)) as [content|].
    + destruct (IH (parseContent cfg (Path.normalize file) content g)
                   (ps ++ [Settled Fulfilled])) as (sc' & Hrun & Hall).
      { apply Forall_app. split; [done|]. by repeat constructor. }
      exists sc'. split; [|done]. eapply rtc_l; [by eexists|].
      by rewrite <- app_assoc in Hrun.
    + destruct (IH g (ps ++ [Settled Rejected])) as (sc' & Hrun & Hall).
      { apply Forall_app. split; [done|]. by repeat constructor. }
      exists sc'. split; [|done]. eapply rtc_l; [by eexists|].
      by rewrite <- app_assoc in Hrun.
Qed.

(** C8, as amended.  [parseDirectory] calls the callback for every file
    that [findFiles] returns and that is not hidden, in their order, one
    call after the other without awaiting any ([parseFile] does not touch
    the graph before its read).  The scan is fulfilled exactly when every
    invocation is fulfilled, and it is rejected as soon as one invocation
    is rejected, whatever the others are doing.  A parse that fails leaves
    the graph and its siblings as they are; the siblings have their turn
    all the same, and every invocation settles in the end. *)
Theorem parseDirectory_launches_and_collects cfg fs
    (workspace : list string) g :
  (parseDirectory cfg workspace (parseFile cfg) g
   = mkScan g (map (parseFile cfg) (eligible cfg workspace))
   /\ (forall file : string,
         In file (eligible cfg workspace)
         <-> In file workspace
             /\ (exists f, In f (getFileTypesSetting cfg)
                           /\ Js.endsWith file ("." ++ f)%string = true)
             /\ hiddenFile file = false)
   /\ forall fileCallback : string -> task,
        Forall2 (fun t file =>
                   exists g0, t = fst (runSync (fileCallback file) g0))
                (promises (parseDirectory cfg workspace fileCallback g))
                (eligible cfg workspace))
  /\ (forall sc,
        (scanState sc = Done Fulfilled
         <-> Forall (fun t => stateOf t = Done Fulfilled) (promises sc))
        /\ (scanState sc = Done Rejected
            <-> Exists (fun t => stateOf t = Done Rejected) (promises sc)))
  /\ (forall sc (i : nat) (file : string),
        promises sc !! i = Some (parseFile cfg file) ->
        fs (Path.normalize file) = None ->
        exists sc',
          resume fs i sc = Some sc'
          /\ graph sc' = graph sc
          /\ scanState sc' = Done Rejected
          /\ forall j, j <> i -> promises sc' !! j = promises sc !! j)
  /\ (forall sc (j : nat) (file content : string),
        promises sc !! j = Some (parseFile cfg file) ->
        fs (Path.normalize file) = Some content ->
        resume fs j sc
        = Some (mkScan (parseContent cfg (Path.normalize file) content
                                     (graph sc))
                       (<[j := Settled Fulfilled]> (promises sc))))
  /\ (exists sc',
        rtc (step fs) (parseDirectory cfg workspace (parseFile cfg) g) sc'
        /\ Forall hasSettled (promises sc')).
Proof.
  split_and!.
  - apply parseDirectory_parseFile.
  - intros file. apply eligible_iff.
  - intros fileCallback. unfold parseDirectory, launch.
    destruct (launch_from fileCallback (findFiles cfg workspace) (mkScan g []))
      as (ts & Heq & Hall).
    rewrite Heq. simpl. exact Hall.
  - intros sc. split; [apply promiseAll_fulfilled|apply promiseAll_rejected].
  - intros sc i file Hi Hfs. rewrite (resume_parseFile cfg fs sc i file Hi), Hfs.
    eexists. split; [reflexivity|]. simpl. split_and!; [done| |].
    + apply promiseAll_rejected. apply List.Exists_exists.
      exists (Settled Rejected). split; [|done].
      apply list_elem_of_In, list_elem_of_lookup. exists i.
      apply list_lookup_insert_eq. by eapply lookup_lt_Some.
    + intros j Hj. by apply list_lookup_insert_ne.
  - intros sc j file content Hj Hfs.
    by rewrite (resume_parseFile cfg fs sc j file Hj), Hfs.
  - rewrite parseDirectory_parseFile.
    apply (scan_settles cfg fs (eligible cfg workspace) g []). constructor.
Qed.

(** An instance, in the example workspace. *)
Lemma parseDirectory_launches_and_collects_witness :
  promises Example.scanning !! 0%nat
  = Some (parseFile Example.cfg "/docs/gone.adoc")
  /\ Example.fs (Path.normalize "/docs/gone.adoc") = None
  /\ exists sc',
      Example.scanFailed = Some sc'
      /\ graph sc' = graph Example.scanning
      /\ scanState sc' = Done Rejected.
Proof.
  assert (promises Example.scanning !! 0%nat
          = Some (parseFile Example.cfg "/docs/gone.adoc")) as H1
    by reflexivity.
  assert (Example.fs (Path.normalize "/docs/gone.adoc") = None) as H2
    by (vm_compute; reflexivity).
  split; [exact H1|]. split; [exact H2|].
  destruct (proj1 (proj2 (proj2 (parseDirectory_launches_and_collects
                                   Example.cfg Example.fs Example.workspace
                                   Example.empty)))
              Example.scanning 0%nat "/docs/gone.adoc"%string H1 H2)
    as (sc' & Hres & Hg & Hst & _).
  exists sc'. by repeat split.
Defined.

(** C8 as it was stated fails when a read fails: the scan is over, rejected,
    while the parse of "/docs/a.adoc" has not settled yet; that parse still
    runs afterwards and puts its node and its edge into the graph. *)
Lemma scan_rejected_before_all_settled :
  exists sc1 sc2 : scan,
    Example.scanFailed = Some sc1
    /\ scanState sc1 = Done Rejected
    /\ stateOf <$> promises sc1 !! 1%nat = Some Pending
    /\ resume Example.fs 1 sc1 = Some sc2
    /\ graph sc2 = Example.afterA
    /\ map stateOf (promises sc2) = [Done Rejected; Done Fulfilled].
Proof.
  eexists _, _. split; [reflexivity|]. split; [reflexivity|].
  split; [reflexivity|]. split; [reflexivity|].
  split; vm_compute; reflexivity.
Qed.

End Scan.

(** ** Patterns *)

Section Patterns.

Import Regex.

Implicit Types (l pre post needle : list ascii) (p : pos) (r : re).

Lemma prefixL_spec needle l :
  Js.prefixL needle l = true <-> exists post, l = needle ++ post.
Proof.
  revert l. induction needle as [|c needle IH]; intros l; simpl.
  - split; [|done]. intros _. by exists l.
  - destruct l as [|a l].
    + split; [done|]. by intros [post ?].
    + rewrite andb_true_iff, IH. split.
      * intros [->%Ascii.eqb_eq [post ->]]. by exists post.
      * intros [post [= -> ->]]. rewrite Ascii.eqb_refl. split; [done|].
        by exists post.
Qed.

(** A literal text matches where the subject goes on with it. *)
Lemma run_text_chars needle (k : pos -> option pos) p :
  run (seq (map Lit needle)) k p
  = if Js.prefixL needle (after p)
    then k (Pos (rev needle ++ before p)
                (drop (List.length needle) (after p)) (caps p))
    else None.
Proof.
  revert p. induction needle as [|c needle IH]; intros p; simpl.
  - by destruct p.
  - destruct p as [bef aft cs]. simpl. destruct aft as [|a aft]; [done|].
    rewrite (Ascii.eqb_sym a c). destruct (Ascii.eqb_spec c a) as [->|_]; simpl;
      [|done].
    rewrite IH. simpl. by rewrite <- app_assoc.
Qed.

(** [search] finds a match exactly when the pattern matches somewhere. *)
Lemma search_is_Some r (bef aft : list ascii) :
  is_Some (search r bef aft)
  <-> exists pre post,
        aft = pre ++ post
        /\ is_Some (run r Some (Pos (rev pre ++ bef) post [])).
Proof.
  revert bef. induction aft as [|c aft IH]; intros bef; simpl.
  - destruct (run r Some (Pos bef [] [])) eqn:Hrun.
    + split; [|done]. intros _. exists [], []. simpl. by rewrite Hrun.
    + split; [by intros [? ?]|]. intros (pre & post & Heq & Hs).
      symmetry in Heq. apply app_eq_nil in Heq as [-> ->]. simpl in Hs.
      rewrite Hrun in Hs. by destruct Hs.
  - destruct (run r Some (Pos bef (c :: aft) [])) eqn:Hrun.
    + split; [|done]. intros _. exists [], (c :: aft). simpl. by rewrite Hrun.
    + rewrite IH. split.
      * intros (pre & post & -> & Hs). exists (c :: pre), post.
        split; [done|]. simpl. by rewrite <- app_assoc.
      * intros (pre & post & Heq & Hs). destruct pre as [|a pre].
        -- simpl in *. subst post. rewrite Hrun in Hs. by destruct Hs.
        -- injection Heq as <- ->. exists pre, post. split; [done|].
           simpl in Hs. by rewrite <- app_assoc in Hs.
Qed.

(** A word boundary and then a text that starts with a word character:
    the text, not preceded by a word character. *)
Lemma run_boundary_text (c : ascii) needle (bef aft : list ascii) :
  Js.isWord c = true ->
  is_Some (run (seq [WordB; seq (map Lit (c :: needle))]) Some (Pos bef aft []))
  <-> wordAt bef = false /\ exists post, aft = (c :: needle) ++ post.
Proof.
  intros Hc. rewrite <- prefixL_spec.
  change (run (seq [WordB; seq (map Lit (c :: needle))]) Some (Pos bef aft []))
    with (if xorb (wordAt bef) (wordAt aft)
          then run (seq (map Lit (c :: needle))) (run Eps Some) (Pos bef aft [])
          else None).
  rewrite run_text_chars. cbn [after].
  destruct (Js.prefixL (c :: needle) aft) eqn:Hp.
  - apply prefixL_spec in Hp as [post ->]. simpl. rewrite Hc.
    destruct (wordAt bef); simpl; split; try done; by intros [? _].
  - destruct (xorb _ _); split; try done; by intros [_ ?]; try by intros [? ?].
Qed.

(** [/\bneedle/.test(s)] for a needle that starts with a word character. *)
Lemma test_boundary_text (c : ascii) (needle s : string) :
  Js.isWord c = true ->
  test (seq [WordB; text (String c needle)]) s = true
  <-> atWordStart s (String c needle).
Proof.
  intros Hc. unfold test, matchFirst, atWordStart.
  rewrite bool_decide_eq_true, search_is_Some.
  split.
  - intros (pre & post & Heq & Hrun). rewrite app_nil_r in Hrun.
    apply (run_boundary_text c (Js.chars needle)) in Hrun as [Hw [post' ->]];
      [|done].
    by exists pre, post'.
  - intros (pre & post & Heq & Hw). exists pre, (Js.chars (String c needle) ++ post).
    split; [done|]. rewrite app_nil_r.
    apply (run_boundary_text c (Js.chars needle)); [done|].
    split; [done|]. by exists post.
Qed.

Lemma atWordStart_nonempty (s needle : string) :
  atWordStart s needle -> needle <> ""%string -> s <> ""%string.
Proof.
  intros (pre & post & Heq & _) Hne ->. simpl in Heq.
  symmetry in Heq. apply app_eq_nil in Heq as [_ Heq].
  apply app_eq_nil in Heq as [Heq _]. destruct needle; [done|discriminate].
Qed.

(** What [hasPartialIncludeAttributes] looks for. *)
Lemma hasPartialIncludeAttributes_spec (attributes : string) :
  hasPartialIncludeAttributes attributes = true
  <-> atWordStart attributes "tag=" \/ atWordStart attributes "tags="
      \/ atWordStart attributes "lines=".
Proof.
  unfold hasPartialIncludeAttributes.
  destruct (String.eqb_spec attributes "") as [->|Hne].
  - split; [done|].
    intros [H|[H|H]]; by apply atWordStart_nonempty in H.
  - unfold partialPatterns. cbn [existsb].
    rewrite !orb_true_iff.
    rewrite (test_boundary_text "t" "ag="), (test_boundary_text "t" "ags="),
      (test_boundary_text "l" "ines=") by done.
    intuition discriminate.
Qed.

(** Trimming does not change where a text without white space occurs. *)
Lemma space_not_word (a : ascii) : Js.isSpace a = true -> Js.isWord a = false.
Proof.
  destruct a as [b0 b1 b2 b3 b4 b5 b6 b7].
  destruct b0, b1, b2, b3, b4, b5, b6, b7; vm_compute; congruence.
Qed.

Lemma wordAt_app l l' : l <> [] -> wordAt (l ++ l') = wordAt l.
Proof. by destruct l. Qed.

Lemma wordAt_rev_cons (a : ascii) pre :
  Js.isWord a = false -> wordAt (rev (a :: pre)) = wordAt (rev pre).
Proof.
  intros Ha. simpl. destruct (rev pre) as [|x xs] eqn:E; simpl; [done|done].
Qed.

Lemma atWordStartL_trimStart (c : ascii) needle l :
  Js.isSpace c = false ->
  atWordStartL (Js.trimStartL l) (c :: needle) <-> atWordStartL l (c :: needle).
Proof.
  intros Hc. induction l as [|a l IH]; simpl; [done|].
  destruct (Js.isSpace a) eqn:Ha; [|done].
  rewrite IH. split.
  - intros (pre & post & -> & Hw). exists (a :: pre), post. split; [done|].
    rewrite wordAt_rev_cons; [done|by apply space_not_word].
  - intros (pre & post & Heq & Hw). destruct pre as [|a' pre].
    + injection Heq as -> _. congruence.
    + injection Heq as <- ->. exists pre, post. split; [done|].
      rewrite wordAt_rev_cons in Hw; [done|by apply space_not_word].
Qed.

Lemma atWordStartL_snoc_space (a d : ascii) needle l :
  Js.isSpace a = true -> Js.isSpace d = false ->
  atWordStartL (l ++ [a]) (needle ++ [d]) <-> atWordStartL l (needle ++ [d]).
Proof.
  intros Ha Hd. split.
  - intros (pre & post & Heq & Hw).
    destruct (rev post) as [|x xs] eqn:E.
    + apply (f_equal (@rev ascii)) in E. rewrite rev_involutive in E.
      simpl in E. subst post. rewrite app_nil_r, app_assoc in Heq.
      apply app_inj_tail in Heq as [_ ->]. congruence.
    + apply (f_equal (@rev ascii)) in E. rewrite rev_involutive in E.
      simpl in E. subst post. rewrite !app_assoc in Heq.
      apply app_inj_tail in Heq as [-> _].
      exists pre, (rev xs). split; [by rewrite <- !app_assoc|done].
  - intros (pre & post & -> & Hw). exists pre, (post ++ [a]).
    split; [by rewrite <- !app_assoc|done].
Qed.

Lemma atWordStartL_trimEnd (d : ascii) needle l :
  Js.isSpace d = false ->
  atWordStartL (rev (Js.trimStartL (rev l))) (needle ++ [d])
  <-> atWordStartL l (needle ++ [d]).
Proof.
  intros Hd. induction l as [|a l IH] using rev_ind; [done|].
  rewrite rev_unit. simpl. destruct (Js.isSpace a) eqn:Ha.
  - by rewrite IH, atWordStartL_snoc_space.
  - simpl. by rewrite rev_involutive.
Qed.

Lemma atWordStart_trim (c d : ascii) (mid s : string) :
  Js.isSpace c = false -> Js.isSpace d = false ->
  atWordStart (Js.trim s) (String c (mid ++ String d ""))
  <-> atWordStart s (String c (mid ++ String d "")).
Proof.
  intros Hc Hd. unfold atWordStart, Js.trim, Js.trimL. rewrite chars_str.
  change (Js.chars (String c (mid ++ String d "")))
    with (c :: Js.chars (mid ++ String d "")).
  rewrite chars_app. change (Js.chars (String d "")) with [d].
  rewrite <- (atWordStartL_trimStart c _ (Js.chars s) Hc).
  change (c :: Js.chars mid ++ [d]) with ((c :: Js.chars mid) ++ [d]).
  by rewrite atWordStartL_trimEnd.
Qed.

Lemma flat_map_filter {A B} (c : A -> bool) (f : A -> B) (l : list A) :
  flat_map (fun x => if c x then [f x] else []) l = map f (List.filter c l).
Proof.
  induction l as [|x l IH]; simpl; [done|]. destruct (c x); simpl; congruence.
Qed.

(** The four loops of [findAsciidocLinks], one after the other. *)
Lemma findAsciidocLinks_parts (content : string) :
  exists links,
    Forall (fun x => linkType x = link) links
    /\ findAsciidocLinks content = links ++ includeRefs content.
Proof.
  unfold findAsciidocLinks.
  rewrite (fold_left_push _
             (fun m => if negb (isExternalUrl (groupTrim 1 m))
                       then [mkLink (groupTrim 1 m) (includeType (groupTrim 2 m))]
                       else []) (matchAll includePattern content)).
  2:{ intros acc m. unfold push. cbv zeta. fold (includeType (groupTrim 2 m)).
      destruct (negb _); [done|by rewrite app_nil_r]. }
  rewrite (flat_map_filter (fun m => negb (isExternalUrl (groupTrim 1 m)))
             (fun m => mkLink (groupTrim 1 m) (includeType (groupTrim 2 m)))).
  eexists. split; [|reflexivity].
  rewrite (fold_left_push _
             (fun m => if negb (isExternalUrl (groupTrim 1 m))
                       then [mkLink (groupTrim 1 m) link] else [])
             (matchAll linkPattern content)).
  2:{ intros acc m. unfold push. cbv zeta.
      destruct (negb _); [done|by rewrite app_nil_r]. }
  rewrite (fold_left_push _
             (fun m => if negb (isExternalUrl (groupTrim 1 m))
                          && Js.endsWith (groupTrim 1 m) ".adoc"
                       then [mkLink (groupTrim 1 m) link] else [])
             (matchAll anchorXrefPattern content)).
  2:{ intros acc m. unfold push. cbv zeta.
      destruct (_ && _); [done|by rewrite app_nil_r]. }
  rewrite (fold_left_push _
             (fun m => if negb (isExternalUrl (groupTrim 1 m))
                       then [mkLink (groupTrim 1 m) link] else [])
             (matchAll xrefPattern content)).
  2:{ intros acc m. unfold push. cbv zeta.
      destruct (negb _); [done|by rewrite app_nil_r]. }
  rewrite !flat_map_filter.
  repeat apply Forall_app_2; try constructor;
    apply List.Forall_forall; by intros x (m & <- & _)%in_map_iff.
Qed.

(** C3, as amended.  A reference made for an include directive has the
    type include-partial exactly when the attribute list between the
    brackets has "tag=", "tags=" or "lines=" at the start of a word (at the
    start of the list or after a character other than a letter, a digit or
    an underscore), and the type include otherwise; the references of the
    other three forms have the type link. *)
Theorem include_directive_classification (content : string) :
  (exists links,
     Forall (fun x => linkType x = link) links
     /\ findAsciidocLinks content = links ++ includeRefs content)
  /\ forall m : pos,
      In m (matchAll includePattern content) ->
      isExternalUrl (groupTrim 1 m) = false ->
      In (mkLink (groupTrim 1 m) (includeType (groupTrim 2 m)))
         (findAsciidocLinks content)
      /\ (includeType (groupTrim 2 m) = include_partial
          <-> atWordStart (Js.str (group 2 m)) "tag="
              \/ atWordStart (Js.str (group 2 m)) "tags="
              \/ atWordStart (Js.str (group 2 m)) "lines=")
      /\ (includeType (groupTrim 2 m) = include
          <-> ~ (atWordStart (Js.str (group 2 m)) "tag="
                 \/ atWordStart (Js.str (group 2 m)) "tags="
                 \/ atWordStart (Js.str (group 2 m)) "lines=")).
Proof.
  split; [apply findAsciidocLinks_parts|].
  intros m Hm Hext.
  assert (hasPartialIncludeAttributes (groupTrim 2 m) = true
          <-> atWordStart (Js.str (group 2 m)) "tag="
              \/ atWordStart (Js.str (group 2 m)) "tags="
              \/ atWordStart (Js.str (group 2 m)) "lines=") as Hspec.
  { rewrite hasPartialIncludeAttributes_spec. unfold groupTrim.
    by rewrite (atWordStart_trim "t" "=" "ag"), (atWordStart_trim "t" "=" "ags"),
      (atWordStart_trim "l" "=" "ines"). }
  split; [|split].
  - destruct (findAsciidocLinks_parts content) as (links & _ & ->).
    apply in_app_iff. right. unfold includeRefs.
    apply in_map_iff. exists m. split; [done|].
    apply filter_In. split; [done|]. by rewrite Hext.
  - rewrite <- Hspec. unfold includeType.
    by destruct (hasPartialIncludeAttributes _).
  - rewrite <- Hspec. unfold includeType.
    destruct (hasPartialIncludeAttributes _); split; try done.
Qed.

(** An instance, in the example workspace. *)
Lemma include_directive_classification_witness :
  In (Pos (rev (Js.chars "include::a.adoc[lines=1..5]")) []
          [(2%nat, Js.chars "lines=1..5"); (1%nat, Js.chars "a.adoc")])
     (matchAll includePattern "include::a.adoc[lines=1..5]")
  /\ isExternalUrl "a.adoc" = false
  /\ In (mkLink "a.adoc" include_partial)
        (findAsciidocLinks "include::a.adoc[lines=1..5]").
Proof.
  assert (In (Pos (rev (Js.chars "include::a.adoc[lines=1..5]")) []
                  [(2%nat, Js.chars "lines=1..5"); (1%nat, Js.chars "a.adoc")])
             (matchAll includePattern "include::a.adoc[lines=1..5]")) as H1
    by (vm_compute; left; reflexivity).
  assert (isExternalUrl "a.adoc" = false) as H2 by reflexivity.
  split; [exact H1|]. split; [exact H2|].
  exact (proj1 (proj2 (include_directive_classification
                         "include::a.adoc[lines=1..5]") _ H1 H2)).
Defined.

(** C3 as it was stated fails: the attribute list "xtag=1" contains
    "tag=", yet the reference is a full include, because the pattern asks
    for a word boundary before "tag=". *)
Lemma xtag_is_a_full_include :
  contains "xtag=1" "tag="
  /\ map (fun m => Js.str (group 2 m))
         (matchAll includePattern "include::a.adoc[xtag=1]") = ["xtag=1"%string]
  /\ hasPartialIncludeAttributes "xtag=1" = false
  /\ findAsciidocLinks "include::a.adoc[xtag=1]" = [mkLink "a.adoc" include].
Proof.
  split.
  - exists (Js.chars "x"), (Js.chars "1"). reflexivity.
  - vm_compute. by repeat split.
Qed.

(** *** The loop over the matches ends by itself

    A match never ends to the left of where it starts, and the patterns
    of [findAsciidocLinks] consume at least a character, so the loop over
    the matches stops because a search fails, well within its fuel. *)

Lemma rounds_shrinks (m : (pos -> option pos) -> pos -> option pos)
    (k : pos -> option pos) :
  (forall k' p q, m k' p = Some q ->
     exists p', k' p' = Some q
                /\ (List.length (after p') <= List.length (after p))%nat) ->
  forall n p q, rounds m k n p = Some q ->
    exists p', k p' = Some q
               /\ (List.length (after p') <= List.length (after p))%nat.
Proof.
  intros Hm. induction n as [|n IH]; intros p q H; simpl in H.
  - by exists p.
  - destruct (m _ p) as [q'|] eqn:Hrun.
    + injection H as ->. apply Hm in Hrun as (p1 & Hk & Hle).
      destruct (_ <? _)%nat eqn:Hlt; [|done].
      apply IH in Hk as (p' & Hk & Hle'). exists p'. split; [done|lia].
    + by exists p.
Qed.

Lemma run_shrinks r (k : pos -> option pos) p (q : pos) :
  run r k p = Some q ->
  exists p', k p' = Some q
             /\ (List.length (after p') <= List.length (after p))%nat.
Proof.
  revert k p q. induction r as [|c| |cs|r1 IH1 r2 IH2|r1 IH|r1 IH|r1 IH|n r1 IH| | | |];
    intros k p q H; simpl in H.
  - by exists p.
  - destruct p as [bef [|a rest] cs]; simpl in H; [done|].
    destruct (Ascii.eqb a c); [|done]. eexists. split; [exact H|]. simpl. lia.
  - destruct p as [bef [|a rest] cs]; simpl in H; [done|].
    destruct (Js.isLineTerminator a); [done|].
    eexists. split; [exact H|]. simpl. lia.
  - destruct p as [bef [|a rest] cs0]; simpl in H; [done|].
    destruct (inb a cs); [done|]. eexists. split; [exact H|]. simpl. lia.
  - apply IH1 in H as (p1 & H & Hle1). apply IH2 in H as (p2 & H & Hle2).
    exists p2. split; [done|lia].
  - by apply (rounds_shrinks (run r1) k IH) in H.
  - apply IH in H as (p1 & H & Hle1).
    apply (rounds_shrinks (run r1) k IH) in H as (p2 & H & Hle2).
    exists p2. split; [done|lia].
  - destruct (run r1 k p) as [q'|] eqn:Hrun.
    + injection H as ->. by apply IH in Hrun.
    + by exists p.
  - apply IH in H as (p1 & H & Hle1). eexists. split; [exact H|]. simpl. lia.
  - destruct (lineEdge _); [|done]. by exists p.
  - destruct (lineEdge _); [|done]. by exists p.
  - destruct (xorb _ _); [|done]. by exists p.
  - destruct (wordAt _); [done|]. by exists p.
Qed.

(** A pattern that starts with a character consumes it. *)
Lemma consuming_lit (c : ascii) r : consuming (Cat (Lit c) r).
Proof.
  intros p q H. simpl in H.
  destruct p as [bef [|a rest] cs]; simpl in H; [done|].
  destruct (Ascii.eqb a c); [|done].
  apply run_shrinks in H as (p' & [= ->] & Hle). simpl in *. lia.
Qed.

Lemma consuming_text (c : ascii) (s : string) r :
  consuming (Cat (text (String c s)) r).
Proof.
  intros p q H.
  change (run (Cat (Lit c) (Cat (text s) r)) Some p = Some q) in H.
  by apply consuming_lit in H.
Qed.

Lemma consuming_guarded (c : ascii) (s : string) r :
  consuming (Cat NotAfterWord (Cat (text (String c s)) r)).
Proof.
  intros p q H.
  change (run (Cat NotAfterWord (Cat (text (String c s)) r)) Some p)
    with (if wordAt (before p) then None
          else run (Cat (text (String c s)) r) Some p) in H.
  destruct (wordAt _); [done|]. by apply consuming_text in H.
Qed.

Lemma patterns_consuming :
  consuming xrefPattern /\ consuming anchorXrefPattern
  /\ consuming linkPattern /\ consuming includePattern.
Proof.
  repeat split;
    [apply consuming_text|apply consuming_text|apply consuming_guarded
    |apply consuming_text].
Qed.

Lemma search_shrinks r (bef aft : list ascii) (q : pos) :
  consuming r -> search r bef aft = Some q ->
  (List.length (after q) < List.length aft)%nat.
Proof.
  intros Hr. revert bef. induction aft as [|a aft IH]; intros bef H; simpl in H.
  - destruct (run r Some _) as [q'|] eqn:Hrun; [|done].
    injection H as ->. by apply Hr in Hrun.
  - destruct (run r Some _) as [q'|] eqn:Hrun.
    + injection H as ->. by apply Hr in Hrun.
    + apply IH in H. simpl. lia.
Qed.

(** More fuel than characters is enough fuel. *)
Lemma execAll_fuel r (fuel1 fuel2 : nat) (bef aft : list ascii) :
  consuming r ->
  (List.length aft < fuel1)%nat -> (List.length aft < fuel2)%nat ->
  execAll r fuel1 bef aft = execAll r fuel2 bef aft.
Proof.
  intros Hr. revert fuel2 bef aft.
  induction fuel1 as [|fuel1 IH]; intros fuel2 bef aft H1 H2; [lia|].
  destruct fuel2 as [|fuel2]; [lia|]. simpl.
  destruct (search r bef aft) as [q|] eqn:Hs; [|done].
  f_equal. apply search_shrinks in Hs; [|done]. apply IH; lia.
Qed.

Lemma matchAll_fuel r (s : string) (fuel : nat) :
  consuming r -> (String.length s < fuel)%nat ->
  matchAll r s = execAll r fuel [] (Js.chars s).
Proof.
  intros Hr Hf. unfold matchAll. apply execAll_fuel; [done| |];
    rewrite chars_length; lia.
Qed.

End Patterns.

(** ** The identifier *)

Section Identifier.

Import Path.
Local Open Scope Z_scope.

Implicit Types (l e q : list ascii) (st : extState) (i : Z).

(** Characters that are neither "." nor "/", before any dot has been seen
    and once the end is known, leave the state of [extname] as it is. *)
Lemma extLoop_plain e l i st :
  Forall (fun x => isDot x = false /\ isSep x = false) e ->
  startDot st = -1 -> endIdx st <> -1 ->
  extLoop (e ++ l) i st = extLoop l (i - len e) st.
Proof.
  intros He Hsd Hen. revert i.
  induction He as [|x e [Hd Hs] _ IH]; intros i; simpl.
  - f_equal. unfold len. simpl. lia.
  - rewrite Hs, Hd. apply Z.eqb_neq in Hen. rewrite Hen. simpl.
    rewrite Hsd. simpl. rewrite IH. f_equal. unfold len. simpl. lia.
Qed.

(** Once the dot and the end are known and a character has been seen
    before the dot, the rest of the path changes neither. *)
Lemma extLoop_rest l i st :
  startDot st <> -1 -> endIdx st <> -1 -> matchedSlash st = false ->
  preDotState st <> 0 ->
  startDot (extLoop l i st) = startDot st
  /\ endIdx (extLoop l i st) = endIdx st
  /\ preDotState (extLoop l i st) <> 0.
Proof.
  revert i st. induction l as [|x l IH]; intros i st Hsd Hen Hms Hpd; simpl.
  - done.
  - destruct (isSep x).
    + rewrite Hms. simpl. done.
    + apply Z.eqb_neq in Hen. rewrite Hen.
      apply Z.eqb_neq in Hsd. rewrite Hsd. simpl.
      apply Z.eqb_neq in Hen, Hsd.
      destruct (isDot x).
      * destruct (preDotState st =? 1) eqn:E; simpl.
        -- by apply IH.
        -- destruct (IH (i - 1) (ExtState (startDot st) (startPart st)
                                           (endIdx st) (matchedSlash st) 1))
             as (H1 & H2 & H3); simpl; try done.
      * destruct (IH (i - 1) (ExtState (startDot st) (startPart st)
                                        (endIdx st) (matchedSlash st) (-1)))
          as (H1 & H2 & H3); simpl; try done.
Qed.

Lemma slice_suffix q e :
  slice (q ++ e) (len q) (len q + len e) = e.
Proof.
  unfold slice, len. replace (_ + _ - _) with (Z.of_nat (List.length e)) by lia.
  rewrite !Nat2Z.id, drop_app_length. apply firstn_all.
Qed.

(** The three kinds of step of [extname] on the way to the file name. *)
Lemma extLoop_first (x : ascii) l i :
  isSep x = false -> isDot x = false ->
  extLoop (x :: l) i extInit = extLoop l (i - 1) (ExtState (-1) 0 (i + 1) false 0).
Proof. intros Hs Hd. cbn. by rewrite Hs, Hd. Qed.

Lemma extLoop_dot l i (en : Z) :
  en <> -1 ->
  extLoop (dot :: l) i (ExtState (-1) 0 en false 0)
  = extLoop l (i - 1) (ExtState i 0 en false 0).
Proof.
  intros Hen. cbn. change (isSep dot) with false. change (isDot dot) with true.
  cbn. destruct (Z.eqb_spec en (-1)); [done|]. done.
Qed.

Lemma extLoop_before_dot (c : ascii) l i (sd en : Z) :
  isSep c = false -> sd <> -1 -> en <> -1 ->
  exists pd,
    pd <> 0
    /\ extLoop (c :: l) i (ExtState sd 0 en false 0)
       = extLoop l (i - 1) (ExtState sd 0 en false pd).
Proof.
  intros Hc Hsd Hen. cbn. rewrite Hc.
  destruct (Z.eqb_spec en (-1)); [done|]. cbn.
  destruct (Z.eqb_spec sd (-1)); [done|]. cbn.
  destruct (isDot c); [by exists 1|by exists (-1)].
Qed.

(** The extension of a path that ends in a file name, a dot and a run [e]
    of characters other than "." and "/" is the dot and [e]. *)
Lemma extnameL_suffix q (c : ascii) e :
  isSep c = false -> e <> [] ->
  Forall (fun x => isDot x = false /\ isSep x = false) e ->
  extnameL (q ++ c :: dot :: e) = dot :: e.
Proof.
  intros Hc Hne He. unfold extnameL.
  assert (rev (q ++ c :: dot :: e) = rev e ++ dot :: c :: rev q)%list as ->.
  { rewrite rev_app_distr. simpl. by rewrite <- !app_assoc. }
  assert (len (q ++ c :: dot :: e) = len q + 2 + len e) as Hlen.
  { unfold len. rewrite length_app. simpl. lia. }
  apply Forall_rev in He.
  destruct (rev e) as [|x e'] eqn:Hrev.
  { apply (f_equal (@rev ascii)) in Hrev. rewrite rev_involutive in Hrev.
    done. }
  assert (len e = 1 + len e') as Hlen'.
  { unfold len. rewrite <- (length_rev e), Hrev. simpl. lia. }
  apply Forall_cons in He as [[Hxd Hxs] He'].
  rewrite Hlen.
  assert (0 <= len q /\ 0 <= len e') as [Hq He0] by (unfold len; lia).
  assert (exists pd,
            pd <> 0
            /\ extLoop ((x :: e') ++ dot :: c :: rev q) (len q + 2 + len e - 1)
                       extInit
               = extLoop (rev q) (len q - 1)
                         (ExtState (len q + 1) 0 (len q + 2 + len e) false pd))
    as (pd & Hpd & ->).
  { cbn [app]. rewrite extLoop_first by done.
    rewrite extLoop_plain; [|done|done|cbn; lia].
    rewrite extLoop_dot by lia.
    destruct (extLoop_before_dot c (rev q)
                (len q + 2 + len e - 1 - 1 - len e' - 1)
                (len q + 2 + len e - 1 - 1 - len e')
                (len q + 2 + len e - 1 + 1) Hc) as (pd & Hpd & ->); [lia|lia|].
    exists pd. split; [done|]. f_equal; [lia|]. f_equal; lia. }
  destruct (extLoop_rest (rev q) (len q - 1)
              (ExtState (len q + 1) 0 (len q + 2 + len e) false pd))
    as (-> & -> & Hpd'); cbn; try lia; try done.
  replace (len q + 1 =? -1) with false by (symmetry; apply Z.eqb_neq; lia).
  replace (len q + 2 + len e =? -1) with false
    by (symmetry; apply Z.eqb_neq; lia).
  apply Z.eqb_neq in Hpd'. rewrite Hpd'.
  replace (len q + 1 =? len q + 2 + len e - 1) with false
    by (symmetry; apply Z.eqb_neq; lia).
  rewrite andb_false_r. cbn.
  pose proof (slice_suffix (q ++ [c]) (dot :: e)) as Hs.
  rewrite <- app_assoc in Hs. cbn in Hs.
  replace (len (q ++ [c])) with (len q + 1) in Hs
    by (unfold len; rewrite length_app; simpl; lia).
  replace (len q + 1 + len (dot :: e)) with (len q + 2 + len e) in Hs
    by (unfold len; simpl; lia).
  exact Hs.
Qed.

Lemma str_length l : String.length (Js.str l) = List.length l.
Proof. by rewrite <- chars_length, chars_str. Qed.

(** Stripping such an extension gives back the path before it. *)
Lemma pathWithoutExt_suffix (p e : string) :
  namesAFile p -> e <> ""%string ->
  Forall (fun x => isDot x = false /\ isSep x = false) (Js.chars e) ->
  pathWithoutExt (p ++ String dot e) = p.
Proof.
  intros (q' & c & -> & Hc) Hne He.
  unfold pathWithoutExt, extname, Js.substring0.
  assert (Js.chars ((q' ++ String c "") ++ String dot e)
          = Js.chars q' ++ c :: dot :: Js.chars e)%list as Hchars.
  { rewrite !chars_app. simpl. by rewrite <- app_assoc. }
  rewrite Hchars, extnameL_suffix; [|done| |done].
  2:{ destruct e; [done|discriminate]. }
  rewrite str_length, <- chars_length, Hchars.
  rewrite length_app. cbn [List.length].
  replace (Z.to_nat _) with (List.length (Js.chars q' ++ [c]))
    by (rewrite length_app; simpl; lia).
  replace (Js.chars q' ++ c :: dot :: Js.chars e)%list
    with ((Js.chars q' ++ [c]) ++ dot :: Js.chars e)%list
    by (by rewrite <- app_assoc).
  rewrite take_app_length. rewrite str_app. by rewrite str_chars.
Qed.

(** C4, as amended.  Two paths that are the same once their extension is
    stripped have the same id; two paths with the same id are the same once
    stripped unless the two stripped paths are an MD5 collision; and
    [id (p + ".adoc")] is [id (p + ".asciidoc")] for every p that ends in the
    name of a file, that is, every p that is not empty and does not end in
    "/". *)
Theorem id_is_the_hash_of_the_stem :
  (forall p1 p2 : string,
     pathWithoutExt p1 = pathWithoutExt p2 -> id p1 = id p2)
  /\ (forall p1 p2 : string,
        id p1 = id p2 ->
        pathWithoutExt p1 = pathWithoutExt p2
        \/ collide (pathWithoutExt p1) (pathWithoutExt p2))
  /\ (forall p : string,
        namesAFile p ->
        pathWithoutExt (p ++ ".adoc") = p
        /\ pathWithoutExt (p ++ ".asciidoc") = p
        /\ id (p ++ ".adoc") = id (p ++ ".asciidoc")).
Proof.
  split; [|split].
  - intros p1 p2 H. unfold id. by rewrite H.
  - intros p1 p2 H.
    destruct (decide (pathWithoutExt p1 = pathWithoutExt p2)) as [?|Hne];
      [by left|right]. by split.
  - intros p Hp.
    assert (pathWithoutExt (p ++ ".adoc") = p) as H1.
    { apply (pathWithoutExt_suffix p "adoc" Hp); [done|].
      repeat constructor. }
    assert (pathWithoutExt (p ++ ".asciidoc") = p) as H2.
    { apply (pathWithoutExt_suffix p "asciidoc" Hp); [done|].
      repeat constructor. }
    repeat split; [done|done|]. unfold id. by rewrite H1, H2.
Qed.

(** An instance, in the example workspace. *)
Lemma id_is_the_hash_of_the_stem_witness :
  namesAFile "/docs/a"
  /\ id ("/docs/a" ++ ".adoc") = id ("/docs/a" ++ ".asciidoc").
Proof.
  assert (namesAFile "/docs/a") as H.
  { exists "/docs/"%string, "a"%char. by split. }
  split; [exact H|].
  exact (proj2 (proj2 (proj2 (proj2 id_is_the_hash_of_the_stem) "/docs/a"%string
                             H))).
Defined.

(** C4 as it was stated fails for a p without a file name: ".adoc" and
    ".asciidoc" are names that start with a dot, which [extname] does not
    take for an extension, so nothing is stripped and the ids differ. *)
Lemma dot_file_ids_differ :
  Path.extname ("" ++ ".adoc") = ""%string
  /\ Path.extname ("" ++ ".asciidoc") = ""%string
  /\ id ("" ++ ".adoc") <> id ("" ++ ".asciidoc")
  /\ id ("/docs/" ++ ".adoc") <> id ("/docs/" ++ ".asciidoc").
Proof. vm_compute. repeat split; discriminate. Qed.

End Identifier.

(** ** The nodes of a re-parsed file *)

Section Nodes.

Import Terms.

Implicit Types (cfg : Config) (fs : FileSystem) (g : Graph).
Implicit Types (p q filePath content : string) (ns : list Node).

Lemma parsed_cases cfg fs filePath g :
  parsed cfg fs filePath g
  = match fs (Path.normalize filePath) with
    | Some content => parseContent cfg (Path.normalize filePath) content g
    | None => g
    end.
Proof.
  unfold parsed. rewrite complete_parseFile.
  by destruct (fs (Path.normalize filePath)).
Qed.

Lemma find_filter {A} (f h : A -> bool) (l : list A) :
  (forall x, f x = true -> h x = true) ->
  find f (List.filter h l) = find f l.
Proof.
  intros Hfh. induction l as [|x l IH]; simpl; [done|].
  destruct (f x) eqn:Hf.
  - rewrite (Hfh x Hf). simpl. by rewrite Hf.
  - destruct (h x); simpl; [by rewrite Hf|done].
Qed.

(** The node of another path is looked up among the nodes of the other
    paths. *)
Lemma nodeOf_otherNodes g p q :
  q <> p -> nodeOf g q = find (fun n => String.eqb (path n) q) (otherNodes g p).
Proof.
  intros Hne. unfold nodeOf, otherNodes. symmetry. apply find_filter.
  intros n Hn. apply String.eqb_eq in Hn. apply negb_true_iff.
  apply String.eqb_neq. congruence.
Qed.

Lemma otherNodes_app ns1 ns2 es p :
  otherNodes (mkGraph (ns1 ++ ns2) es) p
  = otherNodes (mkGraph ns1 es) p ++ otherNodes (mkGraph ns2 es) p.
Proof. unfold otherNodes. simpl. apply List.filter_app. Qed.

(** The nodes of the other paths, whatever the content. *)
Lemma parseContent_otherNodes cfg p content g :
  otherNodes (parseContent cfg p content g) p = otherNodes g p.
Proof.
  unfold otherNodes.
  destruct (Parsing.not_ (findAsciidocTitle cfg content)) eqn:Ht.
  - destruct (parseContent_nodes_no_title cfg p content g Ht)
      as [[_ ->]|(l1 & n & l2 & -> & Hn & _ & ->)]; [done|].
    rewrite !List.filter_app. simpl. by rewrite Hn.
  - destruct (not_false_title _ Ht) as (t & Htitle & Hne).
    destruct (first_of_path p (nodes g))
      as [Hall|(l1 & n & l2 & Hg & Hn & Hl1)].
    + rewrite (parseContent_nodes_new cfg p content g t Htitle Hne Hall).
      rewrite List.filter_app. simpl. rewrite String.eqb_refl. simpl.
      by rewrite app_nil_r.
    + rewrite (parseContent_nodes_found cfg p content g t l1 n l2
                 Htitle Hne Hg Hn Hl1), Hg.
      rewrite !List.filter_app. simpl. by rewrite Hn.
Qed.

(** X1.  [parseFile] leaves the nodes of every other path as they are and
    in their order, whether the read fails, the content has a title or it
    has none; so the node found for another path is the same before and
    after. *)
Theorem parseFile_keeps_other_nodes cfg fs filePath g :
  otherNodes (parsed cfg fs filePath g) (Path.normalize filePath)
  = otherNodes g (Path.normalize filePath)
  /\ forall q, q <> Path.normalize filePath ->
               nodeOf (parsed cfg fs filePath g) q = nodeOf g q.
Proof.
  assert (otherNodes (parsed cfg fs filePath g) (Path.normalize filePath)
          = otherNodes g (Path.normalize filePath)) as H.
  { rewrite parsed_cases. destruct (fs _); [|done].
    apply parseContent_otherNodes. }
  split; [done|]. intros q Hq.
  by rewrite !(nodeOf_otherNodes _ (Path.normalize filePath) q Hq), H.
Qed.

Lemma find_first {A} (f : A -> bool) (l1 l2 : list A) (x : A) :
  Forall (fun y => f y = false) l1 -> f x = true ->
  find f (l1 ++ x :: l2) = Some x.
Proof.
  intros Hl1 Hx. induction Hl1 as [|y l1 Hy _ IH]; simpl.
  - by rewrite Hx.
  - by rewrite Hy.
Qed.

Lemma find_none_all {A} (f : A -> bool) (l : list A) :
  Forall (fun y => f y = false) l -> find f l = None.
Proof. induction 1 as [|y l Hy _ IH]; simpl; [done|]. by rewrite Hy. Qed.

(** The nodes after a parse, up to their order: those of the other paths
    and the entry of the file. *)
Lemma parseContent_nodes_entry cfg p content g :
  uniquePaths g ->
  nodes (parseContent cfg p content g)
  ≡ₚ otherNodes g p ++ entry cfg p content g.
Proof.
  intros Hu. unfold entry, keptId, otherNodes.
  destruct (Parsing.not_ (findAsciidocTitle cfg content)) eqn:Ht.
  - assert ((match findAsciidocTitle cfg content with
             | Some title =>
                 if String.eqb title "" then []
                 else [mkNode match nodeOf g p with
                              | Some node => Types.id node
                              | None => id p
                              end p title]
             | None => []
             end) = []) as ->.
    { destruct (findAsciidocTitle cfg content) as [t|]; [|done].
      simpl in Ht. by rewrite Ht. }
    rewrite app_nil_r.
    destruct (parseContent_nodes_no_title cfg p content g Ht)
      as [[Hall ->]|(l1 & n & l2 & Hg & Hn & Hl1 & ->)].
    + rewrite filter_all; [done|].
      eapply Forall_impl; [exact Hall|]. by intros n ->.
    + unfold uniquePaths in Hu. rewrite Hg in *.
      pose proof (uniquePaths_after l1 l2 n p Hu Hn) as Hl2.
      rewrite List.filter_app. simpl. rewrite Hn. simpl.
      rewrite !filter_all; [done| |].
      * eapply Forall_impl; [exact Hl2|]. by intros m ->.
      * eapply Forall_impl; [exact Hl1|]. by intros m ->.
  - destruct (not_false_title _ Ht) as (t & Htitle & Hne).
    rewrite Htitle. apply String.eqb_neq in Hne as Hne'. rewrite Hne'.
    destruct (first_of_path p (nodes g))
      as [Hall|(l1 & n & l2 & Hg & Hn & Hl1)].
    + rewrite (parseContent_nodes_new cfg p content g t Htitle Hne Hall).
      unfold nodeOf. rewrite (find_none_all _ _ Hall).
      rewrite filter_all; [done|].
      eapply Forall_impl; [exact Hall|]. by intros m ->.
    + rewrite (parseContent_nodes_found cfg p content g t l1 n l2
                 Htitle Hne Hg Hn Hl1).
      unfold nodeOf. rewrite Hg, (find_first _ l1 l2 n Hl1 Hn).
      unfold uniquePaths in Hu. rewrite Hg in Hu.
      pose proof (uniquePaths_after l1 l2 n p Hu Hn) as Hl2.
      rewrite List.filter_app. simpl. rewrite Hn. simpl.
      rewrite !filter_all.
      * apply String.eqb_eq in Hn. unfold setLabel. rewrite Hn.
        rewrite <- app_assoc. apply Permutation_app_head.
        apply Permutation_cons_append.
      * eapply Forall_impl; [exact Hl2|]. by intros m ->.
      * eapply Forall_impl; [exact Hl1|]. by intros m ->.
Qed.

(** X2.  After a parse that found the title [t], the node of the path has
    that title for label and the id it had before, or the key of the path
    if the path had no node: a re-parse changes the label only.  After a
    parse that found no title, in a graph of distinct paths, the path has
    no node. *)
Theorem parseFile_node_of_the_file cfg fs filePath content g :
  fs (Path.normalize filePath) = Some content ->
  (forall t : string,
     findAsciidocTitle cfg content = Some t -> t <> ""%string ->
     nodeOf (parsed cfg fs filePath g) (Path.normalize filePath)
     = Some (mkNode (keptId g (Path.normalize filePath))
                    (Path.normalize filePath) t))
  /\ (Parsing.not_ (findAsciidocTitle cfg content) = true ->
      uniquePaths g ->
      nodeOf (parsed cfg fs filePath g) (Path.normalize filePath) = None).
Proof.
  intros Hfs. rewrite parsed_cases, Hfs.
  set (p := Path.normalize filePath). split.
  - intros t Htitle Hne. unfold nodeOf, keptId.
    destruct (first_of_path p (nodes g))
      as [Hall|(l1 & n & l2 & Hg & Hn & Hl1)].
    + rewrite (parseContent_nodes_new cfg p content g t Htitle Hne Hall).
      unfold nodeOf. rewrite (find_none_all _ _ Hall).
      apply find_first; [done|]. apply String.eqb_refl.
    + rewrite (parseContent_nodes_found cfg p content g t l1 n l2
                 Htitle Hne Hg Hn Hl1).
      unfold nodeOf. rewrite Hg, (find_first _ l1 l2 n Hl1 Hn).
      rewrite (find_first _ l1 l2 (setLabel t n) Hl1 Hn).
      apply String.eqb_eq in Hn. unfold setLabel. by rewrite Hn.
  - intros Ht Hu. unfold nodeOf. apply find_none_all.
    destruct (parseContent_nodes_no_title cfg p content g Ht)
      as [[Hall ->]|(l1 & n & l2 & Hg & Hn & Hl1 & ->)]; [done|].
    apply Forall_app. split; [done|].
    unfold uniquePaths in Hu. rewrite Hg in Hu.
    by eapply uniquePaths_after.
Qed.

(** An instance, in the example workspace: the node of "/docs/a.adoc" had
    another id and label. *)
Lemma parseFile_node_of_the_file_witness :
  Example.fs (Path.normalize "/docs/a.adoc") = Some Example.contentA
  /\ findAsciidocTitle Example.cfg Example.contentA = Some "A"%string
  /\ nodeOf (parsed Example.cfg Example.fs "/docs/a.adoc"
                    (mkGraph [mkNode "an old id" "/docs/a.adoc" "Old"] []))
            (Path.normalize "/docs/a.adoc")
     = Some (mkNode "an old id" "/docs/a.adoc" "A").
Proof.
  assert (Example.fs (Path.normalize "/docs/a.adoc") = Some Example.contentA)
    as H1 by (vm_compute; reflexivity).
  assert (findAsciidocTitle Example.cfg Example.contentA = Some "A"%string)
    as H2 by (vm_compute; reflexivity).
  split; [exact H1|]. split; [exact H2|].
  rewrite (proj1 (parseFile_node_of_the_file
                    Example.cfg Example.fs "/docs/a.adoc" Example.contentA
                    (mkGraph [mkNode "an old id" "/docs/a.adoc" "Old"] []) H1)
                 "A"%string H2); [|discriminate].
  vm_compute. reflexivity.
Defined.

End Nodes.

(** ** Two files, in either order *)

Section Order.

Import Terms.

Implicit Types (cfg : Config) (fs : FileSystem) (g : Graph).
Implicit Types (p q filePath content : string) (ns : list Node).

Lemma filter_Permutation {A} (f : A -> bool) (l l' : list A) :
  l ≡ₚ l' -> List.filter f l ≡ₚ List.filter f l'.
Proof.
  induction 1 as [|x l l' _ IH|x y l|l l' l'' _ IH1 _ IH2]; simpl.
  - done.
  - destruct (f x); [by constructor|done].
  - destruct (f x), (f y); try done. apply perm_swap.
  - by etransitivity.
Qed.

Lemma filter_comm {A} (f h : A -> bool) (l : list A) :
  List.filter f (List.filter h l) = List.filter h (List.filter f l).
Proof.
  induction l as [|x l IH]; simpl; [done|].
  destruct (f x) eqn:Hf, (h x) eqn:Hh; simpl; rewrite ?Hf, ?Hh; congruence.
Qed.

Lemma parseContent_nodeOf_other cfg p content g q :
  q <> p -> nodeOf (parseContent cfg p content g) q = nodeOf g q.
Proof.
  intros Hq.
  by rewrite !(nodeOf_otherNodes _ p q Hq), parseContent_otherNodes.
Qed.

Lemma entry_other cfg p content g q content' :
  q <> p ->
  entry cfg q content' (parseContent cfg p content g) = entry cfg q content' g.
Proof.
  intros Hq. unfold entry, keptId.
  by rewrite (parseContent_nodeOf_other cfg p content g q Hq).
Qed.

Lemma entry_path cfg p content g :
  Forall (fun n => path n = p) (entry cfg p content g).
Proof.
  unfold entry. destruct (findAsciidocTitle cfg content) as [t|]; [|done].
  destruct (String.eqb t ""); by repeat constructor.
Qed.

(** The nodes after two parses, up to their order. *)
Lemma parseContent_nodes_two cfg p1 c1 p2 c2 g :
  uniquePaths g -> p1 <> p2 ->
  nodes (parseContent cfg p1 c1 (parseContent cfg p2 c2 g))
  ≡ₚ List.filter (fun n => negb (String.eqb (path n) p1)) (otherNodes g p2)
     ++ entry cfg p2 c2 g ++ entry cfg p1 c1 g.
Proof.
  intros Hu Hne.
  rewrite parseContent_nodes_entry by by apply parseContent_uniquePaths.
  rewrite (entry_other cfg p2 c2 g p1 c1 Hne).
  rewrite app_assoc. apply Permutation_app_tail.
  unfold otherNodes at 1.
  rewrite (filter_Permutation _ _ _ (parseContent_nodes_entry cfg p2 c2 g Hu)).
  rewrite List.filter_app. apply Permutation_app_head.
  rewrite filter_all; [done|].
  eapply Forall_impl; [apply entry_path|]. intros n ->.
  apply negb_true_iff, String.eqb_neq. congruence.
Qed.

(** The edges after two parses. *)
Lemma parseContent_edges_two cfg p1 c1 p2 c2 g :
  id p1 <> id p2 ->
  edges (parseContent cfg p1 c1 (parseContent cfg p2 c2 g))
  ≡ₚ edges (parseContent cfg p2 c2 (parseContent cfg p1 c1 g)).
Proof.
  intros Hne.
  destruct (Parsing.not_ (findAsciidocTitle cfg c1)) eqn:Ht1,
           (Parsing.not_ (findAsciidocTitle cfg c2)) eqn:Ht2.
  - by rewrite !parseContent_edges_no_title.
  - rewrite (parseContent_edges_no_title cfg p1 c1 _ Ht1).
    rewrite !(parseContent_edges cfg p2 c2 _ Ht2). unfold others.
    by rewrite (parseContent_edges_no_title cfg p1 c1 _ Ht1).
  - rewrite (parseContent_edges_no_title cfg p2 c2 _ Ht2).
    rewrite !(parseContent_edges cfg p1 c1 _ Ht1). unfold others.
    by rewrite (parseContent_edges_no_title cfg p2 c2 _ Ht2).
  - rewrite (parseContent_edges cfg p1 c1 _ Ht1).
    rewrite (parseContent_edges cfg p2 c2 (parseContent cfg p1 c1 g) Ht2).
    unfold others.
    rewrite (parseContent_edges cfg p2 c2 g Ht2).
    rewrite (parseContent_edges cfg p1 c1 g Ht1).
    unfold others. rewrite !List.filter_app.
    rewrite (filter_all _ (map (referenceEdge p2) _)).
    2:{ apply List.Forall_forall. intros e (l & <- & _)%in_map_iff. simpl.
        apply negb_true_iff, String.eqb_neq. congruence. }
    rewrite (filter_all _ (map (referenceEdge p1) _)).
    2:{ apply List.Forall_forall. intros e (l & <- & _)%in_map_iff. simpl.
        apply negb_true_iff, String.eqb_neq. congruence. }
    rewrite (filter_comm _ _ (edges g)). rewrite <- !app_assoc.
    apply Permutation_app_head, Permutation_app_comm.
Qed.

(** X5.  Two files of different paths and different ids can be parsed in
    either order: in a graph of distinct paths the two orders give the same
    nodes and the same edges, up to the order of the two arrays. *)
Theorem parseFile_two_files_either_order cfg fs filePath1 filePath2 g :
  uniquePaths g ->
  Path.normalize filePath1 <> Path.normalize filePath2 ->
  id (Path.normalize filePath1) <> id (Path.normalize filePath2) ->
  nodes (parsed cfg fs filePath1 (parsed cfg fs filePath2 g))
  ≡ₚ nodes (parsed cfg fs filePath2 (parsed cfg fs filePath1 g))
  /\ edges (parsed cfg fs filePath1 (parsed cfg fs filePath2 g))
     ≡ₚ edges (parsed cfg fs filePath2 (parsed cfg fs filePath1 g)).
Proof.
  intros Hu Hp Hid. rewrite !parsed_cases.
  destruct (fs (Path.normalize filePath1)) as [c1|],
           (fs (Path.normalize filePath2)) as [c2|]; try done.
  split; [|by apply parseContent_edges_two].
  rewrite (parseContent_nodes_two cfg _ c1 _ c2 g Hu Hp).
  rewrite (parseContent_nodes_two cfg _ c2 _ c1 g Hu (not_eq_sym Hp)).
  unfold otherNodes. rewrite filter_comm.
  apply Permutation_app_head, Permutation_app_comm.
Qed.

(** An instance, in the example workspace. *)
Lemma parseFile_two_files_either_order_witness :
  uniquePaths Example.afterA
  /\ Path.normalize "/docs/b.adoc" <> Path.normalize "/docs/a.asciidoc"
  /\ id (Path.normalize "/docs/b.adoc")
     <> id (Path.normalize "/docs/a.asciidoc")
  /\ nodes (parsed Example.cfg Example.fs "/docs/b.adoc"
                   (parsed Example.cfg Example.fs "/docs/a.asciidoc"
                           Example.afterA))
     ≡ₚ nodes (parsed Example.cfg Example.fs "/docs/a.asciidoc"
                      (parsed Example.cfg Example.fs "/docs/b.adoc"
                              Example.afterA)).
Proof.
  assert (uniquePaths Example.afterA) as H1.
  { unfold uniquePaths. apply (bool_decide_unpack _). vm_compute.
    reflexivity. }
  assert (Path.normalize "/docs/b.adoc" <> Path.normalize "/docs/a.asciidoc")
    as H2 by (vm_compute; discriminate).
  assert (id (Path.normalize "/docs/b.adoc")
          <> id (Path.normalize "/docs/a.asciidoc")) as H3
    by (vm_compute; discriminate).
  split; [exact H1|]. split; [exact H2|]. split; [exact H3|].
  exact (proj1 (parseFile_two_files_either_order
                  Example.cfg Example.fs "/docs/b.adoc" "/docs/a.asciidoc"
                  Example.afterA H1 H2 H3)).
Defined.

End Order.

(** ** The runs of a scan *)

Section Runs.

Import Terms.

Implicit Types (cfg : Config) (fs : FileSystem) (g : Graph) (sc : scan).
Implicit Types (files : list string).

Lemma scanOf_start cfg fs (workspace : list string) g :
  scanOf cfg fs (eligible cfg workspace)
         (parseDirectory cfg workspace (parseFile cfg) g).
Proof.
  unfold scanOf. rewrite parseDirectory_parseFile. simpl.
  induction (eligible cfg workspace) as [|f fs' IH]; simpl; constructor;
    [by left|done].
Qed.

(** A turn settles one [parseFile] that was waiting, the way its file makes
    it settle, and applies its content to the graph if it could be read. *)
Lemma step_scanOf cfg fs files sc sc' :
  scanOf cfg fs files sc -> step fs sc sc' ->
  exists (i : nat) (file : string),
    files !! i = Some file
    /\ promises sc !! i = Some (parseFile cfg file)
    /\ promises sc' = <[i := Settled (outcome fs file)]> (promises sc)
    /\ graph sc' = match fs (Path.normalize file) with
                   | Some content =>
                       parseContent cfg (Path.normalize file) content (graph sc)
                   | None => graph sc
                   end.
Proof.
  intros Hsc [i Hres]. unfold scanOf in Hsc.
  destruct (promises sc !! i) as [t|] eqn:Hi.
  2:{ unfold resume in Hres. by rewrite Hi in Hres. }
  destruct (Forall2_lookup_l _ _ _ _ _ Hsc Hi) as (file & Hfile & [->| ->]).
  - exists i, file. rewrite (resume_parseFile cfg fs sc i file Hi) in Hres.
    injection Hres as <-. unfold outcome.
    by destruct (fs (Path.normalize file)).
  - unfold resume in Hres. by rewrite Hi in Hres.
Qed.

Lemma step_keeps_scanOf cfg fs files sc sc' :
  scanOf cfg fs files sc -> step fs sc sc' -> scanOf cfg fs files sc'.
Proof.
  intros Hsc Hstep.
  destruct (step_scanOf cfg fs files sc sc' Hsc Hstep)
    as (i & file & Hfile & Hi & Hps & _).
  unfold scanOf in *. rewrite Hps.
  rewrite <- (list_insert_id files i file Hfile).
  apply Forall2_insert; [done|by right].
Qed.

(** What every parse keeps, every run of a scan keeps. *)
Lemma run_invariant cfg fs files (P : Graph -> Prop) sc sc' :
  (forall p content g, P g -> P (parseContent cfg p content g)) ->
  rtc (step fs) sc sc' ->
  scanOf cfg fs files sc -> P (graph sc) ->
  scanOf cfg fs files sc' /\ P (graph sc').
Proof.
  intros HP Hrun. induction Hrun as [sc|sc sc1 sc' Hstep _ IH]; [done|].
  intros Hsc Hg. apply IH.
  - by eapply step_keeps_scanOf.
  - destruct (step_scanOf cfg fs files sc sc1 Hsc Hstep)
      as (i & file & _ & _ & _ & ->).
    destruct (fs (Path.normalize file)); [by apply HP|done].
Qed.

Lemma parseContent_wellKeyed cfg p content g :
  wellKeyed g -> wellKeyed (parseContent cfg p content g).
Proof.
  unfold wellKeyed. intros Hw.
  destruct (Parsing.not_ (findAsciidocTitle cfg content)) eqn:Ht.
  - destruct (parseContent_nodes_no_title cfg p content g Ht)
      as [[_ ->]|(l1 & n & l2 & Hg & _ & _ & ->)]; [done|].
    rewrite Hg in Hw. apply Forall_app in Hw as [H1 H2].
    apply Forall_cons in H2 as [_ H2]. by apply Forall_app.
  - destruct (not_false_title _ Ht) as (t & Htitle & Hne).
    destruct (first_of_path p (nodes g))
      as [Hall|(l1 & n & l2 & Hg & Hn & Hl1)].
    + rewrite (parseContent_nodes_new cfg p content g t Htitle Hne Hall).
      apply Forall_app. split; [done|]. by repeat constructor.
    + rewrite (parseContent_nodes_found cfg p content g t l1 n l2
                 Htitle Hne Hg Hn Hl1).
      rewrite Hg in Hw. apply Forall_app in Hw as [H1 H2].
      apply Forall_cons in H2 as [Hn' H2]. apply Forall_app.
      split; [done|]. by constructor.
Qed.

(** X3.  A scan keeps the paths of the nodes distinct: if no two nodes of
    the graph have the same path when [parseDirectory] starts, none have
    after any number of turns of the event loop, in whatever order the
    reads complete. *)
Theorem scan_keeps_paths_distinct cfg fs (workspace : list string) g sc :
  uniquePaths g ->
  rtc (step fs) (parseDirectory cfg workspace (parseFile cfg) g) sc ->
  uniquePaths (graph sc).
Proof.
  intros Hu Hrun.
  apply (run_invariant cfg fs (eligible cfg workspace) uniquePaths _ _
           (parseContent_uniquePaths cfg) Hrun).
  - apply scanOf_start.
  - by rewrite parseDirectory_parseFile.
Qed.

(** An instance: the scan of the example workspace, after the read of
    "/docs/a.adoc" has completed. *)
Lemma scan_keeps_paths_distinct_witness :
  uniquePaths Example.empty
  /\ exists sc,
      resume Example.fs 1 Example.scanning = Some sc
      /\ rtc (step Example.fs) Example.scanning sc
      /\ uniquePaths (graph sc).
Proof.
  assert (uniquePaths Example.empty) as H by constructor.
  split; [exact H|]. eexists. split; [reflexivity|].
  assert (rtc (step Example.fs) Example.scanning
              (mkScan (parseContent Example.cfg (Path.normalize "/docs/a.adoc")
                                    Example.contentA Example.empty)
                      (<[1%nat := Settled Fulfilled]>
                         (promises Example.scanning)))) as Hrun.
  { apply rtc_once. exists 1%nat. reflexivity. }
  split; [exact Hrun|].
  exact (scan_keeps_paths_distinct Example.cfg Example.fs Example.workspace
                                   Example.empty _ H Hrun).
Defined.

(** X4.  A scan keeps the nodes keyed by their paths: if every node has
    the id of its path when [parseDirectory] starts, every node has after
    any number of turns. *)
Theorem scan_keeps_nodes_keyed cfg fs (workspace : list string) g sc :
  wellKeyed g ->
  rtc (step fs) (parseDirectory cfg workspace (parseFile cfg) g) sc ->
  wellKeyed (graph sc).
Proof.
  intros Hw Hrun.
  apply (run_invariant cfg fs (eligible cfg workspace) wellKeyed _ _
           (parseContent_wellKeyed cfg) Hrun).
  - apply scanOf_start.
  - by rewrite parseDirectory_parseFile.
Qed.

(** An instance: the same turn of the same scan. *)
Lemma scan_keeps_nodes_keyed_witness :
  wellKeyed Example.empty
  /\ exists sc,
      resume Example.fs 1 Example.scanning = Some sc
      /\ rtc (step Example.fs) Example.scanning sc
      /\ wellKeyed (graph sc).
Proof.
  assert (wellKeyed Example.empty) as H by constructor.
  split; [exact H|]. eexists. split; [reflexivity|].
  assert (rtc (step Example.fs) Example.scanning
              (mkScan (parseContent Example.cfg (Path.normalize "/docs/a.adoc")
                                    Example.contentA Example.empty)
                      (<[1%nat := Settled Fulfilled]>
                         (promises Example.scanning)))) as Hrun.
  { apply rtc_once. exists 1%nat. reflexivity. }
  split; [exact Hrun|].
  exact (scan_keeps_nodes_keyed Example.cfg Example.fs Example.workspace
                                Example.empty _ H Hrun).
Defined.

(** Settling a promise that was waiting makes one more settled. *)
Lemma settled_insert (ps : list task) (i : nat) (t : task) (r : settled) :
  ps !! i = Some t -> stateOf t = Pending ->
  settledCount (mkScan Example.empty (<[i := Settled r]> ps))
  = S (settledCount (mkScan Example.empty ps)).
Proof.
  unfold settledCount. simpl. revert i.
  induction ps as [|x ps IH]; intros i Hi Ht; [done|].
  destruct i as [|i]; simpl in *.
  - injection Hi as ->. by rewrite Ht.
  - destruct (stateOf x); simpl; by rewrite (IH i Hi Ht).
Qed.

Lemma settledCount_promises sc g :
  settledCount sc = settledCount (mkScan g (promises sc)).
Proof. done. Qed.

Lemma step_settles_one cfg fs files sc sc' :
  scanOf cfg fs files sc -> step fs sc sc' ->
  settledCount sc' = S (settledCount sc).
Proof.
  intros Hsc Hstep.
  destruct (step_scanOf cfg fs files sc sc' Hsc Hstep)
    as (i & file & _ & Hi & Hps & _).
  rewrite (settledCount_promises sc' Example.empty), Hps.
  by rewrite (settled_insert _ i (parseFile cfg file)).
Qed.

Lemma settledCount_le sc : (settledCount sc <= List.length (promises sc))%nat.
Proof. unfold settledCount. apply List.filter_length_le. Qed.

(** A scan is at rest exactly when every promise has settled. *)
Lemma quiescent_all_settled cfg fs files sc :
  scanOf cfg fs files sc ->
  quiescent fs sc <-> Forall hasSettled (promises sc).
Proof.
  intros Hsc. split.
  - intros Hq. apply List.Forall_forall. intros t Hin Hp.
    apply list_elem_of_In, list_elem_of_lookup in Hin as [i Hi].
    destruct (Forall2_lookup_l _ _ _ _ _ Hsc Hi) as (file & _ & [->| ->]);
      [|done].
    apply (Hq (mkScan (match fs (Path.normalize file) with
                       | Some content =>
                           parseContent cfg (Path.normalize file) content
                                        (graph sc)
                       | None => graph sc
                       end)
                      (<[i := Settled (outcome fs file)]> (promises sc)))).
    exists i. rewrite (resume_parseFile cfg fs sc i file Hi). unfold outcome.
    by destruct (fs (Path.normalize file)).
  - intros Hall sc' [i Hres]. unfold resume in Hres.
    destruct (promises sc !! i) as [t|] eqn:Hi; [|done].
    apply list_elem_of_lookup_2, list_elem_of_In in Hi.
    pose proof (proj1 (List.Forall_forall _ _) Hall t Hi) as Ht.
    by destruct t.
Qed.

Lemma all_settled_count (ps : list task) g :
  Forall hasSettled ps <-> settledCount (mkScan g ps) = List.length ps.
Proof.
  unfold settledCount. simpl. induction ps as [|t ps IH]; simpl.
  - split; [done|constructor].
  - pose proof (List.filter_length_le
                  (fun t => match stateOf t with
                            | Pending => false | _ => true end) ps) as Hle.
    destruct (stateOf t) eqn:Ht; simpl.
    + split; [|lia]. intros [Hbad _]%Forall_cons. by destruct Hbad.
    + rewrite Forall_cons, IH. unfold hasSettled. rewrite Ht.
      split; [intros [_ ?]; lia|]. intros [= ?]. by split.
Qed.

(** X6.  A scan of n eligible files takes n turns of the event loop, one
    per file: after k turns exactly k promises have settled, so no run is
    longer than n, and the scan is at rest exactly after n turns. *)
Theorem scan_takes_one_turn_per_file cfg fs (workspace : list string) g
    (k : nat) sc :
  nsteps (step fs) k (parseDirectory cfg workspace (parseFile cfg) g) sc ->
  settledCount sc = k
  /\ (k <= List.length (eligible cfg workspace))%nat
  /\ (quiescent fs sc <-> k = List.length (eligible cfg workspace)).
Proof.
  intros Hrun.
  assert (scanOf cfg fs (eligible cfg workspace) sc
          /\ settledCount sc = k) as [Hsc Hk].
  { assert (settledCount (parseDirectory cfg workspace (parseFile cfg) g) = 0%nat)
      as Hc0.
    { rewrite parseDirectory_parseFile. unfold settledCount. simpl.
      induction (eligible cfg workspace) as [|f fs' IHf]; [done|]. simpl. exact IHf. }
    pose proof (scanOf_start cfg fs workspace g) as H0.
    revert Hrun H0 Hc0. generalize (parseDirectory cfg workspace (parseFile cfg) g).
    intros sc0 Hrun H0 Hc0. replace k with (settledCount sc0 + k)%nat by lia.
    clear Hc0. induction Hrun as [sc|n sc sc1 sc' Hstep _ IH]; [split; [done|lia]|].
    destruct (IH (step_keeps_scanOf _ _ _ _ _ H0 Hstep)) as [? ?].
    split; [done|]. rewrite (step_settles_one _ _ _ _ _ H0 Hstep) in *. lia. }
  assert (List.length (promises sc) = List.length (eligible cfg workspace))
    as Hlen by by eapply Forall2_length.
  split; [done|]. split.
  - rewrite <- Hk, <- Hlen. apply settledCount_le.
  - rewrite (quiescent_all_settled _ _ _ _ Hsc).
    rewrite (all_settled_count _ (graph sc)), <- Hlen, <- Hk.
    by destruct sc.
Qed.

(** An instance: one turn of the scan of the example workspace, which has
    two eligible files. *)
Lemma scan_takes_one_turn_per_file_witness :
  exists sc,
    resume Example.fs 1 Example.scanning = Some sc
    /\ settledCount sc = 1%nat
    /\ (1 <= List.length (eligible Example.cfg Example.workspace))%nat
    /\ (quiescent Example.fs sc
        <-> 1%nat = List.length (eligible Example.cfg Example.workspace)).
Proof.
  eexists. split; [reflexivity|].
  apply (scan_takes_one_turn_per_file Example.cfg Example.fs
                                      Example.workspace Example.empty 1).
  apply nsteps_once. exists 1%nat. reflexivity.
Defined.

Lemma at_rest_promises cfg fs files sc :
  scanOf cfg fs files sc -> Forall hasSettled (promises sc) ->
  promises sc = map (fun file => Settled (outcome fs file)) files.
Proof.
  unfold scanOf. generalize (promises sc). intros ps H.
  induction H as [|t file ps files Ht _ IH]; [done|].
  intros [Hs Hall]%Forall_cons. simpl. rewrite (IH Hall).
  destruct Ht as [->| ->]; [by destruct Hs|done].
Qed.

Lemma promiseAll_outcomes (fs : FileSystem) (files : list string) :
  (promiseAll (map (fun file => Settled (outcome fs file)) files)
   = Done Fulfilled
   <-> forall file, In file files -> fs (Path.normalize file) <> None)
  /\ (promiseAll (map (fun file => Settled (outcome fs file)) files)
      = Done Rejected
      <-> exists file, In file files /\ fs (Path.normalize file) = None).
Proof.
  rewrite promiseAll_fulfilled, promiseAll_rejected.
  rewrite Forall_map, Exists_map, List.Forall_forall, List.Exists_exists.
  unfold outcome. split.
  - split; intros H file Hin; specialize (H file Hin); simpl in *;
      by destruct (fs (Path.normalize file)).
  - split; intros (file & Hin & H); exists file; (split; [done|]);
      simpl in *; by destruct (fs (Path.normalize file)).
Qed.

(** X7.  Once every read of a scan has completed, the promise of
    [parseDirectory] is fulfilled exactly when every eligible file could
    be read, and rejected exactly when one of them could not; in which
    order the reads completed does not matter to it. *)
Theorem scan_outcome cfg fs (workspace : list string) g sc :
  rtc (step fs) (parseDirectory cfg workspace (parseFile cfg) g) sc ->
  quiescent fs sc ->
  (scanState sc = Done Fulfilled
   <-> forall file, In file (eligible cfg workspace) ->
                    fs (Path.normalize file) <> None)
  /\ (scanState sc = Done Rejected
      <-> exists file, In file (eligible cfg workspace)
                       /\ fs (Path.normalize file) = None).
Proof.
  intros Hrun Hq.
  destruct (run_invariant cfg fs (eligible cfg workspace) (fun _ => True)
                          _ sc (fun _ _ _ _ => I) Hrun
                          (scanOf_start cfg fs workspace g) I) as [Hsc _].
  apply (quiescent_all_settled _ _ _ _ Hsc) in Hq.
  unfold scanState. rewrite (at_rest_promises _ _ _ _ Hsc Hq).
  apply promiseAll_outcomes.
Qed.

(** An instance: the scan of the example workspace once both reads have
    completed, the one of "/docs/a.adoc" first.  "/docs/gone.adoc" cannot
    be read. *)
Lemma scan_outcome_witness :
  exists sc,
    promises sc = [Settled Rejected; Settled Fulfilled]
    /\ rtc (step Example.fs) Example.scanning sc
    /\ quiescent Example.fs sc
    /\ (scanState sc = Done Fulfilled
        <-> forall file, In file (eligible Example.cfg Example.workspace) ->
                         Example.fs (Path.normalize file) <> None)
    /\ (scanState sc = Done Rejected
        <-> exists file, In file (eligible Example.cfg Example.workspace)
                         /\ Example.fs (Path.normalize file) = None).
Proof.
  exists (mkScan Example.afterA [Settled Rejected; Settled Fulfilled]).
  assert (rtc (step Example.fs) Example.scanning
              (mkScan Example.afterA [Settled Rejected; Settled Fulfilled]))
    as Hrun.
  { eapply rtc_l; [exists 1%nat; reflexivity|].
    apply rtc_once. exists 0%nat. reflexivity. }
  assert (quiescent Example.fs
            (mkScan Example.afterA [Settled Rejected; Settled Fulfilled]))
    as Hq.
  { intros sc' [i Hres]. by destruct i as [|[|i]]. }
  split; [reflexivity|]. split; [exact Hrun|]. split; [exact Hq|].
  exact (scan_outcome Example.cfg Example.fs Example.workspace Example.empty
                      _ Hrun Hq).
Defined.

End Runs.

Section Segments.

Implicit Types (l a b cur : list ascii) (c sep : ascii).

(** Without the separator there is one segment. *)
Lemma splitL_plain sep cur l :
  ~ In sep l -> Js.splitL sep cur l = [rev cur ++ l].
Proof.
  revert cur. induction l as [|c l IH]; intros cur Hn; simpl.
  - by rewrite app_nil_r.
  - destruct (Ascii.eqb_spec c sep) as [->|Hne]; [destruct Hn; by left|].
    rewrite IH by (intros ?; apply Hn; by right). simpl.
    by rewrite <- app_assoc.
Qed.

(** The segment after the last separator comes last. *)
Lemma splitL_last sep cur a b :
  ~ In sep b -> Js.splitL sep cur (a ++ sep :: b) = Js.splitL sep cur a ++ [b].
Proof.
  intros Hn. revert cur. induction a as [|c a IH]; intros cur; simpl.
  - rewrite Ascii.eqb_refl. by rewrite (splitL_plain sep [] b Hn).
  - destruct (Ascii.eqb c sep); simpl; by rewrite IH.
Qed.

Lemma join_cons (sep z : string) (ys : list string) :
  ys <> [] -> Js.join sep (z :: ys) = (z ++ sep ++ Js.join sep ys)%string.
Proof. by destruct ys. Qed.

(** Joining the segments with the separator gives the text back. *)
Lemma join_splitL sep cur l :
  Js.chars (Js.join (String sep "") (map Js.str (Js.splitL sep cur l)))
  = rev cur ++ l.
Proof.
  revert cur. induction l as [|c l IH]; intros cur; cbn [Js.splitL].
  - simpl. by rewrite chars_str, app_nil_r.
  - destruct (Ascii.eqb_spec c sep) as [->|Hne].
    + cbn [map]. rewrite join_cons
        by (intros H%fmap_nil_inv; by apply splitL_nonempty in H).
      rewrite !chars_app, chars_str, (IH []). done.
    + rewrite IH. simpl. by rewrite <- app_assoc.
Qed.

Lemma join_split (s : string) sep :
  Js.join (String sep "") (Js.split s sep) = s.
Proof.
  unfold Js.split. rewrite <- (str_chars (Js.join _ _)), join_splitL. simpl.
  apply str_chars.
Qed.

(** All segments but the last, joined: the text before the last separator,
    and nothing when there is no separator. *)
Lemma init_segments sep a b :
  ~ In sep b ->
  Js.join (String sep "")
          (Js.sliceInit (Js.split (Js.str (a ++ sep :: b)) sep))
  = Js.str a.
Proof.
  intros Hn. unfold Js.split, Js.sliceInit.
  rewrite chars_str, splitL_last, map_app by done. simpl.
  rewrite removelast_last. rewrite <- (str_chars (Js.join _ _)), join_splitL.
  done.
Qed.

Lemma init_segments_plain sep l :
  ~ In sep l ->
  Js.join (String sep "") (Js.sliceInit (Js.split (Js.str l) sep)) = ""%string.
Proof.
  intros Hn. unfold Js.split, Js.sliceInit.
  by rewrite chars_str, splitL_plain.
Qed.

End Segments.

Section Names.

Import Path.

Implicit Types (l dir name : list ascii) (x : ascii).

Local Open Scope Z_scope.

(** Inside the name the loop of [basename] only moves on. *)
Lemma baseLoop_name name (rest : list ascii) (i : Z) (st : baseState) :
  ~ In sep name -> bEnd st <> -1 ->
  baseLoop (name ++ rest) i st = baseLoop rest (i - len name) st.
Proof.
  revert i. induction name as [|c name IH]; intros i Hn He; simpl.
  - f_equal. unfold len. simpl. lia.
  - unfold isSep. destruct (Ascii.eqb_spec c sep) as [->|_];
      [destruct Hn; by left|].
    destruct (Z.eqb_spec (bEnd st) (-1)) as [?|_]; [done|].
    rewrite IH by (try done; intros ?; apply Hn; by right).
    f_equal. unfold len. simpl. lia.
Qed.

Lemma slice_tail (l name : list ascii) :
  slice (l ++ name) (len l) (len (l ++ name)) = name.
Proof.
  unfold slice, len. rewrite length_app, Nat2Z.id.
  rewrite drop_app_length.
  replace (Z.to_nat _) with (List.length name) by lia.
  apply firstn_all.
Qed.

Lemma baseLoop_first x (rest : list ascii) (i : Z) :
  x <> sep ->
  baseLoop (x :: rest) i (BaseState 0 (-1) true)
  = baseLoop rest (i - 1) (BaseState 0 (i + 1) false).
Proof.
  intros Hx. simpl. unfold isSep.
  by destruct (Ascii.eqb_spec x sep) as [?|_].
Qed.

Lemma baseLoop_break (rest : list ascii) (i b e : Z) :
  baseLoop (sep :: rest) i (BaseState b e false) = BaseState (i + 1) e false.
Proof. reflexivity. Qed.

(** The base name of a path that ends in a file name: the characters after
    the last "/". *)
Lemma basenameL_file dir name x :
  ~ In sep (name ++ [x]) ->
  basenameL (dir ++ sep :: name ++ [x]) = name ++ [x].
Proof.
  intros Hn. unfold basenameL.
  assert (x <> sep) as Hx.
  { intros ->. apply Hn, in_app_iff. right. by left. }
  assert (~ In sep (rev name)) as Hname.
  { intros Hin%in_rev. apply Hn, in_app_iff. by left. }
  assert (rev (dir ++ sep :: name ++ [x]) = x :: rev name ++ sep :: rev dir)
    as ->.
  { rewrite rev_app_distr. simpl. rewrite rev_app_distr. simpl.
    by rewrite <- app_assoc. }
  rewrite baseLoop_first, baseLoop_name, baseLoop_break;
    [|done|cbn [bEnd]; unfold len; lia|done].
  cbn [bEnd bStart].
  destruct (Z.eqb_spec (len (dir ++ sep :: name ++ [x]) - 1 + 1) (-1))
    as [Hbad|_]; [unfold len in Hbad; lia|].
  replace (len (dir ++ sep :: name ++ [x]) - 1 - 1 - len (rev name) + 1)
    with (len (dir ++ [sep])).
  2:{ unfold len. rewrite !length_app, length_rev. simpl.
      rewrite !length_app. simpl. lia. }
  replace (len (dir ++ sep :: name ++ [x]) - 1 + 1)
    with (len ((dir ++ [sep]) ++ name ++ [x])).
  2:{ unfold len. rewrite !length_app. simpl. rewrite !length_app. simpl.
      lia. }
  replace (dir ++ sep :: name ++ [x]) with ((dir ++ [sep]) ++ name ++ [x])
    by by rewrite <- app_assoc.
  apply slice_tail.
Qed.

(** A name without "/" is its own base name. *)
Lemma basenameL_plain name :
  ~ In sep name -> basenameL name = name.
Proof.
  intros Hn. unfold basenameL.
  destruct (rev name) as [|x rname] eqn:Hrev.
  - apply (f_equal (@rev _)) in Hrev. rewrite rev_involutive in Hrev.
    by subst name.
  - assert (name = rev rname ++ [x]) as Hname.
    { apply (f_equal (@rev _)) in Hrev. by rewrite rev_involutive in Hrev. }
    assert (x <> sep) as Hx.
    { intros ->. apply Hn. rewrite Hname. apply in_app_iff. right. by left. }
    rewrite baseLoop_first by done.
    rewrite <- (app_nil_r rname), baseLoop_name.
    + cbn [baseLoop bEnd bStart].
      destruct (Z.eqb_spec (len name - 1 + 1) (-1))
        as [Hbad|_]; [unfold len in Hbad; lia|].
      replace (len name - 1 + 1) with (len ([] ++ name)) by (simpl; lia).
      apply (slice_tail [] name).
    + intros Hin. apply Hn. rewrite Hname. apply in_app_iff. left.
      by apply in_rev in Hin.
    + simpl. unfold len. lia.
Qed.

End Names.

Section Resolving.

Import Resolver Terms.

(** X8.  A path that ends in a file name is its parent directory, "/" and
    its base name: [parentDirectoryOf] gives what stands before the last
    "/" and [basename] what stands after it.  A path without "/" has the
    empty parent directory and is its own base name. *)
Theorem path_is_parent_and_basename (dir name : string) :
  name <> ""%string ->
  ~ In Path.sep (Js.chars name) ->
  (parentDirectoryOf (dir ++ "/" ++ name) = dir
   /\ Path.basename (dir ++ "/" ++ name) = name)
  /\ parentDirectoryOf name = ""%string
  /\ Path.basename name = name.
Proof.
  intros Hne Hn.
  destruct (rev (Js.chars name)) as [|x rname] eqn:Hrev.
  { apply (f_equal (@rev _)) in Hrev. rewrite rev_involutive in Hrev.
    destruct name; [done|discriminate]. }
  assert (Js.chars name = rev rname ++ [x]) as Hname.
  { apply (f_equal (@rev _)) in Hrev. by rewrite rev_involutive in Hrev. }
  assert ((dir ++ "/" ++ name)%string
          = Js.str (Js.chars dir ++ Path.sep :: Js.chars name)) as Hpath.
  { rewrite <- (str_chars (dir ++ "/" ++ name)), !chars_app. done. }
  split; [split|split].
  - unfold parentDirectoryOf. rewrite Hpath.
    rewrite (init_segments Path.sep) by done. apply str_chars.
  - unfold Path.basename. rewrite Hpath, chars_str, Hname.
    rewrite basenameL_file by by rewrite <- Hname.
    rewrite <- Hname. apply str_chars.
  - unfold parentDirectoryOf. rewrite <- (str_chars name).
    by apply (init_segments_plain Path.sep).
  - unfold Path.basename. rewrite basenameL_plain by done. apply str_chars.
Qed.

(** An instance: "/docs/a.adoc". *)
Lemma path_is_parent_and_basename_witness :
  (parentDirectoryOf "/docs/a.adoc" = "/docs"%string
   /\ Path.basename "/docs/a.adoc" = "a.adoc"%string)
  /\ parentDirectoryOf "a.adoc" = ""%string
  /\ Path.basename "a.adoc" = "a.adoc"%string.
Proof.
  apply (path_is_parent_and_basename "/docs" "a.adoc").
  - discriminate.
  - vm_compute. intuition discriminate.
Defined.

Lemma get_set (t : table) (key value : string) :
  key <> "__proto__"%string -> get (set t key value) key = Some (Stored value).
Proof.
  intros Hk. unfold get, set.
  destruct (String.eqb_spec key "__proto__") as [?|_]; [done|].
  by rewrite lookup_insert_eq.
Qed.

Lemma get_set_ne (t : table) (key key' value : string) :
  key' <> key -> get (set t key value) key' = get t key'.
Proof.
  intros Hk. unfold get, set.
  destruct (String.eqb key "__proto__"); [done|].
  by rewrite lookup_insert_ne.
Qed.

(** Writing the same path under a second name keeps the first. *)
Lemma get_set_set (t : table) (key1 key2 value : string) :
  key1 <> "__proto__"%string ->
  get (set (set t key1 value) key2 value) key1 = Some (Stored value).
Proof.
  intros Hk. destruct (decide (key1 = key2)) as [<-|Hne].
  - by apply get_set.
  - rewrite get_set_ne by done. by apply get_set.
Qed.

Lemma withoutExt_dot (stem ext : string) :
  ~ In Path.dot (Js.chars ext) ->
  withoutExt (stem ++ "." ++ ext) = stem.
Proof.
  intros Hn. unfold withoutExt.
  assert ((stem ++ "." ++ ext)%string
          = Js.str (Js.chars stem ++ Path.dot :: Js.chars ext)) as ->.
  { rewrite <- (str_chars (stem ++ "." ++ ext)), !chars_app. done. }
  rewrite (init_segments Path.dot) by done. apply str_chars.
Qed.

Lemma withoutExt_plain (fileName : string) :
  ~ In Path.dot (Js.chars fileName) -> withoutExt fileName = ""%string.
Proof.
  intros Hn. unfold withoutExt. rewrite <- (str_chars fileName).
  by apply (init_segments_plain Path.dot).
Qed.

(** X9.  After [learnFileId] a file is found under its name and under its
    name without the last extension, and what the other names resolve to
    is as before.  (Nothing can be stored under "__proto__".) *)
Theorem learnFileId_then_idResolver (idToPath : table)
    (filePath stem ext : string) :
  Path.basename filePath = (stem ++ "." ++ ext)%string ->
  ~ In Path.dot (Js.chars ext) ->
  stem <> "__proto__"%string ->
  idResolver (learnFileId idToPath filePath) (stem ++ "." ++ ext)
  = Some (Stored filePath)
  /\ idResolver (learnFileId idToPath filePath) stem = Some (Stored filePath)
  /\ forall targetId : string,
       targetId <> (stem ++ "." ++ ext)%string -> targetId <> stem ->
       idResolver (learnFileId idToPath filePath) targetId
       = idResolver idToPath targetId.
Proof.
  intros Hbase Hext Hstem. unfold idResolver, learnFileId.
  rewrite Hbase, withoutExt_dot by done.
  assert ((stem ++ "." ++ ext)%string <> "__proto__"%string) as Hname.
  { intros Heq. apply (f_equal Js.chars) in Heq. rewrite !chars_app in Heq.
    assert (In Path.dot (Js.chars "__proto__")) as Hin.
    { rewrite <- Heq. apply in_app_iff. right. by left. }
    vm_compute in Hin. intuition discriminate. }
  split; [by apply get_set_set|]. split; [by apply get_set|].
  intros targetId H1 H2. by rewrite !get_set_ne.
Qed.

(** An instance: "/docs/a.adoc" is found under "a.adoc" and under "a". *)
Lemma learnFileId_then_idResolver_witness :
  idResolver (learnFileId ∅ "/docs/a.adoc") "a.adoc"
  = Some (Stored "/docs/a.adoc")
  /\ idResolver (learnFileId ∅ "/docs/a.adoc") "a"
     = Some (Stored "/docs/a.adoc")
  /\ forall targetId : string,
       targetId <> "a.adoc"%string -> targetId <> "a"%string ->
       idResolver (learnFileId ∅ "/docs/a.adoc") targetId
       = idResolver ∅ targetId.
Proof.
  apply (learnFileId_then_idResolver ∅ "/docs/a.adoc" "a" "adoc").
  - reflexivity.
  - vm_compute. intuition discriminate.
  - discriminate.
Defined.

(** X10.  A file whose name has no dot is stored under the empty name as
    well: "README" makes [idResolver("")] answer with its path, until the
    next such file takes the place. *)
Theorem learnFileId_name_without_dot (idToPath : table) (filePath : string) :
  ~ In Path.dot (Js.chars (Path.basename filePath)) ->
  idResolver (learnFileId idToPath filePath) "" = Some (Stored filePath)
  /\ (Path.basename filePath <> "__proto__"%string ->
      idResolver (learnFileId idToPath filePath) (Path.basename filePath)
      = Some (Stored filePath))
  /\ forall targetId : string,
       targetId <> Path.basename filePath -> targetId <> ""%string ->
       idResolver (learnFileId idToPath filePath) targetId
       = idResolver idToPath targetId.
Proof.
  intros Hn. unfold idResolver, learnFileId. rewrite withoutExt_plain by done.
  split; [by apply get_set|]. split.
  - intros Hname. by apply get_set_set.
  - intros targetId H1 H2. by rewrite !get_set_ne.
Qed.

(** An instance: "/docs/README". *)
Lemma learnFileId_name_without_dot_witness :
  idResolver (learnFileId ∅ "/docs/README") "" = Some (Stored "/docs/README")
  /\ (Path.basename "/docs/README" <> "__proto__"%string ->
      idResolver (learnFileId ∅ "/docs/README") (Path.basename "/docs/README")
      = Some (Stored "/docs/README"))
  /\ forall targetId : string,
       targetId <> Path.basename "/docs/README" -> targetId <> ""%string ->
       idResolver (learnFileId ∅ "/docs/README") targetId
       = idResolver ∅ targetId.
Proof.
  apply (learnFileId_name_without_dot ∅ "/docs/README").
  vm_compute. intuition discriminate.
Defined.

Lemma learnFileId_other (idToPath : table) (filePath name : string) :
  ~ In name (names filePath) ->
  idResolver (learnFileId idToPath filePath) name = idResolver idToPath name.
Proof.
  intros Hn. unfold idResolver, learnFileId. rewrite !get_set_ne; [done|..];
    intros ->; apply Hn; unfold names; simpl; auto.
Qed.

Lemma learnFileId_others (idToPath : table) (files : list string)
    (name : string) :
  Forall (fun q => ~ In name (names q)) files ->
  idResolver (fold_left learnFileId files idToPath) name
  = idResolver idToPath name.
Proof.
  revert idToPath. induction files as [|q files IH]; intros t Hall; [done|].
  apply Forall_cons in Hall as [Hq Hall]. simpl.
  rewrite IH by done. by apply learnFileId_other.
Qed.

(** X11.  Over a run of calls the last one wins: a name resolves to the
    file learnt last among those that have it for name or for name without
    extension, whatever was learnt before. *)
Theorem learnFileId_last_wins (idToPath : table)
    (before after : list string) (filePath name : string) :
  In name (names filePath) ->
  name <> "__proto__"%string ->
  Forall (fun q => ~ In name (names q)) after ->
  idResolver (fold_left learnFileId (before ++ filePath :: after) idToPath)
             name
  = Some (Stored filePath).
Proof.
  intros Hin Hname Hpost.
  rewrite fold_left_app. simpl. rewrite learnFileId_others by done.
  unfold idResolver, learnFileId.
  destruct Hin as [<-|[<-|[]]].
  - by apply get_set_set.
  - by apply get_set.
Qed.

(** An instance: two files "a.adoc" in two directories, then "b.adoc". *)
Lemma learnFileId_last_wins_witness :
  idResolver (fold_left learnFileId
                        (["/x/a.adoc"] ++ "/y/a.adoc" :: ["/y/b.adoc"]) ∅)
             "a"
  = Some (Stored "/y/a.adoc").
Proof.
  apply (learnFileId_last_wins ∅ ["/x/a.adoc"] ["/y/b.adoc"] "/y/a.adoc" "a").
  - vm_compute. auto.
  - discriminate.
  - repeat constructor. vm_compute. intuition discriminate.
Defined.

End Resolving.

Section Matches.

Import Regex Matching.

Implicit Types (r : re) (p q : pos) (k : pos -> option pos).

Lemma rounds_matches (m : (pos -> option pos) -> pos -> option pos)
    (R : pos -> pos -> Prop) k (n : nat) p q :
  (forall k p q, m k p = Some q -> exists p', R p p' /\ k p' = Some q) ->
  rounds m k n p = Some q ->
  exists p', rtc R p p' /\ k p' = Some q.
Proof.
  intros Hm. revert p. induction n as [|n IH]; intros p; simpl.
  - intros Hk. by exists p.
  - destruct (m _ p) as [q'|] eqn:Hround.
    + intros [= ->]. apply Hm in Hround as (p1 & HR & Hk).
      destruct (_ <? _)%nat; [|done].
      apply IH in Hk as (p' & Hrtc & Hk). exists p'. split; [|done].
      by eapply rtc_l.
    + intros Hk. by exists p.
Qed.

(** Every result of the matcher is a match of the pattern, followed by a
    result of the continuation. *)
Lemma run_matches r k p q :
  run r k p = Some q -> exists p', matches r p p' /\ k p' = Some q.
Proof.
  revert k p q.
  induction r as [|c| |cs|r1 IH1 r2 IH2|r1 IH|r1 IH|r1 IH|n r1 IH| | | |];
    intros k p q; simpl.
  - intros Hk. by exists p.
  - destruct (after p) as [|a rest] eqn:Ha; [done|].
    destruct (Ascii.eqb_spec a c) as [->|_]; [|done].
    intros Hk. eexists. split; [|done]. by exists rest.
  - destruct (after p) as [|a rest] eqn:Ha; [done|].
    destruct (Js.isLineTerminator a) eqn:Hlt; [done|].
    intros Hk. eexists. split; [|done]. by exists a, rest.
  - destruct (after p) as [|a rest] eqn:Ha; [done|].
    destruct (inb a cs) eqn:Hin; [done|].
    intros Hk. eexists. split; [|done]. by exists a, rest.
  - intros (p1 & H1 & (p2 & H2 & Hk)%IH2)%IH1. exists p2. split; [|done].
    by exists p1.
  - intros H. apply (rounds_matches _ (matches r1)) in H; [done|].
    intros k' p0 q0. apply IH.
  - intros (p1 & H1 & H)%IH.
    apply (rounds_matches _ (matches r1)) in H as (p' & Hrtc & Hk);
      [|intros k' p0 q0; apply IH].
    exists p'. split; [|done]. by exists p1.
  - destruct (run r1 k p) as [q'|] eqn:Hrun.
    + intros [= ->]. apply IH in Hrun as (p' & H & Hk). exists p'.
      split; [by left|done].
    + intros Hk. exists p. split; [by right|done].
  - intros (p1 & H1 & Hk)%IH. exists (captured n p p1). split; [|exact Hk].
    by exists p1.
  - destruct (lineEdge (before p)) eqn:He; [|done]. intros Hk. by exists p.
  - destruct (lineEdge (after p)) eqn:He; [|done]. intros Hk. by exists p.
  - destruct (xorb _ _) eqn:He; [|done]. intros Hk. by exists p.
  - destruct (wordAt (before p)) eqn:He; [done|]. intros Hk. by exists p.
Qed.

Lemma extends_refl p : extends p p.
Proof. by exists []. Qed.

Lemma extends_trans p1 p2 p3 : extends p1 p2 -> extends p2 p3 -> extends p1 p3.
Proof.
  intros (w1 & Ha1 & Hb1) (w2 & Ha2 & Hb2). exists (w1 ++ w2).
  rewrite Ha1, Ha2, Hb2, Hb1, rev_app_distr, <- !app_assoc. done.
Qed.

Lemma extends_advance (a : ascii) p (rest : list ascii) :
  after p = a :: rest -> extends p (advance a p rest).
Proof. intros Ha. exists [a]. by rewrite Ha. Qed.

Lemma matches_extends r p p' : matches r p p' -> extends p p'.
Proof.
  revert p p'.
  induction r as [|c| |cs|r1 IH1 r2 IH2|r1 IH|r1 IH|r1 IH|n r1 IH| | | |];
    intros p p'; simpl.
  - intros ->. apply extends_refl.
  - intros (rest & Ha & ->). by apply extends_advance.
  - intros (a & rest & Ha & _ & ->). by apply extends_advance.
  - intros (a & rest & Ha & _ & ->). by apply extends_advance.
  - intros (p1 & H1%IH1 & H2%IH2). by eapply extends_trans.
  - intros H. induction H as [|x y z Hxy _ IHrtc]; [apply extends_refl|].
    eapply extends_trans; [by apply IH|done].
  - intros (p1 & H1%IH & H). eapply extends_trans; [done|].
    clear H1. induction H as [|x y z Hxy _ IHrtc]; [apply extends_refl|].
    eapply extends_trans; [by apply IH|done].
  - intros [H%IH| ->]; [done|apply extends_refl].
  - intros (p1 & H1%IH & ->). done.
  - intros [_ ->]. apply extends_refl.
  - intros [_ ->]. apply extends_refl.
  - intros [_ ->]. apply extends_refl.
  - intros [_ ->]. apply extends_refl.
Qed.

Lemma consumed_extends p p' (w : list ascii) :
  after p = w ++ after p' -> consumed p p' = w.
Proof.
  intros Ha. unfold consumed. rewrite Ha, length_app.
  replace (_ + _ - _)%nat with (List.length w) by lia.
  by rewrite take_app_length.
Qed.

Lemma extends_consumed p p' :
  extends p p' -> after p = consumed p p' ++ after p'.
Proof. intros (w & Ha & _). by rewrite (consumed_extends p p' w). Qed.

Lemma consumed_trans p1 p2 p3 :
  extends p1 p2 -> extends p2 p3 ->
  consumed p1 p3 = consumed p1 p2 ++ consumed p2 p3.
Proof.
  intros (w1 & Ha1 & _) (w2 & Ha2 & _).
  rewrite (consumed_extends p1 p2 w1), (consumed_extends p2 p3 w2) by done.
  apply consumed_extends. by rewrite Ha1, Ha2, <- app_assoc.
Qed.

(** A pattern without groups leaves the captures alone. *)
Lemma matches_plain r p p' : plain r = true -> matches r p p' -> caps p' = caps p.
Proof.
  revert p p'.
  induction r as [|c| |cs|r1 IH1 r2 IH2|r1 IH|r1 IH|r1 IH|n r1 IH| | | |];
    intros p p'; simpl; intros Hp.
  - by intros ->.
  - by intros (rest & _ & ->).
  - by intros (a & rest & _ & _ & ->).
  - by intros (a & rest & _ & _ & ->).
  - apply andb_true_iff in Hp as [Hp1 Hp2].
    intros (p1 & H1 & H2). by rewrite (IH2 _ _ Hp2 H2), (IH1 _ _ Hp1 H1).
  - intros H. induction H as [|x y z Hxy _ IHrtc]; [done|].
    by rewrite IHrtc, (IH _ _ Hp Hxy).
  - intros (p1 & H1 & H). rewrite <- (IH _ _ Hp H1).
    clear H1. induction H as [|x y z Hxy _ IHrtc]; [done|].
    by rewrite IHrtc, (IH _ _ Hp Hxy).
  - intros [H| ->]; [by apply IH|done].
  - done.
  - by intros [_ ->].
  - by intros [_ ->].
  - by intros [_ ->].
  - by intros [_ ->].
Qed.

(** A literal text matches itself. *)
Lemma matches_text (l : list ascii) p p' :
  matches (seq (map Lit l)) p p' -> consumed p p' = l.
Proof.
  revert p. induction l as [|c l IH]; intros p; simpl.
  - intros ->. unfold consumed. by rewrite Nat.sub_diag.
  - intros (p1 & (rest & Ha & ->) & H).
    pose proof (matches_extends _ _ _ H) as Hext.
    rewrite (consumed_trans p (advance c p rest) p');
      [|by apply extends_advance|done].
    rewrite (IH _ H). by rewrite (consumed_extends p _ [c]).
Qed.

(** Rounds of a class of characters: characters of the class. *)
Lemma matches_class (P : ascii -> Prop) r p p' :
  (forall p1 p2, matches r p1 p2 ->
                 exists a, after p1 = a :: after p2 /\ P a
                           /\ before p2 = a :: before p1
                           /\ caps p2 = caps p1) ->
  rtc (matches r) p p' ->
  extends p p' /\ Forall P (consumed p p') /\ caps p' = caps p.
Proof.
  intros Hr H. induction H as [p|p p1 p' H1 _ (Hext & Hall & Hcaps)].
  - split; [apply extends_refl|]. unfold consumed. rewrite Nat.sub_diag.
    by split.
  - destruct (Hr _ _ H1) as (a & Ha & HP & Hb & Hc).
    assert (extends p p1) as Hext1 by (exists [a]; by rewrite Ha, Hb).
    split; [by eapply extends_trans|]. split; [|congruence].
    rewrite (consumed_trans p p1 p') by done.
    rewrite (consumed_extends p p1 [a]) by done. by constructor.
Qed.

End Matches.

Section Targets.

Import Regex Matching.

Implicit Types (r : re) (p q : pos) (w : list ascii).

(** Where [search] finds a match, the pattern matches, and nowhere to the
    left of it. *)
Lemma search_first r (bef aft : list ascii) q :
  search r bef aft = Some q ->
  exists pre post,
    aft = pre ++ post
    /\ run r Some (Pos (rev pre ++ bef) post []) = Some q
    /\ forall pre1 pre2,
         pre = pre1 ++ pre2 -> pre2 <> [] ->
         run r Some (Pos (rev pre1 ++ bef) (pre2 ++ post) []) = None.
Proof.
  revert bef. induction aft as [|c aft IH]; intros bef; simpl.
  - destruct (run r Some (Pos bef [] [])) eqn:Hrun; [|done].
    intros [= ->]. exists [], []. split; [done|]. split; [done|].
    intros pre1 pre2 Heq Hne. symmetry in Heq.
    apply app_eq_nil in Heq as [_ ->]. done.
  - destruct (run r Some (Pos bef (c :: aft) [])) eqn:Hrun.
    + intros [= ->]. exists [], (c :: aft). split; [done|]. split; [done|].
      intros pre1 pre2 Heq Hne. symmetry in Heq.
      apply app_eq_nil in Heq as [_ ->]. done.
    + intros (pre & post & -> & Hq & Hfirst)%IH. exists (c :: pre), post.
      split; [done|]. split; [simpl; by rewrite <- app_assoc|].
      intros pre1 pre2 Heq Hne. destruct pre1 as [|a pre1].
      * simpl in *. subst pre2. exact Hrun.
      * injection Heq as <- ->. simpl. rewrite <- app_assoc.
        by apply Hfirst.
Qed.

Lemma search_none r (bef aft : list ascii) :
  search r bef aft = None ->
  forall pre post,
    aft = pre ++ post -> run r Some (Pos (rev pre ++ bef) post []) = None.
Proof.
  intros Hs pre post Heq.
  destruct (run r Some (Pos (rev pre ++ bef) post [])) as [q|] eqn:Hrun; [|done].
  assert (is_Some (search r bef aft)) as [q' Hq'].
  { apply search_is_Some. exists pre, post. by rewrite Hrun. }
  congruence.
Qed.

(** Every match of a global search is a match of the pattern somewhere in
    the subject, with no captures to start with. *)
Lemma execAll_matches r (fuel : nat) (bef aft : list ascii) q :
  In q (execAll r fuel bef aft) ->
  exists p, caps p = [] /\ matches r p q.
Proof.
  revert bef aft. induction fuel as [|fuel IH]; intros bef aft; simpl; [done|].
  destruct (search r bef aft) as [q1|] eqn:Hs; [|done].
  intros [<-|Hin]; [|by eapply IH].
  apply search_first in Hs as (pre & post & _ & Hrun & _).
  apply run_matches in Hrun as (p' & Hm & [= ->]).
  by eexists (Pos _ _ []).
Qed.

Lemma matches_seq_cons r (rs : list re) p p' :
  matches (seq (r :: rs)) p p'
  <-> exists p1, matches r p p1 /\ matches (seq rs) p1 p'.
Proof. done. Qed.

(** The group of the target: one or more characters outside [cs], then
    ".adoc". *)
Lemma matches_target (cs : list ascii) p p' :
  matches (Group 1 (seq [Plus (NoneOf cs); text ".adoc"])) p p' ->
  exists w,
    w <> [] /\ Forall (fun a => inb a cs = false) w
    /\ caps p' = (1%nat, w ++ Js.chars ".adoc") :: caps p.
Proof.
  intros (p1 & Hbody & ->).
  apply matches_seq_cons in Hbody as (p2 & Hplus & Htext).
  apply matches_seq_cons in Htext as (p3 & Htext & Heps).
  cbn [seq fold_right matches] in Heps. subst p3.
  pose proof (matches_extends _ _ _ Htext) as Hext2.
  pose proof (matches_plain (text ".adoc") _ _ eq_refl Htext) as Hcaps2.
  apply matches_text in Htext.
  destruct Hplus as (p0 & (a & rest & Ha & Hin & ->) & Hrounds).
  apply (matches_class (fun a => inb a cs = false)) in Hrounds
    as (Hext1 & Hall & Hcaps1).
  2:{ intros x y (b & rest' & Hb & Hinb & ->). exists b. by rewrite Hb. }
  exists (a :: consumed (advance a p rest) p2).
  split; [done|]. split; [by constructor|].
  unfold captured. cbn [caps]. rewrite Hcaps2, Hcaps1. cbn [advance caps].
  f_equal. f_equal.
  assert (extends p (advance a p rest)) as Hext0 by by apply extends_advance.
  rewrite (consumed_trans p p2 p1);
    [|by eapply extends_trans|done].
  rewrite Htext, (consumed_trans p (advance a p rest) p2) by done.
  by rewrite (consumed_extends p (advance a p rest) [a]).
Qed.

(** In a match of any of the four patterns group 1 ends in ".adoc". *)
Lemma group_target_xref p q :
  caps p = [] -> matches xrefPattern p q ->
  exists w, w <> [] /\ group 1 q = w ++ Js.chars ".adoc".
Proof.
  intros Hp H. unfold xrefPattern in H.
  apply matches_seq_cons in H as (p1 & Htext & H).
  apply matches_seq_cons in H as (p2 & Htarget & Htail).
  apply matches_target in Htarget as (w & Hw & _ & Hcaps).
  apply matches_plain in Htail; [|reflexivity].
  exists w. split; [done|]. unfold group. by rewrite Htail, Hcaps.
Qed.

Lemma group_target_link p q :
  caps p = [] -> matches linkPattern p q ->
  exists w, w <> [] /\ group 1 q = w ++ Js.chars ".adoc".
Proof.
  intros Hp H. unfold linkPattern in H.
  apply matches_seq_cons in H as (p0 & _ & H).
  apply matches_seq_cons in H as (p1 & Htext & H).
  apply matches_seq_cons in H as (p2 & Htarget & Htail).
  apply matches_target in Htarget as (w & Hw & _ & Hcaps).
  apply matches_plain in Htail; [|reflexivity].
  exists w. split; [done|]. unfold group. by rewrite Htail, Hcaps.
Qed.

Lemma group_target_anchor p q :
  caps p = [] -> matches anchorXrefPattern p q ->
  exists w, w <> [] /\ group 1 q = w ++ Js.chars ".adoc".
Proof.
  intros Hp H. unfold anchorXrefPattern in H.
  apply matches_seq_cons in H as (p1 & Htext & H).
  apply matches_seq_cons in H as (p2 & Htarget & Htail).
  apply matches_target in Htarget as (w & Hw & _ & Hcaps).
  apply matches_plain in Htail; [|reflexivity].
  exists w. split; [done|]. unfold group. by rewrite Htail, Hcaps.
Qed.

Lemma group_target_include p q :
  caps p = [] -> matches includePattern p q ->
  exists w, w <> [] /\ group 1 q = w ++ Js.chars ".adoc".
Proof.
  intros Hp H. unfold includePattern in H.
  apply matches_seq_cons in H as (p1 & Htext & H).
  apply matches_seq_cons in H as (p2 & Htarget & H).
  apply matches_target in Htarget as (w & Hw & _ & Hcaps).
  apply matches_seq_cons in H as (p3 & Hopen & H).
  apply (matches_plain (Lit "[") _ _ eq_refl) in Hopen.
  apply matches_seq_cons in H as (p4 & (p5 & Hattrs & ->) & Htail).
  apply (matches_plain (Star (NoneOf ["]"%char])) _ _ eq_refl) in Hattrs.
  apply matches_plain in Htail; [|reflexivity].
  exists w. split; [done|]. unfold group. rewrite Htail. unfold captured.
  cbn [caps]. by rewrite Hattrs, Hopen, Hcaps.
Qed.

End Targets.

Section Links.

Import Regex Matching.

Implicit Types (w s : list ascii) (content : string).

Lemma trimStartL_app w (c : ascii) s :
  Js.isSpace c = false ->
  Js.trimStartL (w ++ c :: s) = Js.trimStartL w ++ c :: s.
Proof.
  intros Hc. induction w as [|a w IH]; simpl.
  - by rewrite Hc.
  - by destruct (Js.isSpace a).
Qed.

(** Trimming does not reach into a text that ends in a character other
    than white space. *)
Lemma trimL_app w s (c d : ascii) :
  Js.isSpace c = false -> Js.isSpace d = false ->
  Js.trimL (w ++ c :: s ++ [d]) = Js.trimStartL w ++ c :: s ++ [d].
Proof.
  intros Hc Hd. unfold Js.trimL. rewrite trimStartL_app by done.
  replace (Js.trimStartL w ++ c :: s ++ [d])
    with ((Js.trimStartL w ++ c :: s) ++ [d]) by by rewrite <- app_assoc.
  rewrite rev_app_distr. simpl. rewrite Hd.
  change (d :: rev (Js.trimStartL w ++ c :: s))
    with (rev [d] ++ rev (Js.trimStartL w ++ c :: s)).
  by rewrite <- rev_app_distr, rev_involutive.
Qed.

Lemma groupTrim_target (q : pos) w :
  group 1 q = w ++ Js.chars ".adoc" ->
  groupTrim 1 q = Js.str (Js.trimStartL w ++ Js.chars ".adoc").
Proof.
  intros Hg. unfold groupTrim, Js.trim. rewrite chars_str, Hg.
  f_equal. exact (trimL_app w (Js.chars "ado") "." "c" eq_refl eq_refl).
Qed.

Lemma endsWith_app (u : list ascii) (s : string) :
  Js.endsWith (Js.str (u ++ Js.chars s)) s = true.
Proof.
  unfold Js.endsWith. rewrite chars_str, rev_app_distr.
  apply prefixL_spec. by eexists.
Qed.

(** The target of a match of one of the four patterns ends in ".adoc". *)
Lemma matchAll_target (r : re) content (m : pos) :
  r = xrefPattern \/ r = anchorXrefPattern \/ r = linkPattern
  \/ r = includePattern ->
  In m (matchAll r content) ->
  Js.endsWith (groupTrim 1 m) ".adoc" = true.
Proof.
  intros Hr (p & Hp & Hm)%execAll_matches.
  assert (exists w, w <> [] /\ group 1 m = w ++ Js.chars ".adoc")
    as (w & _ & Hg).
  { destruct Hr as [->|[->|[->| ->]]].
    - by apply (group_target_xref p).
    - by apply (group_target_anchor p).
    - by apply (group_target_link p).
    - by apply (group_target_include p). }
  rewrite (groupTrim_target m w Hg). apply endsWith_app.
Qed.

(** The references are those of the four loops, one loop after the
    other. *)
Lemma findAsciidocLinks_loops content :
  findAsciidocLinks content
  = map (fun m => mkLink (groupTrim 1 m) link)
        (List.filter (fun m => negb (isExternalUrl (groupTrim 1 m)))
                     (matchAll xrefPattern content))
    ++ map (fun m => mkLink (groupTrim 1 m) link)
           (List.filter (fun m => negb (isExternalUrl (groupTrim 1 m))
                                  && Js.endsWith (groupTrim 1 m) ".adoc")
                        (matchAll anchorXrefPattern content))
    ++ map (fun m => mkLink (groupTrim 1 m) link)
           (List.filter (fun m => negb (isExternalUrl (groupTrim 1 m)))
                        (matchAll linkPattern content))
    ++ includeRefs content.
Proof.
  unfold findAsciidocLinks.
  rewrite (fold_left_push _
             (fun m => if negb (isExternalUrl (groupTrim 1 m))
                       then [mkLink (groupTrim 1 m) (includeType (groupTrim 2 m))]
                       else []) (matchAll includePattern content)).
  2:{ intros acc m. unfold push. cbv zeta. fold (includeType (groupTrim 2 m)).
      destruct (negb _); [done|by rewrite app_nil_r]. }
  rewrite (fold_left_push _
             (fun m => if negb (isExternalUrl (groupTrim 1 m))
                       then [mkLink (groupTrim 1 m) link] else [])
             (matchAll linkPattern content)).
  2:{ intros acc m. unfold push. cbv zeta.
      destruct (negb _); [done|by rewrite app_nil_r]. }
  rewrite (fold_left_push _
             (fun m => if negb (isExternalUrl (groupTrim 1 m))
                          && Js.endsWith (groupTrim 1 m) ".adoc"
                       then [mkLink (groupTrim 1 m) link] else [])
             (matchAll anchorXrefPattern content)).
  2:{ intros acc m. unfold push. cbv zeta.
      destruct (negb _ && _); [done|by rewrite app_nil_r]. }
  rewrite (fold_left_push _
             (fun m => if negb (isExternalUrl (groupTrim 1 m))
                       then [mkLink (groupTrim 1 m) link] else [])
             (matchAll xrefPattern content)).
  2:{ intros acc m. unfold push. cbv zeta.
      destruct (negb _); [done|by rewrite app_nil_r]. }
  rewrite !flat_map_filter. unfold includeRefs. simpl.
  by rewrite <- !app_assoc.
Qed.

(** X12.  Every reference [findAsciidocLinks] returns has a target that
    ends in ".adoc" and does not start with "http://" or "https://".  The
    test [target.endsWith(".adoc")] in the loop of the double angle
    brackets never fails: what the pattern captures ends in ".adoc", and
    trimming does not take that away. *)
Theorem findAsciidocLinks_targets content :
  Forall (fun x => Js.endsWith (linkTarget x) ".adoc" = true
                   /\ isExternalUrl (linkTarget x) = false)
         (findAsciidocLinks content)
  /\ Forall (fun m => Js.endsWith (groupTrim 1 m) ".adoc" = true)
            (matchAll anchorXrefPattern content).
Proof.
  split.
  - rewrite findAsciidocLinks_loops. unfold includeRefs.
    repeat apply Forall_app_2; apply List.Forall_forall;
      intros x (m & <- & [Hm Hc]%filter_In)%in_map_iff; cbn [linkTarget].
    + split; [|by apply negb_true_iff].
      apply (matchAll_target xrefPattern content); auto.
    + apply andb_true_iff in Hc as [Hc ?]. split; [done|].
      by apply negb_true_iff.
    + split; [|by apply negb_true_iff].
      apply (matchAll_target linkPattern content); auto.
    + split; [|by apply negb_true_iff].
      apply (matchAll_target includePattern content); auto.
  - apply List.Forall_forall. intros m Hm.
    apply (matchAll_target anchorXrefPattern content); auto.
Qed.

End Links.
Section Titles.

Import Regex Matching Terms.

Implicit Types (w s line rest bef aft : list ascii) (p q : pos).
Implicit Types (k : pos -> option pos).

(** Rounds of one character of a class find a match wherever the
    continuation has one inside the run of such characters. *)
Lemma rounds_class_some (cls : ascii -> bool)
    (m : (pos -> option pos) -> pos -> option pos) k (n : nat) p w rest :
  (forall k p, m k p = match after p with
                       | a :: l => if cls a then k (advance a p l) else None
                       | [] => None
                       end) ->
  after p = w ++ rest ->
  Forall (fun a => cls a = true) w ->
  (List.length (after p) <= n)%nat ->
  is_Some (k (Pos (rev w ++ before p) rest (caps p))) ->
  is_Some (rounds m k n p).
Proof.
  intros Hm. revert n p. induction w as [|a w IH]; intros n p Ha Hall Hn Hk.
  - simpl in *. assert (Pos (before p) rest (caps p) = p) as Hp
      by (destruct p; simpl in *; by subst).
    rewrite Hp in Hk. destruct n as [|n]; simpl; [done|].
    by destruct (m _ p).
  - apply Forall_cons in Hall as [Hcls Hall].
    destruct n as [|n]; [rewrite Ha in Hn; simpl in Hn; lia|].
    simpl. rewrite Hm, Ha. simpl. rewrite Hcls.
    cbn [advance after]. rewrite length_app.
    destruct (Nat.ltb_spec (List.length w + List.length rest)
                           (S (List.length w + List.length rest))) as [_|?];
      [|lia].
    assert (is_Some (rounds m k n (advance a p (w ++ rest)))) as [q Hq].
    { apply (IH n (advance a p (w ++ rest))); [done|done| |].
      - rewrite Ha in Hn. simpl in *. lia.
      - simpl in Hk |- *. by rewrite <- app_assoc in Hk. }
    rewrite Hq. done.
Qed.

(** The continuation after the spaces of a heading: group 1 takes the
    rest of the line. *)
Lemma run_title_text p w rest :
  after p = w ++ rest -> w <> [] ->
  Forall (fun c => Js.isLineTerminator c = false) w ->
  lineEdge rest = true ->
  is_Some (run (seq [Group 1 (Plus AnyChar); Eol]) Some p).
Proof.
  intros Ha Hw Hall Hrest. destruct w as [|a w]; [done|].
  apply Forall_cons in Hall as [Hlt Hall].
  cbn [seq fold_right run]. rewrite Ha. cbn [app]. rewrite Hlt.
  apply (rounds_class_some (fun c => negb (Js.isLineTerminator c)) _ _ _ _ w rest).
  - intros k' p'. simpl. destruct (after p') as [|b l]; [done|].
    by destruct (Js.isLineTerminator b).
  - done.
  - eapply Forall_impl; [exact Hall|]. intros c Hc. simpl. by rewrite Hc.
  - simpl. rewrite length_app. lia.
  - cbn [caps after before advance]. by rewrite Hrest.
Qed.

(** Where a heading stands the pattern matches. *)
Lemma run_title_complete bef aft line :
  headingAt bef aft line -> is_Some (run titlePattern Some (Pos bef aft [])).
Proof.
  intros (Hbol & Hne & Hall & rest & -> & Hrest).
  unfold titlePattern.
  change (seq [Bol; Lit "="; Plus (Lit " "); Group 1 (Plus AnyChar); Eol])
    with (Cat Bol (Cat (Lit "=") (Cat (Plus (Lit " "))
            (seq [Group 1 (Plus AnyChar); Eol])))).
  cbn [run before after]. rewrite Hbol. cbn [Ascii.eqb Bool.eqb advance].
  (* the spaces [line] starts with, and what follows them *)
  assert (exists sp w, line = sp ++ w
                       /\ Forall (fun a => Ascii.eqb a " " = true) sp
                       /\ (w <> [] \/ sp <> [])
                       /\ match w with a :: _ => Ascii.eqb a " " = false
                                  | [] => True end)
    as (sp & w & -> & Hsp & Hsome & Hw).
  { clear Hall Hbol rest Hrest. induction line as [|a line IH]; [done|].
    destruct (Ascii.eqb a " ") eqn:Ha.
    - destruct line as [|b line].
      + exists [a], []. repeat split; [by constructor|by right].
      + destruct IH as (sp & w & Heq & Hsp & _ & Hw); [done|].
        exists (a :: sp), w. rewrite Heq. repeat split; [by constructor|by right|done].
    - exists [], (a :: line). repeat split; [constructor|by left|done]. }
  apply Forall_app in Hall as [Hall1 Hall2].
  destruct w as [|a w].
  - (* only spaces: the last of them is the title *)
    destruct Hsome as [?|Hsp']; [done|].
    rewrite app_nil_r in *.
    destruct (rev sp) as [|b rsp] eqn:Hrev.
    { apply (f_equal (@rev _)) in Hrev. rewrite rev_involutive in Hrev.
      by subst sp. }
    assert (sp = rev rsp ++ [b]) as ->.
    { apply (f_equal (@rev _)) in Hrev. by rewrite rev_involutive in Hrev. }
    apply Forall_app in Hsp as [Hsp _]. apply Forall_app in Hall1 as [_ Hb].
    apply (rounds_class_some (fun c => Ascii.eqb c " ") _ _ _ _ (rev rsp)
                             (b :: rest)).
    + intros k' p'. simpl. by destruct (after p').
    + simpl. by rewrite <- app_assoc.
    + done.
    + simpl. lia.
    + apply (run_title_text _ [b] rest); [done|done|done|done].
  - apply (rounds_class_some (fun c => Ascii.eqb c " ") _ _ _ _ sp
                             ((a :: w) ++ rest)).
    + intros k' p'. simpl. by destruct (after p').
    + simpl. by rewrite <- app_assoc.
    + done.
    + simpl. lia.
    + by apply (run_title_text _ (a :: w) rest).
Qed.

Lemma trimStartL_spaces w s :
  Forall (fun a => Js.isSpace a = true) w ->
  Js.trimStartL (w ++ s) = Js.trimStartL s.
Proof.
  induction w as [|a w IH]; [done|]. intros [Ha Hall]%Forall_cons.
  simpl. rewrite Ha. by apply IH.
Qed.

Lemma trimL_spaces w s :
  Forall (fun a => Js.isSpace a = true) w -> Js.trimL (w ++ s) = Js.trimL s.
Proof. intros Hall. unfold Js.trimL. by rewrite trimStartL_spaces. Qed.

(** Where the pattern matches a heading stands, and group 1 is the rest
    of its line but for spaces in front. *)
Lemma run_title_sound bef aft q :
  run titlePattern Some (Pos bef aft []) = Some q ->
  exists line,
    headingAt bef aft line /\ Js.trimL (group 1 q) = Js.trimL line.
Proof.
  intros (q' & Hm & [= ->])%run_matches. unfold titlePattern in Hm.
  apply matches_seq_cons in Hm as (p1 & [Hbol ->] & Hm).
  apply matches_seq_cons in Hm as (p2 & (rest0 & Ha & ->) & Hm).
  apply matches_seq_cons in Hm as (p3 & Hspaces & Hm).
  apply matches_seq_cons in Hm as (p4 & (p5 & Htext & ->) & Hm).
  apply matches_seq_cons in Hm as (p6 & [Heol ->] & ->).
  cbn [before after caps] in *. subst aft.
  destruct Hspaces as (p0 & (rest1 & Ha1 & ->) & Hspaces).
  cbn [advance after] in Ha1. subst rest0.
  apply (matches_class (fun a => a = " "%char)) in Hspaces
    as (Hext1 & Hsp & Hcaps1).
  2:{ intros x y (rest' & Hb & ->). exists " "%char. by rewrite Hb. }
  destruct Htext as (p7 & (a & rest2 & Ha2 & Hlt & ->) & Htext).
  apply (matches_class (fun a => Js.isLineTerminator a = false)) in Htext
    as (Hext2 & Hall & Hcaps2).
  2:{ intros x y (b & rest' & Hb & Hltb & ->). exists b. by rewrite Hb. }
  pose proof (extends_consumed _ _ Hext1) as Hsplit1.
  pose proof (extends_consumed _ _ Hext2) as Hsplit2.
  cbn [advance after] in Hsplit1, Hsplit2.
  remember (consumed _ p3) as sp eqn:Esp in Hsplit1, Hsp.
  remember (consumed _ p5) as w eqn:Ew in Hsplit2, Hall.
  clear Esp Ew Hext1 Hext2.
  exists (sp ++ a :: w). split.
  - split; [done|]. split; [by destruct sp|]. split.
    + apply Forall_app. split.
      * eapply Forall_impl; [exact Hsp|]. by intros c ->.
      * by constructor.
    + exists (after p5). split; [|done].
      rewrite Hsplit1, Ha2, Hsplit2. by rewrite <- app_assoc.
  - unfold group, captured. cbn [caps list_find fst].
    rewrite decide_True by done. cbn [snd option_map fmap].
    assert (consumed p3 p5 = a :: w) as ->.
    { apply consumed_extends. by rewrite Ha2, Hsplit2. }
    simpl. rewrite trimL_spaces; [done|].
    eapply Forall_impl; [exact Hsp|]. by intros c ->.
Qed.

(** A position has at most one heading. *)
Lemma headingAt_unique bef aft line1 line2 :
  headingAt bef aft line1 -> headingAt bef aft line2 -> line1 = line2.
Proof.
  intros (_ & _ & Hall1 & rest1 & -> & Hrest1)
         (_ & _ & Hall2 & rest2 & [= Heq] & Hrest2).
  revert line2 Hall2 Heq.
  induction line1 as [|a l1 IH]; intros [|b l2] Hall2 Heq; simpl in *.
  - done.
  - subst rest1. apply Forall_cons in Hall2 as [Hb _]. simpl in Hrest1.
    congruence.
  - subst rest2. apply Forall_cons in Hall1 as [Ha _]. simpl in Hrest2.
    congruence.
  - injection Heq as -> Heq. apply Forall_cons in Hall1 as [_ Hall1].
    apply Forall_cons in Hall2 as [_ Hall2]. f_equal. by apply IH.
Qed.

Lemma findAsciidocTitle_shortened cfg content :
  findAsciidocTitle cfg content
  = (fun m => shortened cfg (groupTrim 1 m)) <$> matchFirst titlePattern content.
Proof. unfold findAsciidocTitle. by destruct (matchFirst _ _). Qed.

(** X13.  The title of a document is taken from its first heading: the
    first line that starts with "=" and a space and goes on with at
    least one more character.  It is the rest of that line, trimmed, and
    cut to the maximal length when the settings have one. *)
Theorem findAsciidocTitle_first_heading cfg content (title : string) :
  findAsciidocTitle cfg content = Some title
  <-> exists line,
        firstHeading content line
        /\ title = shortened cfg (Js.trim (Js.str line)).
Proof.
  rewrite findAsciidocTitle_shortened. unfold matchFirst. split.
  - destruct (search titlePattern [] (Js.chars content)) as [q|] eqn:Hs;
      [|done].
    intros [= <-].
    apply search_first in Hs as (pre & post & Heq & Hrun & Hfirst).
    rewrite app_nil_r in Hrun.
    destruct (run_title_sound _ _ _ Hrun) as (line & Hh & Htrim).
    exists line. split.
    + exists pre, post. split; [done|]. split; [done|].
      intros pre1 pre2 line' Hpre Hne Hh'.
      apply run_title_complete in Hh' as [q' Hq'].
      specialize (Hfirst pre1 pre2 Hpre Hne). rewrite app_nil_r in Hfirst.
      congruence.
    + unfold groupTrim, Js.trim. by rewrite !chars_str, Htrim.
  - intros (line & (pre & post & Heq & Hh & Hfirst) & ->).
    destruct (search titlePattern [] (Js.chars content)) as [q|] eqn:Hs.
    + apply search_first in Hs as (pre' & post' & Heq' & Hrun & Hfirst').
      rewrite app_nil_r in Hrun.
      destruct (run_title_sound _ _ _ Hrun) as (line' & Hh' & Htrim).
      (* both are the first heading, so they stand at the same place *)
      assert (pre' = pre /\ post' = post) as [-> ->].
      { rewrite Heq in Heq'.
        destruct (decide (List.length pre = List.length pre')) as [Hlen|Hlen].
        - apply app_inj_1 in Heq' as [-> ->]; done.
        - destruct (Nat.lt_ge_cases (List.length pre) (List.length pre'))
            as [Hlt|Hge].
          + (* the heading at [pre] is to the left of the match *)
            exfalso.
            assert (pre' = pre ++ drop (List.length pre) pre'
                    /\ post = drop (List.length pre) pre' ++ post')
              as [Hp1 Hp2].
            { rewrite <- (take_drop (List.length pre) pre') in Heq' at 1.
              rewrite <- app_assoc in Heq'.
              apply app_inj_1 in Heq' as [H1 H2];
                [|rewrite length_take; lia].
              split; [|done]. rewrite H1 at 1. by rewrite take_drop. }
            apply run_title_complete in Hh as [q0 Hq0].
            specialize (Hfirst' pre (drop (List.length pre) pre') Hp1).
            rewrite app_nil_r, <- Hp2 in Hfirst'.
            rewrite Hfirst' in Hq0; [done|].
            intros Hnil. apply (f_equal (@List.length _)) in Hnil.
            rewrite length_drop in Hnil. simpl in Hnil. lia.
          + exfalso.
            assert (pre = pre' ++ drop (List.length pre') pre
                    /\ post' = drop (List.length pre') pre ++ post)
              as [Hp1 Hp2].
            { rewrite <- (take_drop (List.length pre') pre) in Heq' at 1.
              rewrite <- app_assoc in Heq'. symmetry in Heq'.
              apply app_inj_1 in Heq' as [H1 H2];
                [|rewrite length_take; lia].
              split; [|done]. rewrite H1 at 1. by rewrite take_drop. }
            apply (Hfirst pre' (drop (List.length pre') pre) line' Hp1).
            * intros Hnil. apply (f_equal (@List.length _)) in Hnil.
              rewrite length_drop in Hnil. simpl in Hnil. lia.
            * by rewrite <- Hp2. }
      rewrite (headingAt_unique _ _ _ _ Hh Hh').
      simpl. f_equal. unfold groupTrim, Js.trim.
      by rewrite !chars_str, Htrim.
    + apply run_title_complete in Hh as [q0 Hq0].
      pose proof (search_none _ _ _ Hs pre post Heq) as Hnone.
      rewrite app_nil_r in Hnone. congruence.
Qed.

(** X14.  A document has no title exactly when it has no heading: no
    line that starts with "=" and a space and has at least one more
    character. *)
Theorem findAsciidocTitle_without_heading cfg content :
  findAsciidocTitle cfg content = None
  <-> forall pre post line,
        Js.chars content = pre ++ post -> ~ headingAt (rev pre) post line.
Proof.
  rewrite findAsciidocTitle_shortened. unfold matchFirst. split.
  - destruct (search titlePattern [] (Js.chars content)) as [q|] eqn:Hs;
      [done|].
    intros _ pre post line Heq Hh.
    apply run_title_complete in Hh as [q0 Hq0].
    pose proof (search_none _ _ _ Hs pre post Heq) as Hnone.
    rewrite app_nil_r in Hnone. congruence.
  - intros Hno.
    destruct (search titlePattern [] (Js.chars content)) as [q|] eqn:Hs;
      [|done].
    apply search_first in Hs as (pre & post & Heq & Hrun & _).
    rewrite app_nil_r in Hrun.
    destruct (run_title_sound _ _ _ Hrun) as (line & Hh & _).
    by destruct (Hno pre post line Heq).
Qed.

Lemma trimStartL_suffix w : exists sp, w = sp ++ Js.trimStartL w.
Proof.
  induction w as [|a w [sp IH]]; [by exists []|]. simpl.
  destruct (Js.isSpace a); [|by exists []].
  exists (a :: sp). simpl. by rewrite <- IH.
Qed.

(** Trimming only takes characters away. *)
Lemma trimL_Forall (P : ascii -> Prop) w : Forall P w -> Forall P (Js.trimL w).
Proof.
  intros Hall. unfold Js.trimL.
  destruct (trimStartL_suffix w) as [sp1 H1].
  destruct (trimStartL_suffix (rev (Js.trimStartL w))) as [sp2 H2].
  rewrite H1 in Hall. apply Forall_app in Hall as [_ Hall].
  apply Forall_rev in Hall. rewrite H2 in Hall.
  apply Forall_app in Hall as [_ Hall]. by apply Forall_rev.
Qed.

(** A title comes from a heading. *)
Lemma findAsciidocTitle_heading cfg content (title : string) :
  findAsciidocTitle cfg content = Some title ->
  exists line,
    (exists pre post,
       Js.chars content = pre ++ post /\ headingAt (rev pre) post line)
    /\ title = shortened cfg (Js.trim (Js.str line)).
Proof.
  rewrite findAsciidocTitle_shortened. unfold matchFirst.
  destruct (search titlePattern [] (Js.chars content)) as [q|] eqn:Hs;
    [|done].
  intros [= <-].
  apply search_first in Hs as (pre & post & Heq & Hrun & _).
  rewrite app_nil_r in Hrun.
  destruct (run_title_sound _ _ _ Hrun) as (line & Hh & Htrim).
  exists line. split; [by exists pre, post|].
  unfold groupTrim, Js.trim. by rewrite !chars_str, Htrim.
Qed.

(** X15.  A title is a single line, and with a maximal length in the
    settings it is no longer than that length and the three dots. *)
Theorem findAsciidocTitle_bounds cfg content (title : string) :
  findAsciidocTitle cfg content = Some title ->
  Forall (fun c => Js.isLineTerminator c = false) (Js.chars title)
  /\ ((0 < getTitleMaxLength cfg)%Z ->
      (Z.of_nat (String.length title) <= getTitleMaxLength cfg + 3)%Z).
Proof.
  intros (line & (pre & post & _ & Hh) & ->)%findAsciidocTitle_heading.
  destruct Hh as (_ & _ & Hall & _).
  assert (Forall (fun c => Js.isLineTerminator c = false)
                 (Js.chars (Js.trim (Js.str line)))) as Htrim.
  { unfold Js.trim. rewrite !chars_str. by apply trimL_Forall. }
  unfold shortened. cbv zeta.
  destruct (Z.ltb_spec 0 (getTitleMaxLength cfg)) as [Hpos|Hneg];
    [|split; [done|lia]].
  destruct (Z.ltb_spec (getTitleMaxLength cfg)
              (Z.of_nat (String.length (Js.trim (Js.str line)))))
    as [Hlong|Hshort]; simpl.
  - split.
    + rewrite chars_app. apply Forall_app. split; [|by repeat constructor].
      unfold Js.substring0. rewrite chars_str. by apply Forall_take.
    + intros _. rewrite <- chars_length, chars_app, length_app.
      unfold Js.substring0. rewrite chars_str, length_take, chars_length.
      simpl. lia.
  - split; [done|]. intros _. lia.
Qed.

(** An instance: a maximal length of three cuts "Hello World". *)
Lemma findAsciidocTitle_bounds_witness :
  Forall (fun c => Js.isLineTerminator c = false) (Js.chars "Hel...")
  /\ ((0 < getTitleMaxLength (mkConfig 3 None))%Z ->
      (Z.of_nat (String.length "Hel...")
       <= getTitleMaxLength (mkConfig 3 None) + 3)%Z).
Proof.
  apply (findAsciidocTitle_bounds (mkConfig 3 None) "= Hello World" "Hel...").
  vm_compute. reflexivity.
Defined.

End Titles.

Section Hidden.

Implicit Types (dir name : string).

(** X16.  [parseDirectory] skips a file for the dot at the start of its
    own name only: a dot at the start of the name of a directory on the
    way to the file does not hide it. *)
Theorem hiddenFile_by_its_own_name dir name :
  name <> ""%string ->
  ~ In Path.sep (Js.chars name) ->
  hiddenFile (dir ++ "/" ++ name) = Js.startsWith name "."
  /\ hiddenFile name = Js.startsWith name ".".
Proof.
  intros Hne Hn. unfold hiddenFile, Path.basename.
  destruct (rev (Js.chars name)) as [|x rname] eqn:Hrev.
  { apply (f_equal (@rev _)) in Hrev. rewrite rev_involutive in Hrev.
    destruct name; [done|discriminate]. }
  assert (Js.chars name = rev rname ++ [x]) as Hname.
  { apply (f_equal (@rev _)) in Hrev. by rewrite rev_involutive in Hrev. }
  split.
  - rewrite !chars_app. change (Js.chars "/") with [Path.sep]. simpl.
    rewrite Hname, basenameL_file by by rewrite <- Hname.
    by rewrite <- Hname, str_chars.
  - by rewrite basenameL_plain, str_chars.
Qed.

(** An instance: "/docs/.git/a.adoc" is not hidden, "/docs/.a.adoc" is. *)
Lemma hiddenFile_by_its_own_name_witness :
  (hiddenFile "/docs/.git/a.adoc" = false /\ hiddenFile "a.adoc" = false)
  /\ hiddenFile "/docs/.a.adoc" = true /\ hiddenFile ".a.adoc" = true.
Proof.
  split.
  - apply (hiddenFile_by_its_own_name "/docs/.git" "a.adoc").
    + discriminate.
    + vm_compute. intuition discriminate.
  - apply (hiddenFile_by_its_own_name "/docs" ".a.adoc").
    + discriminate.
    + vm_compute. intuition discriminate.
Defined.

End Hidden.

Section Dangling.

Implicit Types (g : Graph).

(** X17.  [filterNonExistingEdges] is a clean-up: doing it again changes
    nothing, and it changes nothing at all exactly when the graph has no
    edge that ends outside its nodes. *)
Theorem filterNonExistingEdges_once_is_enough g :
  filterNonExistingEdges (filterNonExistingEdges g) = filterNonExistingEdges g
  /\ (filterNonExistingEdges g = g
      <-> forall e, In e (edges g) ->
                    hasNode g (source e) /\ hasNode g (target e)).
Proof.
  split.
  - unfold filterNonExistingEdges, exists_. cbn [nodes edges].
    f_equal. apply filter_filter_same.
  - split.
    + intros Heq e He. rewrite <- Heq in He.
      unfold filterNonExistingEdges in He. cbn [edges] in He.
      apply filter_In in He as [_ [H1 H2]%andb_true_iff].
      by apply exists_hasNode in H1, H2.
    + intros Hall. destruct g as [ns es]. unfold filterNonExistingEdges.
      cbn [nodes edges] in *. f_equal. apply filter_all.
      apply List.Forall_forall. intros e He. destruct (Hall e He) as [H1 H2].
      apply andb_true_iff. split; by apply exists_hasNode.
Qed.

End Dangling.
Section Results.

Import Terms.

Implicit Types (cfg : Config) (fs : FileSystem) (g : Graph) (sc : scan).
Implicit Types (files : list string).

(** An invariant of the states of a scan and their graphs. *)
Lemma run_invariant_scan cfg fs files (I : scan -> Prop) sc sc' :
  (forall sc (i : nat) (file : string),
     scanOf cfg fs files sc -> I sc ->
     files !! i = Some file ->
     promises sc !! i = Some (parseFile cfg file) ->
     I (mkScan (match fs (Path.normalize file) with
                | Some content =>
                    parseContent cfg (Path.normalize file) content (graph sc)
                | None => graph sc
                end)
               (<[i := Settled (outcome fs file)]> (promises sc)))) ->
  rtc (step fs) sc sc' ->
  scanOf cfg fs files sc -> I sc ->
  scanOf cfg fs files sc' /\ I sc'.
Proof.
  intros HI Hrun. induction Hrun as [sc|sc sc1 sc' Hstep _ IH]; [done|].
  intros Hsc Hg. apply IH.
  - by eapply step_keeps_scanOf.
  - destruct (step_scanOf cfg fs files sc sc1 Hsc Hstep)
      as (i & file & Hfile & Hi & Hps & Hgr).
    specialize (HI sc i file Hsc Hg Hfile Hi).
    destruct sc1 as [g1 ps1]. simpl in Hps, Hgr. by rewrite Hps, Hgr.
Qed.

Lemma settledAt_insert sc g (i j : nat) (r : settled) (t : task) :
  promises sc !! i = Some t ->
  settledAt (mkScan g (<[i := Settled r]> (promises sc))) j
  <-> j = i \/ settledAt sc j.
Proof.
  intros Hi. unfold settledAt. simpl.
  destruct (decide (j = i)) as [->|Hne].
  - rewrite list_lookup_insert_eq by by eapply lookup_lt_Some.
    split; [by left|]. intros _. by exists r.
  - rewrite list_lookup_insert_ne by done. split; [by right|].
    by intros [?|?].
Qed.

(** The entry of a file in a graph whose nodes have the key of their path
    for id: the node the scan makes of the file. *)
Lemma entry_nodeFor cfg fs (file content : string) g :
  wellKeyed g ->
  fs (Path.normalize file) = Some content ->
  entry cfg (Path.normalize file) content g
  = match nodeFor cfg fs file with Some node => [node] | None => [] end.
Proof.
  intros Hw Hfs. unfold entry, nodeFor. cbv zeta. rewrite Hfs.
  destruct (findAsciidocTitle cfg content) as [title|]; [|done].
  destruct (String.eqb title ""); [done|].
  assert (keptId g (Path.normalize file) = id (Path.normalize file)) as ->;
    [|done].
  unfold keptId, nodeOf.
  destruct (find _ (nodes g)) as [node|] eqn:Hf; [|done].
  apply find_some in Hf as [Hin Hp]. apply String.eqb_eq in Hp.
  unfold wellKeyed in Hw.
  rewrite <- Hp. by apply (proj1 (List.Forall_forall _ _) Hw).
Qed.

Lemma nodeFor_path cfg fs (file : string) (node : Node) :
  nodeFor cfg fs file = Some node -> path node = Path.normalize file.
Proof.
  unfold nodeFor. cbv zeta. destruct (fs _) as [content|]; [|done].
  destruct (findAsciidocTitle cfg content) as [title|]; [|done].
  destruct (String.eqb title ""); [done|]. by intros [= <-].
Qed.

Lemma nodeFor_same_path cfg fs (file1 file2 : string) :
  Path.normalize file1 = Path.normalize file2 ->
  nodeFor cfg fs file1 = nodeFor cfg fs file2.
Proof. intros H. unfold nodeFor. by rewrite H. Qed.

(** X18.  When a scan of the workspace that started on the empty graph
    has come to rest, the nodes are those of the files it called back for
    that could be read and have a title: one node for each such path, with
    the key of the path for id and the title for label.  The order in
    which the reads completed makes no difference to that. *)
Theorem scan_nodes cfg fs (workspace : list string) sc :
  rtc (step fs) (parseDirectory cfg workspace (parseFile cfg) (mkGraph [] []))
      sc ->
  quiescent fs sc ->
  uniquePaths (graph sc)
  /\ forall node : Node,
       In node (nodes (graph sc))
       <-> exists file,
             In file (eligible cfg workspace)
             /\ nodeFor cfg fs file = Some node.
Proof.
  intros Hrun Hq.
  destruct (run_invariant_scan cfg fs (eligible cfg workspace)
              (fun sc =>
                 uniquePaths (graph sc) /\ wellKeyed (graph sc)
                 /\ forall node : Node,
                      In node (nodes (graph sc))
                      <-> exists (i : nat) (file : string),
                            eligible cfg workspace !! i = Some file
                            /\ settledAt sc i
                            /\ nodeFor cfg fs file = Some node)
              (parseDirectory cfg workspace (parseFile cfg) (mkGraph [] []))
              sc) as (Hsc & Hu & _ & Hnodes).
  - clear sc Hrun Hq. intros sc i file Hsc (Hu & Hw & Hnodes) Hfile Hi.
    cbn [graph].
    assert (forall (g' : Graph) (new : list Node),
               (forall node, In node (nodes g')
                             <-> In node (otherNodes (graph sc)
                                                     (Path.normalize file))
                                 \/ In node new) ->
               new = match nodeFor cfg fs file with
                     | Some node => [node] | None => [] end ->
               forall node : Node,
                 In node (nodes g')
                 <-> exists (j : nat) (file' : string),
                       eligible cfg workspace !! j = Some file'
                       /\ settledAt (mkScan g' (<[i := Settled (outcome fs file)]>
                                                  (promises sc))) j
                       /\ nodeFor cfg fs file' = Some node) as Hstep.
    { intros g' new Hg' Hnew node. rewrite Hg'. split.
      - intros [Hold|Hin].
        + unfold otherNodes in Hold. apply filter_In in Hold as [Hold _].
          apply Hnodes in Hold as (j & file' & Hj & Hset & Hnode).
          exists j, file'. split; [done|]. split; [|done].
          apply (settledAt_insert sc g' i j _ _ Hi). by right.
        + exists i, file. split; [done|]. split.
          * apply (settledAt_insert sc g' i i _ _ Hi). by left.
          * rewrite Hnew in Hin. destruct (nodeFor cfg fs file) as [n|];
              [|done]. destruct Hin as [->|[]]. done.
      - intros (j & file' & Hj & Hset & Hnode).
        apply (settledAt_insert sc g' i j _ _ Hi) in Hset.
        destruct (decide (Path.normalize file' = Path.normalize file))
          as [Hsame|Hdiff].
        + right. rewrite Hnew, <- (nodeFor_same_path cfg fs file' file Hsame),
            Hnode. by left.
        + left. unfold otherNodes. apply filter_In. split.
          * destruct Hset as [->|Hset]; [congruence|].
            apply Hnodes. by exists j, file'.
          * apply negb_true_iff, String.eqb_neq.
            by rewrite (nodeFor_path cfg fs file' node Hnode). }
    destruct (fs (Path.normalize file)) as [content|] eqn:Hfs.
    + split; [by apply parseContent_uniquePaths|].
      split; [by apply parseContent_wellKeyed|].
      apply (Hstep _ (entry cfg (Path.normalize file) content (graph sc))).
      * intros node. rewrite <- in_app_iff. split; apply Permutation_in;
          [|symmetry]; by apply parseContent_nodes_entry.
      * by apply entry_nodeFor.
    + split; [done|]. split; [done|].
      apply (Hstep _ []).
      * intros node. split.
        -- intros Hin. left. unfold otherNodes. apply filter_In.
           split; [done|].
           apply Hnodes in Hin as (j & file' & Hj & Hset & Hnode).
           apply negb_true_iff, String.eqb_neq.
           rewrite (nodeFor_path cfg fs file' node Hnode). intros Hsame.
           rewrite (nodeFor_same_path cfg fs file' file Hsame) in Hnode.
           unfold nodeFor in Hnode. cbv zeta in Hnode. by rewrite Hfs in Hnode.
        -- intros [Hin|[]]. unfold otherNodes in Hin.
           by apply filter_In in Hin as [Hin _].
      * unfold nodeFor. cbv zeta. by rewrite Hfs.
  - exact Hrun.
  - apply scanOf_start.
  - rewrite parseDirectory_parseFile. cbn [graph nodes].
    split; [constructor|]. split; [constructor|].
    intros node. split; [done|].
    intros (i & file & Hfile & [r Hset] & _). simpl in Hset.
    rewrite list_lookup_fmap, Hfile in Hset. done.
  - split; [done|]. intros node. rewrite Hnodes.
    apply (quiescent_all_settled _ _ _ _ Hsc) in Hq.
    split.
    + intros (i & file & Hfile & _ & Hnode). exists file. split; [|done].
      by eapply list_elem_of_In, list_elem_of_lookup_2.
    + intros (file & Hin & Hnode).
      apply list_elem_of_In, list_elem_of_lookup in Hin as [i Hfile].
      exists i, file. split; [done|]. split; [|done].
      destruct (Forall2_lookup_r _ _ _ _ _ Hsc Hfile) as (t & Ht & Hcase).
      assert (hasSettled t) as Hs.
      { apply (proj1 (List.Forall_forall _ _) Hq).
        by eapply list_elem_of_In, list_elem_of_lookup_2. }
      destruct Hcase as [->| ->]; [by destruct Hs|]. by eexists.
Qed.

(** An instance: the scan of the example workspace, at rest. *)
Lemma scan_nodes_witness :
  exists sc,
    promises sc = [Settled Rejected; Settled Fulfilled]
    /\ uniquePaths (graph sc)
    /\ forall node : Node,
         In node (nodes (graph sc))
         <-> exists file,
               In file (eligible Example.cfg Example.workspace)
               /\ nodeFor Example.cfg Example.fs file = Some node.
Proof.
  exists (mkScan Example.afterA [Settled Rejected; Settled Fulfilled]).
  split; [reflexivity|].
  apply (scan_nodes Example.cfg Example.fs Example.workspace).
  - eapply rtc_l; [exists 1%nat; reflexivity|].
    apply rtc_once. exists 0%nat. reflexivity.
  - intros sc' [i Hres]. by destruct i as [|[|i]].
Defined.

Lemma edgesFor_source cfg fs (file : string) (e : Edge) :
  In e (edgesFor cfg fs file) -> source e = id (Path.normalize file).
Proof.
  unfold edgesFor. cbv zeta. destruct (fs _) as [content|]; [|done].
  destruct (Parsing.not_ _); [done|]. by intros (l & <- & _)%in_map_iff.
Qed.

Lemma edgesFor_same_path cfg fs (file1 file2 : string) :
  Path.normalize file1 = Path.normalize file2 ->
  edgesFor cfg fs file1 = edgesFor cfg fs file2.
Proof. intros H. unfold edgesFor. by rewrite H. Qed.

(** X19.  When no two of the files have the same id, the edges at the end
    of such a scan are the references of the files that could be read and
    have a title, whatever the order in which the reads completed. *)
Theorem scan_edges cfg fs (workspace : list string) sc :
  (forall file1 file2 : string,
     In file1 (eligible cfg workspace) -> In file2 (eligible cfg workspace) ->
     id (Path.normalize file1) = id (Path.normalize file2) ->
     Path.normalize file1 = Path.normalize file2) ->
  rtc (step fs) (parseDirectory cfg workspace (parseFile cfg) (mkGraph [] []))
      sc ->
  quiescent fs sc ->
  forall e : Edge,
    In e (edges (graph sc))
    <-> exists file,
          In file (eligible cfg workspace) /\ In e (edgesFor cfg fs file).
Proof.
  intros Hinj Hrun Hq.
  destruct (run_invariant_scan cfg fs (eligible cfg workspace)
              (fun sc =>
                 forall e : Edge,
                   In e (edges (graph sc))
                   <-> exists (i : nat) (file : string),
                         eligible cfg workspace !! i = Some file
                         /\ settledAt sc i
                         /\ In e (edgesFor cfg fs file))
              (parseDirectory cfg workspace (parseFile cfg) (mkGraph [] []))
              sc) as (Hsc & Hedges).
  - clear sc Hrun Hq. intros sc i file Hsc Hedges Hfile Hi. cbn [graph].
    assert (forall (g' : Graph),
               (forall e, In e (edges g')
                          <-> In e (others (graph sc)
                                           (id (Path.normalize file)))
                              \/ In e (edgesFor cfg fs file)) ->
               forall e : Edge,
                 In e (edges g')
                 <-> exists (j : nat) (file' : string),
                       eligible cfg workspace !! j = Some file'
                       /\ settledAt (mkScan g' (<[i := Settled (outcome fs file)]>
                                                  (promises sc))) j
                       /\ In e (edgesFor cfg fs file')) as Hstep.
    { intros g' Hg' e. rewrite Hg'. split.
      - intros [Hold|Hin].
        + unfold others in Hold. apply filter_In in Hold as [Hold _].
          apply Hedges in Hold as (j & file' & Hj & Hset & He).
          exists j, file'. split; [done|]. split; [|done].
          apply (settledAt_insert sc g' i j _ _ Hi). by right.
        + exists i, file. split; [done|]. split; [|done].
          apply (settledAt_insert sc g' i i _ _ Hi). by left.
      - intros (j & file' & Hj & Hset & He).
        apply (settledAt_insert sc g' i j _ _ Hi) in Hset.
        destruct (decide (Path.normalize file' = Path.normalize file))
          as [Hsame|Hdiff].
        + right. by rewrite <- (edgesFor_same_path cfg fs file' file Hsame).
        + left. unfold others. apply filter_In. split.
          * destruct Hset as [->|Hset]; [congruence|].
            apply Hedges. by exists j, file'.
          * apply negb_true_iff, String.eqb_neq.
            rewrite (edgesFor_source cfg fs file' e He). intros Hid.
            apply Hdiff, Hinj; [| |done];
              by eapply list_elem_of_In, list_elem_of_lookup_2. }
    assert (forall e, In e (edges (graph sc)) ->
                      edgesFor cfg fs file = [] ->
                      In e (others (graph sc) (id (Path.normalize file))))
      as Hkeep.
    { intros e Hin Hnone. unfold others. apply filter_In. split; [done|].
      apply Hedges in Hin as (j & file' & Hj & Hset & He).
      apply negb_true_iff, String.eqb_neq.
      rewrite (edgesFor_source cfg fs file' e He). intros Hid.
      assert (Path.normalize file' = Path.normalize file) as Hsame.
      { apply Hinj; [| |done];
          by eapply list_elem_of_In, list_elem_of_lookup_2. }
      rewrite (edgesFor_same_path cfg fs file' file Hsame), Hnone in He.
      done. }
    destruct (fs (Path.normalize file)) as [content|] eqn:Hfs.
    + destruct (Parsing.not_ (findAsciidocTitle cfg content)) eqn:Ht.
      * assert (edgesFor cfg fs file = []) as Hnone.
        { unfold edgesFor. cbv zeta. by rewrite Hfs, Ht. }
        apply Hstep. intros e.
        rewrite (parseContent_edges_no_title cfg _ _ _ Ht), Hnone.
        split; [intros Hin; left; by apply Hkeep|].
        intros [Hin|[]]. unfold others in Hin.
        by apply filter_In in Hin as [Hin _].
      * apply Hstep. intros e.
        rewrite (parseContent_edges cfg _ _ _ Ht), in_app_iff.
        unfold edgesFor. cbv zeta. by rewrite Hfs, Ht.
    + assert (edgesFor cfg fs file = []) as Hnone.
      { unfold edgesFor. cbv zeta. by rewrite Hfs. }
      apply Hstep. intros e. rewrite Hnone.
      split; [intros Hin; left; by apply Hkeep|].
      intros [Hin|[]]. unfold others in Hin.
      by apply filter_In in Hin as [Hin _].
  - exact Hrun.
  - apply scanOf_start.
  - rewrite parseDirectory_parseFile. cbn [graph edges].
    intros e. split; [done|].
    intros (i & file & Hfile & [r Hset] & _). simpl in Hset.
    rewrite list_lookup_fmap, Hfile in Hset. done.
  - intros e. rewrite Hedges.
    apply (quiescent_all_settled _ _ _ _ Hsc) in Hq.
    split.
    + intros (i & file & Hfile & _ & He). exists file. split; [|done].
      by eapply list_elem_of_In, list_elem_of_lookup_2.
    + intros (file & Hin & He).
      apply list_elem_of_In, list_elem_of_lookup in Hin as [i Hfile].
      exists i, file. split; [done|]. split; [|done].
      destruct (Forall2_lookup_r _ _ _ _ _ Hsc Hfile) as (t & Ht & Hcase).
      assert (hasSettled t) as Hs.
      { apply (proj1 (List.Forall_forall _ _) Hq).
        by eapply list_elem_of_In, list_elem_of_lookup_2. }
      destruct Hcase as [->| ->]; [by destruct Hs|]. by eexists.
Qed.

(** An instance: the same scan; its two files have different ids. *)
Lemma scan_edges_witness :
  exists sc,
    promises sc = [Settled Rejected; Settled Fulfilled]
    /\ forall e : Edge,
         In e (edges (graph sc))
         <-> exists file,
               In file (eligible Example.cfg Example.workspace)
               /\ In e (edgesFor Example.cfg Example.fs file).
Proof.
  exists (mkScan Example.afterA [Settled Rejected; Settled Fulfilled]).
  split; [reflexivity|].
  apply (scan_edges Example.cfg Example.fs Example.workspace).
  - intros file1 file2 H1 H2.
    assert (eligible Example.cfg Example.workspace
            = ["/docs/gone.adoc"; "/docs/a.adoc"]%string) as Hel
      by (vm_compute; reflexivity).
    rewrite Hel in H1, H2.
    destruct H1 as [<-|[<-|[]]]; destruct H2 as [<-|[<-|[]]];
      vm_compute; congruence.
  - eapply rtc_l; [exists 1%nat; reflexivity|].
    apply rtc_once. exists 0%nat. reflexivity.
  - intros sc' [i Hres]. by destruct i as [|[|i]].
Defined.

End Results.

Section Digest.

Import Md5.

Local Open Scope Z_scope.

Lemma leBytes_range (n : nat) (x : Z) :
  Forall (fun b => 0 <= b < 256) (leBytes n x).
Proof.
  revert x. induction n as [|n IH]; intros x; simpl; constructor.
  - apply Z.mod_pos_bound. lia.
  - apply IH.
Qed.

Lemma leBytes_length (n : nat) (x : Z) : List.length (leBytes n x) = n.
Proof. revert x. induction n as [|n IH]; intros x; simpl; congruence. Qed.

Lemma digest_bytes (m : list Z) :
  List.length (digest m) = 16%nat /\ Forall (fun b => 0 <= b < 256) (digest m).
Proof.
  unfold digest. cbv zeta.
  destruct (fold_left block _ _) as [[[a b] c] d].
  split.
  - by rewrite !length_app, !leBytes_length.
  - repeat apply Forall_app_2; apply leBytes_range.
Qed.

Lemma hexDigit_In (n : Z) :
  0 <= n < 16 -> In (hexDigit n) (Js.chars "0123456789abcdef").
Proof.
  intros Hn. unfold hexDigit. apply nth_In.
  change (List.length (Js.chars "0123456789abcdef")) with 16%nat. lia.
Qed.

Lemma hex_digits (bs : list Z) :
  Forall (fun b => 0 <= b < 256) bs ->
  String.length (hex bs) = (2 * List.length bs)%nat
  /\ Forall (fun c => In c (Js.chars "0123456789abcdef")) (Js.chars (hex bs)).
Proof.
  intros Hall. unfold hex. rewrite str_length, chars_str.
  induction Hall as [|b bs Hb _ [IH1 IH2]]; [by split|].
  cbn [flat_map app List.length]. split; [lia|].
  constructor; [|constructor; [|done]]; apply hexDigit_In.
  - split; [apply Z.div_pos; lia|apply Z.div_lt_upper_bound; lia].
  - apply Z.mod_pos_bound. lia.
Qed.

(** X20.  An id is 32 characters long and made of the digits and the
    letters a to f: it has no dash in it, nor any other character that
    would need quoting. *)
Theorem id_is_32_hex_digits (path : string) :
  String.length (id path) = 32%nat
  /\ Forall (fun c => In c (Js.chars "0123456789abcdef")) (Js.chars (id path)).
Proof.
  unfold id, md5hex.
  destruct (digest_bytes (bytesOf (pathWithoutExt path))) as [Hlen Hall].
  destruct (hex_digits _ Hall) as [H1 H2]. rewrite Hlen in H1. by split.
Qed.

End Digest.

Section Redraw.

Import GraphJs.



End Redraw.
Section Links2.

Import GraphJs Terms.

Implicit Types (ns : list Node) (es : list Edge) (e : Edge).

Lemma ofEdge_source e : ofEdge e !! "source" = Some (Str (source e)).
Proof. unfold ofEdge. by rewrite lookup_insert_eq. Qed.

Lemma ofEdge_target e : ofEdge e !! "target" = Some (Str (target e)).
Proof.
  unfold ofEdge. rewrite lookup_insert_ne by done. by rewrite lookup_insert_eq.
Qed.

Lemma ofEdge_type e : ofEdge e !! "type" = Some (Str (typeName (type e))).
Proof.
  unfold ofEdge. rewrite !lookup_insert_ne by done.
  by rewrite lookup_singleton_eq.
Qed.

Lemma typeOr_typeName (t : EdgeType) :
  typeOr (Some (Str (typeName t))) = Some (Str (typeName t)).
Proof. by destruct t. Qed.

Lemma nextKey_ofEdge e : nextKey (ofEdge e) = edgeKey e.
Proof.
  unfold nextKey, edgeKey.
  by rewrite ofEdge_source, ofEdge_target, ofEdge_type, typeOr_typeName.
Qed.

Lemma ofNode_id (n : Node) : ofNode n !! "id" = Some (Types.id n).
Proof. unfold ofNode. by rewrite lookup_insert_eq. Qed.

(** The layout replaces the id of a node of the snapshot by a node that
    has this id. *)
Lemma bind_hasNode ns es (s : string) :
  hasNode (mkGraph ns es) s ->
  exists n : nodeObj,
    bind (map ofNode ns) (Some (Str s)) = Some (Ref n)
    /\ n !! "id" = Some s.
Proof.
  intros (node & Hin & Hid). cbn [nodes] in Hin. unfold bind.
  destruct (find _ (map ofNode ns)) as [n|] eqn:Hf.
  - apply find_some in Hf as [_ Hn]. apply bool_decide_eq_true in Hn.
    by exists n.
  - exfalso. eapply find_none in Hf.
    + apply bool_decide_eq_false in Hf. apply Hf.
      rewrite <- Hid. apply (ofNode_id node).
    + by apply in_map.
Qed.

Lemma bindLink_source (nodes : list nodeObj) (edge : linkObj) :
  bindLink nodes edge !! "source" = bind nodes (edge !! "source").
Proof.
  unfold bindLink. rewrite lookup_partial_alter_ne by done.
  by rewrite lookup_partial_alter_eq.
Qed.

Lemma bindLink_target (nodes : list nodeObj) (edge : linkObj) :
  bindLink nodes edge !! "target" = bind nodes (edge !! "target").
Proof. unfold bindLink. by rewrite lookup_partial_alter_eq. Qed.

Lemma bindLink_type (nodes : list nodeObj) (edge : linkObj) :
  bindLink nodes edge !! "type" = edge !! "type".
Proof. unfold bindLink. by rewrite !lookup_partial_alter_ne. Qed.

Lemma previousKey_bound ns es e :
  hasNode (mkGraph ns es) (source e) -> hasNode (mkGraph ns es) (target e) ->
  previousKey (bindLink (map ofNode ns) (ofEdge e)) = Some (edgeKey e).
Proof.
  intros (n1 & Hb1 & Hid1)%bind_hasNode (n2 & Hb2 & Hid2)%bind_hasNode.
  unfold previousKey.
  rewrite bindLink_source, bindLink_target, bindLink_type.
  rewrite ofEdge_source, ofEdge_target, ofEdge_type, Hb1, Hb2.
  cbn [idOf]. rewrite Hid1, Hid2. by rewrite typeOr_typeName.
Qed.

(** The set [sameEdges] builds when no link throws. *)
Lemma sameEdges_set (previous : list linkObj) (keys : list string)
    (acc : gset string) :
  Forall2 (fun edge key => previousKey edge = Some key) previous keys ->
  foldl (fun (acc : option (gset string)) edge =>
           set ← acc; key ← previousKey edge; Some ({[ key ]} ∪ set))
        (Some acc) previous
  = Some (list_to_set keys ∪ acc).
Proof.
  intros Hkeys. revert acc.
  induction Hkeys as [|edge key previous keys Hk _ IH]; intros acc; simpl.
  - by rewrite (left_id_L ∅ (∪)).
  - rewrite Hk. simpl. rewrite IH. f_equal.
    apply leibniz_equiv. intros x. rewrite !elem_of_union. tauto.
Qed.

(** X22.  Against the links the view shows for a snapshot whose edges all
    join nodes of the snapshot, [sameEdges] does not throw, and it answers
    true exactly for a list of the same length whose every edge has the
    key of a shown edge: the order does not count, and neither does how
    often a key occurs. *)
Theorem sameEdges_of_shown_links ns es (next : list Edge) (r : nat) :
  (forall e, In e es ->
             hasNode (mkGraph ns es) (source e)
             /\ hasNode (mkGraph ns es) (target e)) ->
  exists b : bool,
    sameEdges (linksData (restart (mkView (map ofNode ns) (map ofEdge es) r)))
              (map ofEdge next)
    = Some b
    /\ (b = true
        <-> List.length next = List.length es
            /\ forall e', In e' next ->
                          exists e, In e es /\ edgeKey e = edgeKey e').
Proof.
  intros Hall. unfold restart, sameEdges. cbn [linksData nodesData].
  rewrite !length_map.
  destruct (Nat.eqb_spec (List.length next) (List.length es)) as [Hlen|Hlen];
    cbn [negb].
  2:{ exists false. split; [done|]. split; [done|]. by intros [? _]. }
  rewrite (sameEdges_set _ (map edgeKey es)).
  2:{ assert (forall l : list Edge,
                 (forall e, In e l -> In e es) ->
                 Forall2 (fun edge key => previousKey edge = Some key)
                         (map (bindLink (map ofNode ns)) (map ofEdge l))
                         (map edgeKey l)) as Hkeys.
      { induction l as [|e l IH]; intros Hl; simpl; constructor.
        - destruct (Hall e (Hl e (or_introl eq_refl))) as [H1 H2].
          by apply (previousKey_bound ns es).
        - apply IH. intros e0 Hin0. apply Hl. by right. }
      by apply Hkeys. }
  eexists. split; [reflexivity|].
  rewrite forallb_forall. split.
  - intros Hkeys. split; [done|]. intros e' Hin'.
    specialize (Hkeys (ofEdge e') (in_map _ _ _ Hin')).
    apply bool_decide_eq_true in Hkeys. rewrite nextKey_ofEdge in Hkeys.
    apply elem_of_union in Hkeys as [Hk|Hk]; [|set_solver].
    apply elem_of_list_to_set, list_elem_of_In, in_map_iff in Hk
      as (e & He & Hin).
    by exists e.
  - intros [_ Hkeys] o (e' & <- & Hin')%in_map_iff.
    apply bool_decide_eq_true. rewrite nextKey_ofEdge.
    destruct (Hkeys e' Hin') as (e & Hin & <-).
    apply elem_of_union. left.
    apply elem_of_list_to_set, list_elem_of_In, in_map_iff. by exists e.
Qed.

(** An instance: two nodes and the edge between them, shown and sent
    again. *)
Lemma sameEdges_of_shown_links_witness :
  exists b : bool,
    sameEdges
      (linksData
         (restart
            (mkView (map ofNode [mkNode "0a" "/docs/a.adoc" "A";
                                 mkNode "0b" "/docs/b.adoc" "B"])
                    (map ofEdge [mkEdge "0a" "0b" include]) 0)))
      (map ofEdge [mkEdge "0a" "0b" include])
    = Some b
    /\ (b = true
        <-> List.length [mkEdge "0a" "0b" include]
            = List.length [mkEdge "0a" "0b" include]
            /\ forall e',
                 In e' [mkEdge "0a" "0b" include] ->
                 exists e,
                   In e [mkEdge "0a" "0b" include]
                   /\ edgeKey e = edgeKey e').
Proof.
  apply (sameEdges_of_shown_links
           [mkNode "0a" "/docs/a.adoc" "A"; mkNode "0b" "/docs/b.adoc" "B"]
           [mkEdge "0a" "0b" include] [mkEdge "0a" "0b" include] 0).
  intros e [<-|[]]. split.
  - exists (mkNode "0a" "/docs/a.adoc" "A"). split; [by left|reflexivity].
  - exists (mkNode "0b" "/docs/b.adoc" "B"). split; [right; by left|reflexivity].
Defined.

End Links2.

Section Includes.

Import Regex Matching Terms.

Implicit Types (w t a aft bef rest pre post : list ascii) (p q : pos).

(** Two places that are both the first where something holds are one
    place. *)
Lemma first_split_unique {A} (P : list A -> list A -> Prop)
    (pre post pre' post' : list A) :
  pre ++ post = pre' ++ post' ->
  P pre post -> P pre' post' ->
  (forall u v, pre = u ++ v -> v <> [] ->
                     ~ P u (v ++ post)) ->
  (forall u v, pre' = u ++ v -> v <> [] ->
                     ~ P u (v ++ post')) ->
  pre = pre' /\ post = post'.
Proof.
  intros Heq HP HP' Hfirst Hfirst'.
  destruct (decide (List.length pre = List.length pre')) as [Hlen|Hlen].
  { by apply app_inj_1 in Heq. }
  exfalso.
  destruct (Nat.lt_ge_cases (List.length pre) (List.length pre')) as [Hlt|Hge].
  - assert (pre' = pre ++ drop (List.length pre) pre'
            /\ post = drop (List.length pre) pre' ++ post') as [Hp1 Hp2].
    { rewrite <- (take_drop (List.length pre) pre') in Heq at 1.
      rewrite <- app_assoc in Heq.
      apply app_inj_1 in Heq as [H1 H2]; [|rewrite length_take; lia].
      split; [|done]. rewrite H1 at 1. by rewrite take_drop. }
    apply (Hfirst' pre (drop (List.length pre) pre') Hp1).
    + intros Hnil. apply (f_equal (@List.length _)) in Hnil.
      rewrite length_drop in Hnil. simpl in Hnil. lia.
    + by rewrite <- Hp2.
  - assert (pre = pre' ++ drop (List.length pre') pre
            /\ post' = drop (List.length pre') pre ++ post) as [Hp1 Hp2].
    { rewrite <- (take_drop (List.length pre') pre) in Heq at 1.
      rewrite <- app_assoc in Heq. symmetry in Heq.
      apply app_inj_1 in Heq as [H1 H2]; [|rewrite length_take; lia].
      split; [|done]. rewrite H1 at 1. by rewrite take_drop. }
    apply (Hfirst pre' (drop (List.length pre') pre) Hp1).
    + intros Hnil. apply (f_equal (@List.length _)) in Hnil.
      rewrite length_drop in Hnil. simpl in Hnil. lia.
    + by rewrite <- Hp2.
Qed.

(** A text up to the first occurrence of a character. *)
Lemma until_unique (c : ascii) (l1 l2 r1 r2 : list ascii) :
  ~ In c l1 -> ~ In c l2 -> l1 ++ c :: r1 = l2 ++ c :: r2 ->
  l1 = l2 /\ r1 = r2.
Proof.
  revert l2. induction l1 as [|x l1 IH]; intros [|y l2] H1 H2 Heq; simpl in *.
  - by injection Heq as ->.
  - injection Heq as -> _. destruct H2. by left.
  - injection Heq as -> _. destruct H1. by left.
  - injection Heq as -> Heq.
    destruct (IH l2) as [-> ->]; [tauto|tauto|done|done].
Qed.

Lemma includeAt_unique aft t a rest t' a' rest' :
  includeAt aft t a rest -> includeAt aft t' a' rest' ->
  t = t' /\ a = a' /\ rest = rest'.
Proof.
  intros (-> & _ & Ht & Ha) (Heq & _ & Ht' & Ha').
  apply app_inv_head in Heq.
  destruct (until_unique "[" t t' _ _ Ht Ht' Heq) as [-> Heq2].
  destruct (until_unique "]" a a' _ _ Ha Ha' Heq2) as [-> ->]. done.
Qed.

Lemma inb_In (c : ascii) (cs : list ascii) : inb c cs = false <-> ~ In c cs.
Proof.
  unfold inb. split.
  - intros Hb Hin. assert (existsb (Ascii.eqb c) cs = true) as Ht; [|congruence].
    apply existsb_exists. exists c. split; [done|apply Ascii.eqb_refl].
  - intros Hn. destruct (existsb (Ascii.eqb c) cs) eqn:Hb; [|done].
    apply existsb_exists in Hb as (x & Hin & ->%Ascii.eqb_eq). done.
Qed.

(** Where the pattern of the include directives matches, a directive
    stands; the groups are its target and its attributes, and the match
    ends where the directive ends. *)
Lemma run_include_sound bef aft q :
  run includePattern Some (Pos bef aft []) = Some q ->
  exists t a,
    includeAt aft t a (after q) /\ group 1 q = t /\ group 2 q = a.
Proof.
  intros (q' & Hm & [= ->])%run_matches. unfold includePattern in Hm.
  apply matches_seq_cons in Hm as (p1 & Htext & Hm).
  apply matches_seq_cons in Hm as (p2 & Htarget & Hm).
  apply matches_seq_cons in Hm as (p3 & (rest3 & Ha3 & ->) & Hm).
  apply matches_seq_cons in Hm as (p4 & (p5 & Hattrs & ->) & Hm).
  apply matches_seq_cons in Hm as (p6 & (rest6 & Ha6 & ->) & ->).
  pose proof (matches_extends _ _ _ Htext) as Hext1.
  pose proof (matches_plain (text "include::") _ _ eq_refl Htext) as Hcaps1.
  apply matches_text in Htext.
  pose proof (extends_consumed _ _ Hext1) as Hsplit1.
  rewrite Htext in Hsplit1. cbn [after] in Hsplit1.
  pose proof (matches_extends _ _ _ Htarget) as Hext2.
  pose proof (extends_consumed _ _ Hext2) as Hsplit2.
  destruct (matches_target _ _ _ Htarget) as (w & Hw & Hwall & Hcaps2).
  destruct Htarget as (p2' & _ & ->). unfold captured in Hcaps2, Hsplit2, Ha3.
  cbn [caps after] in Hcaps2, Hsplit2, Ha3.
  assert (consumed p1 p2' = w ++ Js.chars ".adoc") as Htarget by congruence.
  assert (consumed p1 (Pos (before p2') (after p2')
                           ((1%nat, consumed p1 p2') :: caps p2'))
          = consumed p1 p2') as Hsame by done.
  rewrite Hsame, Htarget, Ha3 in Hsplit2.
  apply (matches_class (fun c => inb c ["]"%char] = false)) in Hattrs
    as (Hext4 & Hall4 & Hcaps4).
  2:{ intros x y (b & rest' & Hb & Hinb & ->). exists b. by rewrite Hb. }
  pose proof (extends_consumed _ _ Hext4) as Hsplit4.
  cbn [advance after] in Hsplit4. unfold captured in Ha6.
  cbn [after] in Ha6. rewrite Ha6 in Hsplit4.
  remember (consumed (advance "[" (captured 1 p1 p2') rest3) p5) as a0 eqn:Ea.
  exists (w ++ Js.chars ".adoc"), a0.
  split; [split; [|split; [|split]]|split].
  - cbn [advance after]. rewrite Hsplit1, Hsplit2, Hsplit4.
    by rewrite <- !app_assoc.
  - by exists w.
  - intros [Hin|Hin]%in_app_iff.
    + apply (proj1 (List.Forall_forall _ _) Hwall) in Hin.
      apply inb_In in Hin. apply Hin. by left.
    + simpl in Hin. intuition discriminate.
  - intros Hin. apply (proj1 (List.Forall_forall _ _) Hall4) in Hin.
    apply inb_In in Hin. apply Hin. by left.
  - unfold group, captured. cbn [advance caps list_find fst].
    rewrite decide_False by done. cbn [fmap option_fmap option_map].
    rewrite Hcaps4. unfold captured. cbn [advance caps list_find fst].
    rewrite decide_True by done. exact Htarget.
  - unfold group, captured. cbn [advance caps list_find fst].
    rewrite decide_True by done. by rewrite Ea.
Qed.

Lemma run_seq_cons (r : re) (rs : list re) (k : pos -> option pos) p :
  run (seq (r :: rs)) k p = run r (run (seq rs) k) p.
Proof. done. Qed.

Lemma run_text (s : string) (k : pos -> option pos) p (rest : list ascii) :
  after p = Js.chars s ++ rest ->
  run (text s) k p = k (Pos (rev (Js.chars s) ++ before p) rest (caps p)).
Proof.
  intros Ha. unfold text. rewrite run_text_chars, Ha.
  assert (Js.prefixL (Js.chars s) (Js.chars s ++ rest) = true) as ->
    by (apply prefixL_spec; by eexists).
  by rewrite drop_app_length.
Qed.

(** One or more, or any number of, characters outside a class: a match
    wherever the continuation has one after such characters. *)
Lemma run_star_noneOf_some (cs : list ascii) (k : pos -> option pos) p w rest :
  after p = w ++ rest ->
  Forall (fun c => inb c cs = false) w ->
  is_Some (k (Pos (rev w ++ before p) rest (caps p))) ->
  is_Some (run (Star (NoneOf cs)) k p).
Proof.
  intros Ha Hall Hk. cbn [run].
  apply (rounds_class_some (fun c => negb (inb c cs)) _ _ _ _ w rest);
    [|done| |done|done].
  - intros k' p'. simpl. destruct (after p') as [|b l]; [done|].
    by destruct (inb b cs).
  - eapply Forall_impl; [exact Hall|]. intros c Hc. simpl. by rewrite Hc.
Qed.

Lemma run_plus_noneOf_some (cs : list ascii) (k : pos -> option pos) p w rest :
  after p = w ++ rest -> w <> [] ->
  Forall (fun c => inb c cs = false) w ->
  is_Some (k (Pos (rev w ++ before p) rest (caps p))) ->
  is_Some (run (Plus (NoneOf cs)) k p).
Proof.
  intros Ha Hw Hall Hk. destruct w as [|c w]; [done|].
  apply Forall_cons in Hall as [Hc Hall].
  cbn [run]. rewrite Ha. cbn [app]. rewrite Hc.
  apply (rounds_class_some (fun c => negb (inb c cs)) _ _ _ _ w rest).
  - intros k' p'. simpl. destruct (after p') as [|b l]; [done|].
    by destruct (inb b cs).
  - done.
  - eapply Forall_impl; [exact Hall|]. intros x Hx. simpl. by rewrite Hx.
  - simpl. rewrite length_app. lia.
  - simpl in Hk |- *. by rewrite <- app_assoc in Hk.
Qed.

(** Where an include directive stands the pattern matches. *)
Lemma run_include_complete bef aft t a rest :
  includeAt aft t a rest ->
  is_Some (run includePattern Some (Pos bef aft [])).
Proof.
  intros (-> & (w & Hw & ->) & Ht & Ha). unfold includePattern.
  rewrite run_seq_cons.
  rewrite (run_text "include::" _ _
             ((w ++ Js.chars ".adoc") ++ "["%char :: a ++ "]"%char :: rest))
    by done.
  rewrite run_seq_cons. cbn [run].
  rewrite run_seq_cons.
  apply (run_plus_noneOf_some _ _ _ w
           (Js.chars ".adoc" ++ "["%char :: a ++ "]"%char :: rest)).
  - cbn [after]. by rewrite <- app_assoc.
  - done.
  - apply List.Forall_forall. intros c Hc. apply inb_In. intros [<-|[]].
    apply Ht, in_app_iff. by left.
  - rewrite run_seq_cons.
    rewrite (run_text ".adoc" _ _ ("["%char :: a ++ "]"%char :: rest)) by done.
    cbn [seq fold_right run before after caps]. cbn [Ascii.eqb Bool.eqb].
    apply (rounds_class_some (fun c => negb (inb c ["]"%char])) _ _ _ _ a
                             ("]"%char :: rest)).
    + intros k' p'. destruct (after p') as [|b l]; [done|].
      by destruct (inb b ["]"%char]).
    + done.
    + apply List.Forall_forall. intros c Hc. apply negb_true_iff, inb_In.
      intros [<-|[]]. by apply Ha.
    + done.
    + cbn [before after caps advance]. by cbn [Ascii.eqb Bool.eqb].
Qed.

Lemma includeAt_shorter aft t a rest :
  includeAt aft t a rest -> (List.length rest < List.length aft)%nat.
Proof. intros (-> & _). rewrite !length_app. simpl. rewrite length_app. simpl. lia. Qed.

(** The matches of the pattern are the directives, one after the other. *)
Lemma execAll_includes aft (l : list (list ascii * list ascii)) :
  includesOf aft l ->
  forall (fuel : nat) bef,
    (List.length aft < fuel)%nat ->
    map (fun q => (group 1 q, group 2 q)) (execAll includePattern fuel bef aft)
    = l.
Proof.
  induction 1 as [aft Hnone|pre post t a rest l Hat Hfirst _ IH];
    intros fuel bef Hfuel; (destruct fuel as [|fuel]; [lia|]); simpl.
  - destruct (search includePattern bef aft) as [q|] eqn:Hs; [|done].
    apply search_first in Hs as (pre & post & Heq & Hrun & _).
    apply run_include_sound in Hrun as (t & a & Hat & _).
    by destruct (Hnone pre post t a (after q) Heq).
  - assert (is_Some (search includePattern bef (pre ++ post))) as [q Hs].
    { apply search_is_Some. exists pre, post. split; [done|].
      by eapply run_include_complete. }
    rewrite Hs.
    apply search_first in Hs as (pre' & post' & Heq & Hrun & Hfirst').
    apply run_include_sound in Hrun as (t' & a' & Hat' & Hg1 & Hg2).
    destruct (first_split_unique
                (fun _ post => exists t a rest, includeAt post t a rest)
                pre post pre' post' Heq) as [-> ->].
    + by exists t, a, rest.
    + by exists t', a', (after q).
    + intros u v Hu Hv (t0 & a0 & rest0 & H0). by eapply Hfirst.
    + intros u v Hu Hv (t0 & a0 & rest0 & H0).
      apply (run_include_complete (rev u ++ bef)) in H0 as [q0 Hq0].
      rewrite (Hfirst' u v Hu Hv) in Hq0. done.
    + destruct (includeAt_unique _ _ _ _ _ _ _ Hat Hat') as (-> & -> & ->).
      simpl. rewrite Hg1, Hg2. f_equal. apply IH.
      apply includeAt_shorter in Hat'. rewrite length_app in Hfuel. lia.
Qed.

(** Every content has its directives. *)
Lemma includesOf_total (n : nat) aft :
  (List.length aft < n)%nat -> exists l, includesOf aft l.
Proof.
  revert aft. induction n as [|n IH]; intros aft Hn; [lia|].
  destruct (search includePattern [] aft) as [q|] eqn:Hs.
  - apply search_first in Hs as (pre & post & -> & Hrun & Hfirst).
    apply run_include_sound in Hrun as (t & a & Hat & _).
    destruct (IH (after q)) as [l Hl].
    { apply includeAt_shorter in Hat. rewrite length_app in Hn. lia. }
    exists ((t, a) :: l).
    apply (includesOf_next pre post t a (after q) l); [done| |done].
    intros u v t0 a0 rest0 Hu Hv H0.
    apply (run_include_complete (rev u ++ [])) in H0 as [q0 Hq0].
    rewrite (Hfirst u v Hu Hv) in Hq0. done.
  - exists []. apply includesOf_none. intros pre post t a rest Heq Hat.
    apply (run_include_complete (rev pre ++ [])) in Hat as [q0 Hq0].
    rewrite (search_none _ _ _ Hs pre post Heq) in Hq0. done.
Qed.

Lemma filter_map_comm {A B} (f : A -> B) (c : B -> bool) (l : list A) :
  List.filter c (map f l) = map f (List.filter (fun x => c (f x)) l).
Proof.
  induction l as [|x l IH]; simpl; [done|].
  destruct (c (f x)); simpl; by rewrite IH.
Qed.

(** X23.  The references [findAsciidocLinks] makes for include directives
    are those of the include directives of the content, from left to
    right, each looked for where the one before it ends: "include::", a
    target without "[" that ends in ".adoc", and the attributes between
    "[" and the next "]".  A directive whose trimmed target starts with
    "http://" or "https://" gives no reference; every other one gives one,
    in the order of the document. *)
Theorem findAsciidocLinks_includes (content : string) :
  (exists l, includesOf (Js.chars content) l)
  /\ forall l,
       includesOf (Js.chars content) l ->
       List.filter (fun x => negb (bool_decide (linkType x = link)))
                   (findAsciidocLinks content)
       = map includeRef (List.filter internal l).
Proof.
  split; [apply (includesOf_total (S (List.length (Js.chars content)))); lia|].
  intros l Hl.
  pose proof (execAll_includes _ _ Hl (S (String.length content)) []) as Hall.
  rewrite chars_length in Hall. specialize (Hall (Nat.lt_succ_diag_r _)).
  fold (matchAll includePattern content) in Hall.
  rewrite findAsciidocLinks_loops, !List.filter_app.
  rewrite !filter_map_comm. cbn [linkType].
  rewrite !filter_none by (apply List.Forall_forall; by intros m _).
  cbn [map app]. unfold includeRefs. rewrite filter_map_comm. cbn [linkType].
  rewrite filter_all.
  2:{ apply List.Forall_forall. intros m _. unfold includeType.
      by destruct (hasPartialIncludeAttributes _). }
  rewrite <- Hall, filter_map_comm, map_map. done.
Qed.

End Includes.
